(** * AgentLedger integrity core: a shallow embedding and its verification

    The development follows [packages/core/src]: [crypto.ts] (canonical
    hashing, hash chain, Merkle tree, Ed25519 signatures), [storage.ts]
    (the three storage backends) and [ledger.ts] (the session
    orchestrator).

    Conventions of the embedding.
    - A JavaScript string is a [string] of code units below 256; SHA-256
      hashes the bytes of its UTF-8 encoding, one byte for a code unit
      below 128 and two from there on.
    - A JavaScript number that the integrity core handles (sequence
      numbers, indices, lengths, token counts) is an integer of magnitude
      below [2 ^ 53], a [Z], written in decimal with no exponent. The one
      number that is not the core's own, the [snapshotInterval] of the
      configuration, is any [number]: a fraction, an infinity or [NaN].
    - A JavaScript object is the list of its own properties in property
      order (integer-like keys first, ascending, then the other keys in
      insertion order); a property whose value is [undefined] is absent.
    - A function that may throw returns a [Result]; a loop that may spin
      forever is run on fuel and yields [None] when no fuel suffices.
    - Node's [crypto] signature primitives, the clock, the UUID source
      and the file system are interfaces ([NodeCrypto], [NodeRuntime],
      [NodeFileSystem]) of which nothing is assumed; SHA-256 is
      implemented in full (FIPS 180-4) so that digests can be computed. *)

From Stdlib Require Import ZArith String Ascii List Lia Bool Permutation DecimalString.
From stdpp Require Import base gmap strings.
Import ListNotations.
Set Warnings "-register-all".

(* ====================================================================== *)
(** ** SHA-256 ([createHash('sha256').update(data).digest('hex')]) *)
(* ====================================================================== *)

Module SHA256.
Local Open Scope Z_scope.

(** Wrap-around to 32 bits. *)
Definition w32 (x : Z) : Z := Z.land x 4294967295.

Definition rotr (n x : Z) : Z := Z.lor (Z.shiftr x n) (w32 (Z.shiftl x (32 - n))).
Definition Ch (x y z : Z) : Z := Z.lxor (Z.land x y) (Z.land (Z.lnot x) z).
Definition Maj (x y z : Z) : Z := Z.lxor (Z.lxor (Z.land x y) (Z.land x z)) (Z.land y z).
Definition bsig0 (x : Z) : Z := Z.lxor (Z.lxor (rotr 2 x) (rotr 13 x)) (rotr 22 x).
Definition bsig1 (x : Z) : Z := Z.lxor (Z.lxor (rotr 6 x) (rotr 11 x)) (rotr 25 x).
Definition ssig0 (x : Z) : Z := Z.lxor (Z.lxor (rotr 7 x) (rotr 18 x)) (Z.shiftr x 3).
Definition ssig1 (x : Z) : Z := Z.lxor (Z.lxor (rotr 17 x) (rotr 19 x)) (Z.shiftr x 10).

(** The first sixty-four prime numbers. *)
Definition primes : list Z :=
  [2; 3; 5; 7; 11; 13; 17; 19; 23; 29; 31; 37; 41; 43; 47; 53;
   59; 61; 67; 71; 73; 79; 83; 89; 97; 101; 103; 107; 109; 113; 127; 131;
   137; 139; 149; 151; 157; 163; 167; 173; 179; 181; 191; 193; 197; 199; 211; 223;
   227; 229; 233; 239; 241; 251; 257; 263; 269; 271; 277; 281; 283; 293; 307; 311].

(** The integer part of the cube root, one bit at a time, for [n] below
    [2 ^ 108]. *)
Definition cube_root (n : Z) : Z :=
  fold_left (fun r b => let r' := r + 2 ^ b in if r' ^ 3 <=? n then r' else r)
            (map Z.of_nat (rev (seq 0 36))) 0.

(** The round constants: the first thirty-two bits of the fractional parts
    of the cube roots of the primes. *)
Definition K : list Z :=
  Eval vm_compute in map (fun p => w32 (cube_root (p * 2 ^ 96))) primes.

(** The eight working variables, and the eight words of a digest. *)
Record state : Type := mkState
  { sa : Z; sb : Z; sc : Z; sd : Z; se : Z; sf : Z; sg : Z; sh : Z }.

Definition H0 : state :=
  mkState 0x6a09e667 0xbb67ae85 0x3c6ef372 0xa54ff53a 0x510e527f 0x9b05688c 0x1f83d9ab 0x5be0cd19.

(** The UTF-8 encoding of a code unit below 256: one byte below 128, two
    bytes from there on. *)
Definition utf8_of_code_unit (c : Z) : list Z :=
  if c <? 128 then [c] else [192 + Z.shiftr c 6; 128 + Z.land c 63].

(** [Buffer.from(s, 'utf-8')], the bytes that are hashed. *)
Definition bytes_of_string (s : string) : list Z :=
  flat_map (fun c => utf8_of_code_unit (Z.of_N (N_of_ascii c))) (list_ascii_of_string s).

(** The [n] low bytes of [x], most significant first. *)
Definition be_bytes (n : nat) (x : Z) : list Z :=
  map (fun i => Z.land (Z.shiftr x (8 * Z.of_nat i)) 255) (rev (seq 0 n)).

(** Message padding: a one bit, zeros, and the bit length on 64 bits. *)
Definition pad (msg : list Z) : list Z :=
  let len := Z.of_nat (length msg) in
  msg ++ [0x80] ++ repeat 0 (Z.to_nat ((55 - len) mod 64)) ++ be_bytes 8 (8 * len).

Fixpoint words_of_bytes (bs : list Z) : list Z :=
  match bs with
  | b0 :: b1 :: b2 :: b3 :: rest =>
      (Z.shiftl b0 24 + Z.shiftl b1 16 + Z.shiftl b2 8 + b3) :: words_of_bytes rest
  | _ => []
  end.

(** The message schedule, produced from a sliding window of sixteen words. *)
Fixpoint expand (n : nat) (w : list Z) : list Z :=
  match n, w with
  | S n', w0 :: rest =>
      let nw := w32 (ssig1 (nth 14 w 0) + nth 9 w 0 + ssig0 (nth 1 w 0) + w0) in
      w0 :: expand n' (rest ++ [nw])
  | _, _ => []
  end.

Definition round (s : state) (kw : Z * Z) : state :=
  let t1 := sh s + bsig1 (se s) + Ch (se s) (sf s) (sg s) + fst kw + snd kw in
  let t2 := bsig0 (sa s) + Maj (sa s) (sb s) (sc s) in
  mkState (w32 (t1 + t2)) (sa s) (sb s) (sc s) (w32 (sd s + t1)) (se s) (sf s) (sg s).

Definition compress (h : state) (block : list Z) : state :=
  let s := fold_left round (combine K (expand 64 block)) h in
  mkState (w32 (sa h + sa s)) (w32 (sb h + sb s)) (w32 (sc h + sc s)) (w32 (sd h + sd s))
          (w32 (se h + se s)) (w32 (sf h + sf s)) (w32 (sg h + sg s)) (w32 (sh h + sh s)).

Fixpoint blocks (n : nat) (ws : list Z) : list (list Z) :=
  match n with
  | O => []
  | S n' => match ws with [] => [] | _ => firstn 16 ws :: blocks n' (skipn 16 ws) end
  end.

Definition digest (s : string) : state :=
  let ws := words_of_bytes (pad (bytes_of_string s)) in
  fold_left compress (blocks (length ws) ws) H0.

Definition hex_digit (n : Z) : ascii :=
  if n <? 10 then ascii_of_N (Z.to_N (48 + n)) else ascii_of_N (Z.to_N (87 + n)).

(** Eight lowercase hexadecimal digits of a 32-bit word. *)
Definition hex_word (x : Z) : string :=
  string_of_list_ascii
    (map (fun i => hex_digit (Z.land (Z.shiftr x (4 * Z.of_nat i)) 15)) (rev (seq 0 8))).

Definition hex_of_state (s : state) : string :=
  hex_word (sa s) +:+ hex_word (sb s) +:+ hex_word (sc s) +:+ hex_word (sd s) +:+
  hex_word (se s) +:+ hex_word (sf s) +:+ hex_word (sg s) +:+ hex_word (sh s).

End SHA256.

(** [sha256(data)]: the digest of a string, in hexadecimal. *)
Definition sha256 (data : string) : string := SHA256.hex_of_state (SHA256.digest data).

(* ====================================================================== *)
(** ** JavaScript values and [JSON.stringify] *)
(* ====================================================================== *)

(** The data a log entry is made of. *)
Inductive value : Type :=
| JNull
| JBool (b : bool)
| JNum (n : Z)
| JStr (s : string)
| JArr (items : list value)
| JObj (fields : list (string * value)).

(** A JavaScript object with values in [V], in property order. *)
Definition object (V : Type) : Type := list (string * V).

Definition dquote : ascii := "034"%char.
Definition backslash : ascii := "092"%char.

(** [Number::toString] on an integer. *)
Definition number_to_string (n : Z) : string := NilZero.string_of_int (Z.to_int n).

Definition hex2 (n : N) : string :=
  String (SHA256.hex_digit (Z.of_N (N.div n 16)))
    (String (SHA256.hex_digit (Z.of_N (N.modulo n 16))) EmptyString).

(** One code unit as [QuoteJSONString] writes it. *)
Definition escape_char (c : ascii) : string :=
  let n := N_of_ascii c in
  if N.eqb n 8 then String backslash "b"
  else if N.eqb n 9 then String backslash "t"
  else if N.eqb n 10 then String backslash "n"
  else if N.eqb n 12 then String backslash "f"
  else if N.eqb n 13 then String backslash "r"
  else if N.eqb n 34 then String backslash (String dquote EmptyString)
  else if N.eqb n 92 then String backslash (String backslash EmptyString)
  else if N.ltb n 32 then String backslash ("u00" +:+ hex2 n)
  else String c EmptyString.

Fixpoint escape (s : string) : string :=
  match s with
  | EmptyString => EmptyString
  | String c rest => escape_char c +:+ escape rest
  end.

Definition QuoteJSONString (s : string) : string :=
  String dquote (escape s +:+ String dquote EmptyString).

(** [Object.keys(o)] and [o[k]]. *)
Definition Object_keys {V} (o : object V) : list string := map fst o.

Fixpoint obj_get {V} (o : object V) (k : string) : option V :=
  match o with
  | [] => None
  | (k', v) :: rest => if String.eqb k' k then Some v else obj_get rest k
  end.

(** An array index in the sense of ECMAScript: the canonical decimal
    string of an integer in [0, 2^32 - 2]. Such keys come first in
    property order. *)
Definition array_index (k : string) : option N :=
  match NilZero.uint_of_string k with
  | Some u =>
      let n := N.of_uint u in
      if String.eqb (NilZero.string_of_uint (N.to_uint n)) k && N.ltb n 4294967295
      then Some n else None
  | None => None
  end.

(** Where a new key goes: an array index before the first property that
    is not an index or is a larger one, any other key at the end. *)
Fixpoint obj_insert_new {V} (o : object V) (k : string) (v : V) : object V :=
  match o with
  | [] => [(k, v)]
  | (k', v') :: rest =>
      match array_index k, array_index k' with
      | Some n, Some n' =>
          if N.ltb n n' then (k, v) :: o else (k', v') :: obj_insert_new rest k v
      | Some _, None => (k, v) :: o
      | None, _ => (k', v') :: obj_insert_new rest k v
      end
  end.

Fixpoint obj_update {V} (o : object V) (k : string) (v : V) : object V :=
  match o with
  | [] => []
  | (k', v') :: rest =>
      if String.eqb k' k then (k', v) :: rest else (k', v') :: obj_update rest k v
  end.

(** The assignment [o[k] = v]. *)
Definition obj_set {V} (o : object V) (k : string) (v : V) : object V :=
  match obj_get o k with
  | Some _ => obj_update o k v
  | None => obj_insert_new o k v
  end.

(** [Array.prototype.sort] with the default comparator, on strings: code
    units compared lexicographically, equal elements kept in order. *)
Fixpoint sort_insert (x : string) (l : list string) : list string :=
  match l with
  | [] => [x]
  | y :: rest => if String.ltb y x then y :: sort_insert x rest else x :: l
  end.

Definition Array_sort (l : list string) : list string := fold_right sort_insert [] l.

(** The object branch of the replacer of [sortedReplacer()]: a fresh object
    that receives the properties of [value] key by key, keys sorted. The
    assignment [sorted[k] = value[k]] for the key [__proto__] runs the
    setter of [Object.prototype]: it adds no property to [sorted]. *)
Definition sortedReplacer {V} (value : object V) : object V :=
  fold_left
    (fun sorted k => match obj_get value k with
                     | Some v => if String.eqb k "__proto__" then sorted else obj_set sorted k v
                     | None => sorted
                     end)
    (Array_sort (Object_keys value)) [].

Definition serialize_property (kv : string * string) : string :=
  QuoteJSONString (fst kv) +:+ ":" +:+ snd kv.

(** [JSON.stringify(v)], no replacer, no indentation. *)
Fixpoint stringify (v : value) : string :=
  match v with
  | JNull => "null"
  | JBool true => "true"
  | JBool false => "false"
  | JNum n => number_to_string n
  | JStr s => QuoteJSONString s
  | JArr items => "[" +:+ String.concat "," (map stringify items) +:+ "]"
  | JObj fields =>
      "{" +:+ String.concat ","
                (map serialize_property (map (fun kv => (fst kv, stringify (snd kv))) fields))
          +:+ "}"
  end.

(** [JSON.stringify(v, sortedReplacer())]. The replacer is applied to the
    holder of every property before its properties are serialized; it is
    pure and keeps every value, so the members are serialized first here
    (which makes the recursion structural) and the object is rebuilt by the
    replacer afterwards. [stringify_sorted_object] below states the
    equation in the order the source runs. *)
Fixpoint stringify_sorted (v : value) : string :=
  match v with
  | JNull => "null"
  | JBool true => "true"
  | JBool false => "false"
  | JNum n => number_to_string n
  | JStr s => QuoteJSONString s
  | JArr items => "[" +:+ String.concat "," (map stringify_sorted items) +:+ "]"
  | JObj fields =>
      "{" +:+ String.concat ","
                (map serialize_property
                   (sortedReplacer (map (fun kv => (fst kv, stringify_sorted (snd kv))) fields)))
          +:+ "}"
  end.

(** [hashObject(obj)]. *)
Definition hashObject (obj : value) : string := sha256 (stringify_sorted obj).

(** [hashContent(content)]. *)
Definition hashContent (content : string) : string := sha256 content.

(* ====================================================================== *)
(** ** Hash chain *)
(* ====================================================================== *)

Record ChainedEntry : Type := mkChainedEntry
  { sequence : Z;
    entry : value;
    previous_hash : string;
    entry_hash : string }.

(** The object [{ sequence, entry, previous_hash }] that is hashed. *)
Definition entryWithPrevious (sequence : Z) (entry : value) (previousHash : string) : value :=
  JObj [("sequence", JNum sequence); ("entry", entry); ("previous_hash", JStr previousHash)].

Definition createChainedEntry (entry : value) (sequence : Z) (previousHash : string)
  : ChainedEntry :=
  let entryHash := hashObject (entryWithPrevious sequence entry previousHash) in
  mkChainedEntry sequence entry previousHash entryHash.

(** The result [{ valid, error? }] of checking one link. *)
Record LinkResult : Type := mkLinkResult
  { link_valid : bool;
    link_error : option string }.

Definition verifyChainLink (current : ChainedEntry) (previous : option ChainedEntry)
  : LinkResult :=
  let expectedSequence :=
    match previous with Some p => (sequence p + 1)%Z | None => 0%Z end in
  if negb (Z.eqb (sequence current) expectedSequence) then
    mkLinkResult false
      (Some ("Sequence mismatch: expected " +:+ number_to_string expectedSequence
             +:+ ", got " +:+ number_to_string (sequence current)))
  else
    let expectedPreviousHash :=
      match previous with Some p => entry_hash p | None => "" end in
    if negb (String.eqb (previous_hash current) expectedPreviousHash) then
      mkLinkResult false
        (Some ("Previous hash mismatch at sequence " +:+ number_to_string (sequence current)))
    else
      let recomputed :=
        hashObject (entryWithPrevious (sequence current) (entry current) (previous_hash current)) in
      if negb (String.eqb (entry_hash current) recomputed) then
        mkLinkResult false
          (Some ("Entry hash mismatch at sequence " +:+ number_to_string (sequence current)))
      else mkLinkResult true None.

(** Truthiness of a string: every string but the empty one. *)
Definition truthy (s : string) : bool := negb (String.eqb s "").

Record ChainResult : Type := mkChainResult
  { valid : bool;
    errors : list string;
    verified_count : nat }.

(** One turn of the loop of [verifyChain], at index [i]. *)
Definition verifyChain_step (entries : list ChainedEntry) (errors : list string) (i : nat)
  : list string :=
  match nth_error entries i with
  | None => errors
  | Some current =>
      let previous := if Nat.ltb 0 i then nth_error entries (i - 1) else None in
      let result := verifyChainLink current previous in
      match link_error result with
      | Some error => if negb (link_valid result) && truthy error
                      then errors ++ [error] else errors
      | None => errors
      end
  end.

Definition verifyChain (entries : list ChainedEntry) : ChainResult :=
  let errors := fold_left (verifyChain_step entries) (seq 0 (length entries)) [] in
  mkChainResult (Nat.eqb (length errors) 0) errors (length entries).

(* ====================================================================== *)
(** ** Merkle tree *)
(* ====================================================================== *)

Record MerkleTree : Type := mkMerkleTree
  { root : string;
    tree : list (list string) }.

(** The padding loop [while (n & (n - 1)) push(last)]. A falsy last hash
    is not pushed and the loop then never ends: no fuel gives a result. *)
Fixpoint pad_loop (fuel : nat) (paddedHashes : list string) : option (list string) :=
  let n := Z.of_nat (length paddedHashes) in
  if Z.eqb (Z.land n (n - 1)) 0 then Some paddedHashes
  else
    match fuel with
    | O => None
    | S fuel' =>
        match nth_error paddedHashes (length paddedHashes - 1) with
        | Some lastHash =>
            if truthy lastHash then pad_loop fuel' (paddedHashes ++ [lastHash])
            else pad_loop fuel' paddedHashes
        | None => pad_loop fuel' paddedHashes
        end
    end.

(** The inner loop over pairs: [left = level[i] ?? ''], [right = level[i+1] ?? '']. *)
Fixpoint next_level (currentLevel : list string) : list string :=
  match currentLevel with
  | [] => []
  | [l] => [sha256 (l +:+ "")]
  | l :: r :: rest => sha256 (l +:+ r) :: next_level rest
  end.

(** The outer loop [while (currentLevel.length > 1)]: the levels pushed
    after [currentLevel]. A level of more than one node is followed by a
    strictly shorter one, so fuel equal to its length is enough. *)
Fixpoint build_levels (fuel : nat) (currentLevel : list string) : list (list string) :=
  match fuel with
  | O => []
  | S fuel' =>
      if Nat.ltb 1 (length currentLevel)
      then let nextLevel := next_level currentLevel in
           nextLevel :: build_levels fuel' nextLevel
      else []
  end.

(** [buildMerkleTree(hashes)] with [fuel] turns of the padding loop. *)
Definition buildMerkleTree_fuel (fuel : nat) (hashes : list string) : option MerkleTree :=
  if Nat.eqb (length hashes) 0 then Some (mkMerkleTree "" [])
  else
    match pad_loop fuel hashes with
    | None => None
    | Some paddedHashes =>
        let tree := paddedHashes :: build_levels (length paddedHashes) paddedHashes in
        let root := match List.last tree [] with r :: _ => r | [] => "" end in
        Some (mkMerkleTree root tree)
    end.

(** [buildMerkleTree(hashes)]. The padding loop either stops within
    [length hashes] turns or never ([pad_loop_fuel_irrelevant]); [None]
    stands for the call that does not return. *)
Definition buildMerkleTree (hashes : list string) : option MerkleTree :=
  buildMerkleTree_fuel (length hashes) hashes.

Inductive Position : Type := Left | Right.

Record ProofStep : Type := mkProofStep
  { hash : string;
    position : Position }.

(** [arr[i]] for an integer [i]: [undefined] out of range. *)
Definition js_index {A} (arr : list A) (i : Z) : option A :=
  if Z.ltb i 0 then None else nth_error arr (Z.to_nat i).

(** One turn of the loop of [getMerkleProof], at [level]. *)
Definition getMerkleProof_step (tree : list (list string))
    (acc : list ProofStep * Z) (level : nat) : list ProofStep * Z :=
  let proof := fst acc in
  let currentIndex := snd acc in
  let isLeft := Z.eqb (Z.rem currentIndex 2) 0 in
  let siblingIndex := if isLeft then (currentIndex + 1)%Z else (currentIndex - 1)%Z in
  let proof' :=
    match nth_error tree level with
    | Some currentLevelArr =>
        if Z.ltb siblingIndex (Z.of_nat (length currentLevelArr)) then
          match js_index currentLevelArr siblingIndex with
          | Some siblingHash =>
              proof ++ [mkProofStep siblingHash (if isLeft then Right else Left)]
          | None => proof
          end
        else proof
    | None => proof
    end in
  (proof', (currentIndex / 2)%Z).

Definition getMerkleProof (tree : list (list string)) (index : Z) : list ProofStep :=
  fst (fold_left (getMerkleProof_step tree) (seq 0 (length tree - 1)) ([], index)).

(** The string that one step of [verifyMerkleProof] hashes. *)
Definition proof_preimage (currentHash : string) (step : ProofStep) : string :=
  match position step with
  | Left => hash step +:+ currentHash
  | Right => currentHash +:+ hash step
  end.

Definition verifyMerkleProof_fold (leafHash : string) (proof : list ProofStep) : string :=
  fold_left (fun currentHash step => sha256 (proof_preimage currentHash step)) proof leafHash.

Definition verifyMerkleProof (leafHash : string) (proof : list ProofStep) (root : string)
  : bool :=
  String.eqb (verifyMerkleProof_fold leafHash proof) root.

(* ====================================================================== *)
(** ** Errors and effects *)
(* ====================================================================== *)

(** The error classes of [errors.ts]; [NodeError] is any error that Node
    or one of its libraries raises (a [TypeError], an OpenSSL or file
    system error, a rejected [fetch]), and [NonTermination] marks a call
    that does not return. *)
Inductive Error : Type :=
| LedgerNotInitializedError (message : string)
| ValidationError (message : string)
| StorageError (message operation : string)
| CryptoError (message operation : string)
| ChainVerificationError (message : string)
| SignatureVerificationError (message : string)
| ExportError (message : string)
| SessionError (message : string)
| NodeError (name : string)
| NonTermination.

(** [new LedgerNotInitializedError(methodName?)]. *)
Definition new_LedgerNotInitializedError (methodName : option string) : Error :=
  LedgerNotInitializedError
    match methodName with
    | Some m => "Ledger not initialized. Call start() before calling " +:+ m +:+ "()."
    | None => "Ledger not initialized. Call start() first."
    end.

Inductive Result (A : Type) : Type :=
| Returns (a : A)
| Throws (e : Error).
Arguments Returns {A} a.
Arguments Throws {A} e.

Definition Result_bind {A B} (r : Result A) (k : A -> Result B) : Result B :=
  match r with
  | Returns a => k a
  | Throws e => Throws e
  end.

(** [try { body } catch { handler }]. *)
Definition try_catch {A} (body : Result A) (handler : Error -> Result A) : Result A :=
  match body with
  | Returns a => Returns a
  | Throws e => handler e
  end.

(** Stateful code that may throw: the state survives a throw, as a
    mutated object does. *)
Definition M (St A : Type) : Type := St -> Result A * St.

Definition ret {St A} (a : A) : M St A := fun s => (Returns a, s).
Definition throw {St A} (e : Error) : M St A := fun s => (Throws e, s).
Definition bind {St A B} (m : M St A) (k : A -> M St B) : M St B :=
  fun s => match m s with
           | (Returns a, s') => k a s'
           | (Throws e, s') => (Throws e, s')
           end.
Definition get {St} : M St St := fun s => (Returns s, s).
Definition put {St} (s : St) : M St unit := fun _ => (Returns tt, s).
Definition lift_result {St A} (r : Result A) : M St A := fun s => (r, s).

Declare Scope m_scope.
Delimit Scope m_scope with M.
Notation "x <- m ;; k" := (bind m (fun x => k))
  (at level 100, m at next level, right associativity) : m_scope.
Notation "m ;;; k" := (bind m (fun _ => k))
  (at level 100, right associativity) : m_scope.
Notation "x <-? r ; k" := (Result_bind r (fun x => k))
  (at level 100, r at next level, right associativity) : m_scope.

(** The clock, the UUID source and the network of the Node runtime. *)
Class NodeRuntime : Type := {
  World : Type;
  (** [new Date().toISOString()] *)
  Date_toISOString : World -> string * World;
  (** [randomUUID()] *)
  randomUUID : World -> string * World;
  (** [await fetch(url, { method: 'PUT', body })]: whether the promise
      resolves; it rejects, with a [TypeError], on a network failure *)
  fetch_PUT : string -> string -> World -> bool * World
}.

(** Node's [crypto] and [Buffer] primitives behind [sign] and [verify]. *)
Class NodeCrypto : Type := {
  PrivateKeyObject : Type;
  PublicKeyObject : Type;
  (** [Buffer.from(s, 'base64')]: the bytes; undecodable input is skipped, never an error *)
  Buffer_from_base64 : string -> string;
  (** [buf.toString('base64')] *)
  Buffer_toString_base64 : string -> string;
  (** [buf.toString('utf-8')] *)
  Buffer_toString_utf8 : string -> string;
  createPrivateKey : string -> Result PrivateKeyObject;
  createPublicKey : string -> Result PublicKeyObject;
  (** [crypto.sign(null, data, key)] *)
  cryptoSign : string -> PrivateKeyObject -> Result string;
  (** [crypto.verify(null, data, key, signature)] *)
  cryptoVerify : string -> PublicKeyObject -> string -> Result bool
}.

Section Utilities.
Context `{RT : NodeRuntime}.

(** [generateId()] and [timestamp()]. *)
Definition generateId : M World string := fun w => (Returns (fst (randomUUID w)), snd (randomUUID w)).
Definition timestamp : M World string :=
  fun w => (Returns (fst (Date_toISOString w)), snd (Date_toISOString w)).

End Utilities.

(* ====================================================================== *)
(** ** Sessions and audit logs ([types.ts]) *)
(* ====================================================================== *)

Record SessionEnvelope : Type := mkSessionEnvelope
  { session_id : string;
    org_id : string;
    agent_id : string;
    agent_version : option string;
    environment : string;
    initiated_by : value;
    initiated_at : string;
    closed_at : option string;
    compliance_contexts : list string;
    retention_days : Z;
    metadata : option value }.

Record OrgSignature : Type := mkOrgSignature
  { public_key : string;
    signature : string;
    signed_at : string }.

Record Integrity : Type := mkIntegrity
  { chain_valid : bool;
    merkle_valid : bool;
    signature_valid : option bool;
    verified_at : string }.

Record AuditLog : Type := mkAuditLog
  { version : string;
    session : SessionEnvelope;
    entries : list ChainedEntry;
    merkle_root : option string;
    org_signature : option OrgSignature;
    integrity : option Integrity }.

(** A property of an object literal whose value may be [undefined]. *)
Definition optional_property (k : string) (v : option value) : object value :=
  match v with
  | Some x => [(k, x)]
  | None => []
  end.

Definition SessionEnvelope_value (s : SessionEnvelope) : value :=
  JObj ([("session_id", JStr (session_id s));
         ("org_id", JStr (org_id s));
         ("agent_id", JStr (agent_id s))]
        ++ optional_property "agent_version" (option_map JStr (agent_version s))
        ++ [("environment", JStr (environment s));
            ("initiated_by", initiated_by s);
            ("initiated_at", JStr (initiated_at s))]
        ++ optional_property "closed_at" (option_map JStr (closed_at s))
        ++ [("compliance_contexts", JArr (map JStr (compliance_contexts s)));
            ("retention_days", JNum (retention_days s))]
        ++ optional_property "metadata" (metadata s)).

Definition ChainedEntry_value (c : ChainedEntry) : value :=
  JObj [("sequence", JNum (sequence c)); ("entry", entry c);
        ("previous_hash", JStr (previous_hash c)); ("entry_hash", JStr (entry_hash c))].

(* ====================================================================== *)
(** ** Ed25519 signatures *)
(* ====================================================================== *)

(** The summary [{ session_id, merkle_root, entry_count, closed_at }] that
    is signed, as [JSON.stringify] writes it. *)
Definition summary (log : AuditLog) : value :=
  JObj ([("session_id", JStr (session_id (session log)))]
        ++ optional_property "merkle_root" (option_map JStr (merkle_root log))
        ++ [("entry_count", JNum (Z.of_nat (length (entries log))))]
        ++ optional_property "closed_at" (option_map JStr (closed_at (session log)))).

Definition dataToSign (log : AuditLog) : string := stringify (summary log).

Section Signatures.
Context `{NC : NodeCrypto}.
Local Open Scope m_scope.

Definition sign (data privateKeyBase64 : string) : Result string :=
  let privateKeyPem := Buffer_toString_utf8 (Buffer_from_base64 privateKeyBase64) in
  privateKeyObj <-? createPrivateKey privateKeyPem ;
  signature <-? cryptoSign data privateKeyObj ;
  Returns (Buffer_toString_base64 signature).

(** The body of the [try] block of [verify]. *)
Definition verify_body (data signature publicKeyBase64 : string) : Result bool :=
  let publicKeyPem := Buffer_toString_utf8 (Buffer_from_base64 publicKeyBase64) in
  publicKeyObj <-? createPublicKey publicKeyPem ;
  cryptoVerify data publicKeyObj (Buffer_from_base64 signature).

Definition verify (data signature publicKeyBase64 : string) : Result bool :=
  try_catch (verify_body data signature publicKeyBase64) (fun _ => Returns false).

Definition verifyAuditLogSignature (log : AuditLog) : Result bool :=
  match org_signature log with
  | None => Returns false
  | Some s => verify (dataToSign log) (signature s) (public_key s)
  end.

Context `{RT : NodeRuntime}.

Definition signAuditLog (log : AuditLog) (privateKeyBase64 publicKeyBase64 : string)
  : M World OrgSignature :=
  sig <- lift_result (sign (dataToSign log) privateKeyBase64) ;;
  now <- timestamp ;;
  ret (mkOrgSignature publicKeyBase64 sig now).

End Signatures.

(* ====================================================================== *)
(** ** Storage backends ([storage.ts]) *)
(* ====================================================================== *)

(** [arr.slice(start, end)] on integer bounds: a negative bound counts
    from the end, and both bounds are then clamped to [0, length]. *)
Definition js_slice {A} (arr : list A) (start end_ : Z) : list A :=
  let len := Z.of_nat (length arr) in
  let k := if Z.ltb start 0 then Z.max (len + start) 0 else Z.min start len in
  let final := if Z.ltb end_ 0 then Z.max (len + end_) 0 else Z.min end_ len in
  let count := Z.max (final - k) 0 in
  firstn (Z.to_nat count) (skipn (Z.to_nat k) arr).

(** [ExportOptions]: only the format matters to the core. *)
Record ExportOptions : Type := mkExportOptions { format : string }.

Module InMemoryStorage.

Record t : Type := mk
  { session : option SessionEnvelope;
    entries : list ChainedEntry;
    contentStore : gmap string string }.

(** [new InMemoryStorage()]. *)
Definition new : t := mk None [] ∅.

Definition initialize (session : SessionEnvelope) : M t unit :=
  fun _ => (Returns tt, mk (Some session) [] ∅).

Definition append (entry : value) : M t ChainedEntry :=
  fun this =>
    let lastEntry := nth_error (entries this) (length (entries this) - 1) in
    let previousHash := match lastEntry with Some e => entry_hash e | None => "" end in
    let chained := createChainedEntry entry (Z.of_nat (length (entries this))) previousHash in
    (Returns chained, mk (session this) (entries this ++ [chained]) (contentStore this)).

Definition getRange (start end_ : Z) : M t (list ChainedEntry) :=
  fun this => (Returns (js_slice (entries this) start end_), this).

Definition getAll : M t (list ChainedEntry) :=
  fun this => (Returns (entries this), this).

Definition count : M t Z :=
  fun this => (Returns (Z.of_nat (length (entries this))), this).

Definition verify : M t (bool * list string) :=
  fun this => let result := verifyChain (entries this) in
              (Returns (valid result, errors result), this).

Definition storeContent (hash content : string) : M t unit :=
  fun this => (Returns tt, mk (session this) (entries this) (<[hash := content]> (contentStore this))).

Definition getContent (hash : string) : M t (option string) :=
  fun this => (Returns (contentStore this !! hash), this).

End InMemoryStorage.

(** The audit log file is line delimited JSON. The content of a file is
    taken line by line, as [content.trim().split('\n')] gives it to
    [JSON.parse]: a line is the record that [JSON.stringify] wrote
    ([JSON.parse] gives it back), or text that [JSON.parse] rejects. *)
Inductive Line : Type :=
| SessionLine (data : SessionEnvelope)
| EntryLine (data : ChainedEntry)
| Unparsable.

(** What a call of Node's [fs] module comes to: it returns, or it throws a
    system error with a code ([ENOENT], [ENOTDIR], [EACCES], ...). *)
Inductive Outcome (A : Type) : Type :=
| Done (a : A)
| Fails (code : string).
Arguments Done {A} a.
Arguments Fails {A} code.

(** Node's [path] and [fs] modules, as far as the file backend calls them.
    [Files] is the state of the file system. Nothing is assumed of it: a
    call may fail, and a failed call may have changed the files. *)
Class NodeFileSystem : Type := {
  Files : Type;
  (** [join(...segments)] *)
  path_join : list string -> string;
  (** [mkdirSync(path, { recursive: true })] *)
  mkdirSync : string -> Files -> Outcome unit * Files;
  (** [writeFileSync(path, content)] *)
  writeFileSync : string -> list Line -> Files -> Outcome unit * Files;
  (** [appendFileSync(path, line)] *)
  appendFileSync : string -> Line -> Files -> Outcome unit * Files;
  (** [readFileSync(path, 'utf-8')] *)
  readFileSync : string -> Files -> Outcome (list Line)
}.

Module FileSystemStorage.

Record t : Type := mk
  { session : option SessionEnvelope;
    basePath : string;
    logPath : option string;
    entryCount : Z;
    lastHash : string }.

(** [new FileSystemStorage(basePath)]. *)
Definition new (basePath : string) : t := mk None basePath None 0 "".

Section WithFileSystem.
Context `{FS : NodeFileSystem}.

(** [initialize(session)]: the fields are reset first; [logPath] is
    assigned after [mkdirSync] has returned, the header is written
    last. *)
Definition initialize (session : SessionEnvelope) : M (t * Files) unit :=
  fun st =>
    let this := fst st in
    let sessionDir := path_join [basePath this; org_id session; session_id session] in
    let made := mkdirSync sessionDir (snd st) in
    match fst made with
    | Fails code =>
        (Throws (NodeError code),
         (mk (Some session) (basePath this) (logPath this) 0 "", snd made))
    | Done _ =>
        let logPath := path_join [sessionDir; "audit.jsonl"] in
        let this' := mk (Some session) (basePath this) (Some logPath) 0 "" in
        let written := writeFileSync logPath [SessionLine session] (snd made) in
        match fst written with
        | Fails code => (Throws (NodeError code), (this', snd written))
        | Done _ => (Returns tt, (this', snd written))
        end
    end.

(** [append(entry)]: the counters move on once the line is written; with
    no [logPath] (never initialized) [appendFileSync] throws a
    [TypeError]. *)
Definition append (entry : value) : M (t * Files) ChainedEntry :=
  fun st =>
    let this := fst st in
    let chained := createChainedEntry entry (entryCount this) (lastHash this) in
    match logPath this with
    | None => (Throws (NodeError "TypeError"), st)
    | Some path =>
        let appended := appendFileSync path (EntryLine chained) (snd st) in
        match fst appended with
        | Fails code => (Throws (NodeError code), (this, snd appended))
        | Done _ =>
            (Returns chained,
             (mk (session this) (basePath this) (logPath this)
                 (entryCount this + 1)%Z (entry_hash chained), snd appended))
        end
    end.

(** The loop of [getAll]: every line is parsed, the lines whose type is
    ['entry'] are kept; [JSON.parse] throws a [SyntaxError] on a line that
    is not JSON. *)
Fixpoint entry_lines (lines : list Line) : Result (list ChainedEntry) :=
  match lines with
  | [] => Returns []
  | EntryLine data :: rest =>
      match entry_lines rest with
      | Returns entries => Returns (data :: entries)
      | Throws e => Throws e
      end
  | SessionLine _ :: rest => entry_lines rest
  | Unparsable :: _ => Throws (NodeError "SyntaxError")
  end.

(** [getAll()]. An empty file has one line, the empty string, which
    [JSON.parse] rejects. *)
Definition getAll : M (t * Files) (list ChainedEntry) :=
  fun st =>
    match logPath (fst st) with
    | None => (Throws (NodeError "TypeError"), st)
    | Some path =>
        match readFileSync path (snd st) with
        | Fails code => (Throws (NodeError code), st)
        | Done [] => (Throws (NodeError "SyntaxError"), st)
        | Done lines => (entry_lines lines, st)
        end
    end.

Definition getRange (start end_ : Z) : M (t * Files) (list ChainedEntry) :=
  bind getAll (fun entries => ret (js_slice entries start end_)).

Definition count : M (t * Files) Z :=
  fun st => (Returns (entryCount (fst st)), st).

Definition verify : M (t * Files) (bool * list string) :=
  bind getAll (fun entries => let result := verifyChain entries in
                              ret (valid result, errors result)).

End WithFileSystem.
End FileSystemStorage.

Module S3Storage.

Record S3Config : Type := mkS3Config
  { endpoint : string;
    bucket : string;
    accessKeyId : string;
    secretAccessKey : string;
    region : option string }.

Record t : Type := mk
  { session : option SessionEnvelope;
    config : S3Config;
    entries : list ChainedEntry;
    pendingWrites : list ChainedEntry;
    (** whether the periodic flush timer is set *)
    flushInterval : bool }.

(** [new S3Storage(config)]. *)
Definition new (config : S3Config) : t := mk None config [] [] false.

Section WithRuntime.
Context `{RT : NodeRuntime}.

Definition putObject (key body : string) : M (t * World) unit :=
  fun st =>
    let url := endpoint (config (fst st)) +:+ "/" +:+ bucket (config (fst st)) +:+ "/" +:+ key in
    let r := fetch_PUT url body (snd st) in
    (if fst r then Returns tt else Throws (NodeError "TypeError"), (fst st, snd r)).

Definition initialize (session : SessionEnvelope) : M (t * World) unit :=
  fun st =>
    let this' := mk (Some session) (config (fst st)) [] [] true in
    putObject (org_id session +:+ "/" +:+ session_id session +:+ "/session.json")
              (stringify (SessionEnvelope_value session))
              (this', snd st).

Definition flush : M (t * World) unit :=
  fun st =>
    let this := fst st in
    match pendingWrites this with
    | [] => (Returns tt, st)
    | firstEntry :: _ =>
        let batch := pendingWrites this in
        let lastEntry := List.last batch firstEntry in
        let this' := mk (session this) (config this) (entries this) [] (flushInterval this) in
        match session this with
        | None => (Throws (NodeError "TypeError"), (this', snd st))
        | Some s =>
            putObject (org_id s +:+ "/" +:+ session_id s +:+ "/entries/"
                       +:+ number_to_string (sequence firstEntry)
                       +:+ "-" +:+ number_to_string (sequence lastEntry) +:+ ".jsonl")
                      (String.concat (String "010"%char EmptyString)
                         (map (fun e => stringify (ChainedEntry_value e)) batch))
                      (this', snd st)
        end
    end.

Definition append (entry : value) : M (t * World) ChainedEntry :=
  fun st =>
    let this := fst st in
    let lastEntry := nth_error (entries this) (length (entries this) - 1) in
    let previousHash := match lastEntry with Some e => entry_hash e | None => "" end in
    let chained := createChainedEntry entry (Z.of_nat (length (entries this))) previousHash in
    let this' := mk (session this) (config this) (entries this ++ [chained])
                    (pendingWrites this ++ [chained]) (flushInterval this) in
    if Nat.leb 100 (length (pendingWrites this'))
    then bind flush (fun _ => ret chained) (this', snd st)
    else (Returns chained, (this', snd st)).

Definition getRange (start end_ : Z) : M (t * World) (list ChainedEntry) :=
  fun st => (Returns (js_slice (entries (fst st)) start end_), st).

Definition getAll : M (t * World) (list ChainedEntry) :=
  fun st => (Returns (entries (fst st)), st).

Definition count : M (t * World) Z :=
  fun st => (Returns (Z.of_nat (length (entries (fst st)))), st).

End WithRuntime.
End S3Storage.

(** The interface [StorageBackend]. *)
Class StorageBackend (S : Type) `{RT : NodeRuntime} : Type := {
  storage_initialize : SessionEnvelope -> M (S * World) unit;
  storage_append : value -> M (S * World) ChainedEntry;
  storage_getRange : Z -> Z -> M (S * World) (list ChainedEntry);
  storage_getAll : M (S * World) (list ChainedEntry);
  storage_count : M (S * World) Z;
  storage_verify : M (S * World) (bool * list string);
  storage_close : option string -> option string -> M (S * World) AuditLog;
  storage_export : ExportOptions -> M (S * World) string;
  storage_getSession : M (S * World) SessionEnvelope
}.

(* ====================================================================== *)
(** ** The ledger ([ledger.ts]) *)
(* ====================================================================== *)

Record SigningKeys : Type := mkSigningKeys
  { publicKey : string;
    privateKey : string }.

(** A JavaScript number where the code takes any number and checks
    nothing: a double is a fraction [num / den] whose denominator is a
    power of two, an infinity or NaN. The embedding takes every
    fraction. *)
Inductive number : Type :=
| Fraction (num : Z) (den : positive)
| Infinity (negative : bool)
| NaN.

(** An integer as a number. *)
Definition integer (n : Z) : number := Fraction n 1.

(** Truthiness of a number: [0], [-0] and [NaN] are falsy. *)
Definition number_truthy (k : number) : bool :=
  match k with
  | Fraction num _ => negb (Z.eqb num 0)
  | Infinity _ => true
  | NaN => false
  end.

(** [n % k === 0] for an integer [n]. The remainder of two doubles is
    exact, so it is zero (of either sign) exactly when [n / k] is an
    integer; [n % 0] is NaN and [n % Infinity] is [n]. *)
Definition remainder_is_zero (n : Z) (k : number) : bool :=
  match k with
  | Fraction num den => negb (Z.eqb num 0) && Z.eqb (Z.rem (n * Z.pos den) num) 0
  | Infinity _ => Z.eqb n 0
  | NaN => false
  end.

Record LedgerConfig : Type := mkLedgerConfig
  { orgId : string;
    agentId : string;
    agentVersion : option string;
    cfg_environment : string;
    compliance : list string;
    retentionDays : option Z;
    snapshotInterval : option number;
    cfg_signingKeys : option SigningKeys }.

(** The parameters of the typed log operations. *)
Record ModelCallParams : Type := mkModelCallParams
  { provider : string;
    modelId : string;
    modelVersion : option string;
    parameters : option value;
    promptHash : string;
    promptTokens : Z;
    completionHash : string;
    completionTokens : Z;
    latencyMs : Z;
    costUsd : option Z;
    streamed : option bool;
    cacheStatus : option string;
    mc_error : option value }.

Record ToolInvocationParams : Type := mkToolInvocationParams
  { toolName : string;
    toolVersion : option string;
    requestedBy : option string;
    inputHash : string;
    inputSchemaRef : option string;
    outputHash : string;
    durationMs : Z;
    success : bool;
    ti_error : option value;
    resourcesAccessed : option value }.

Record DecisionParams : Type := mkDecisionParams
  { decisionId : string;
    category : string;
    optionsConsidered : value;
    selectedOption : string;
    reasoningHash : string;
    confidenceScore : option Z;
    humanReviewRequired : option bool;
    triggeredBy : option value }.

Record ApprovalParams : Type := mkApprovalParams
  { approverId : string;
    approverRole : string;
    decisionRef : string;
    approvalType : string;
    modificationHash : option string;
    commentHash : option string;
    attestationSignature : option string;
    reviewDurationSeconds : option Z }.

Record SnapshotParams : Type := mkSnapshotParams
  { trigger : string;
    stateHash : string;
    schemaVersion : string;
    metrics : option value }.

Record StoreContentParams : Type := mkStoreContentParams
  { contentType : string;
    parentEntryId : string;
    content : string;
    storageUri : option string;
    containsPii : option bool;
    piiTypes : option value }.

(** The entry objects, in the order of their literals. *)
Definition ModelCall_entry (id ts : string) (p : ModelCallParams) : value :=
  JObj ([("type", JStr "model_call"); ("entry_id", JStr id); ("timestamp", JStr ts);
         ("provider", JStr (provider p)); ("model_id", JStr (modelId p))]
        ++ optional_property "model_version" (option_map JStr (modelVersion p))
        ++ [("parameters", default (JObj []) (parameters p));
            ("prompt_hash", JStr (promptHash p)); ("prompt_tokens", JNum (promptTokens p));
            ("completion_hash", JStr (completionHash p));
            ("completion_tokens", JNum (completionTokens p));
            ("latency_ms", JNum (latencyMs p))]
        ++ optional_property "cost_usd" (option_map JNum (costUsd p))
        ++ [("streamed", JBool (default false (streamed p)))]
        ++ optional_property "cache_status" (option_map JStr (cacheStatus p))
        ++ optional_property "error" (mc_error p)).

Definition ToolInvocation_entry (id ts : string) (p : ToolInvocationParams) : value :=
  JObj ([("type", JStr "tool_invocation"); ("entry_id", JStr id); ("timestamp", JStr ts);
         ("tool_name", JStr (toolName p))]
        ++ optional_property "tool_version" (option_map JStr (toolVersion p))
        ++ optional_property "requested_by" (option_map JStr (requestedBy p))
        ++ [("input_hash", JStr (inputHash p))]
        ++ optional_property "input_schema_ref" (option_map JStr (inputSchemaRef p))
        ++ [("output_hash", JStr (outputHash p)); ("duration_ms", JNum (durationMs p));
            ("success", JBool (success p))]
        ++ optional_property "error" (ti_error p)
        ++ optional_property "resources_accessed" (resourcesAccessed p)).

Definition DecisionPoint_entry (id ts : string) (p : DecisionParams) : value :=
  JObj ([("type", JStr "decision_point"); ("entry_id", JStr id); ("timestamp", JStr ts);
         ("decision_id", JStr (decisionId p)); ("category", JStr (category p));
         ("options_considered", optionsConsidered p);
         ("selected_option", JStr (selectedOption p));
         ("reasoning_hash", JStr (reasoningHash p))]
        ++ optional_property "confidence_score" (option_map JNum (confidenceScore p))
        ++ [("human_review_required", JBool (default false (humanReviewRequired p)))]
        ++ optional_property "triggered_by" (triggeredBy p)).

Definition HumanApproval_entry (id ts : string) (p : ApprovalParams) : value :=
  JObj ([("type", JStr "human_approval"); ("entry_id", JStr id); ("timestamp", JStr ts);
         ("approver_id", JStr (approverId p)); ("approver_role", JStr (approverRole p));
         ("decision_ref", JStr (decisionRef p)); ("approval_type", JStr (approvalType p))]
        ++ optional_property "modification_hash" (option_map JStr (modificationHash p))
        ++ optional_property "comment_hash" (option_map JStr (commentHash p))
        ++ optional_property "attestation_signature" (option_map JStr (attestationSignature p))
        ++ optional_property "review_duration_seconds"
             (option_map JNum (reviewDurationSeconds p))).

Definition StateSnapshot_entry (id ts : string) (p : SnapshotParams) : value :=
  JObj ([("type", JStr "state_snapshot"); ("entry_id", JStr id); ("timestamp", JStr ts);
         ("trigger", JStr (trigger p)); ("state_hash", JStr (stateHash p));
         ("schema_version", JStr (schemaVersion p))]
        ++ optional_property "metrics" (metrics p)).

Definition ContentReference_entry (id ts : string) (p : StoreContentParams) : value :=
  JObj ([("type", JStr "content_reference"); ("entry_id", JStr id); ("timestamp", JStr ts);
         ("content_type", JStr (contentType p)); ("parent_entry_id", JStr (parentEntryId p));
         ("content_hash", JStr (hashContent (content p)));
         ("size_bytes", JNum (Z.of_nat (length (SHA256.bytes_of_string (content p)))))]
        ++ optional_property "storage_uri" (option_map JStr (storageUri p))
        ++ [("contains_pii", JBool (default false (containsPii p)))]
        ++ optional_property "pii_types" (piiTypes p)).

Module Ledger.
Section Definitions.
Context `{RT : NodeRuntime} {S : Type} `{SB : !StorageBackend S}.
Local Open Scope m_scope.

Record t : Type := mkLedger
  { storage : S;
    config : LedgerConfig;
    initialized : bool;
    entryCount : Z;
    signingKeys : option SigningKeys }.

(** [new Ledger(config)]; [storage] is the backend that the constructor
    makes or takes from [config.storage]. *)
Definition new (config : LedgerConfig) (storage : S) : t :=
  mkLedger storage config false 0 (cfg_signingKeys config).

Definition LedgerM (A : Type) : Type := M (t * World) A.

(** A call of a method of [this.storage]. *)
Definition on_storage {A} (m : M (S * World) A) : LedgerM A :=
  fun st =>
    let this := fst st in
    let r := m (storage this, snd st) in
    (fst r, (mkLedger (fst (snd r)) (config this) (initialized this) (entryCount this)
                      (signingKeys this), snd (snd r))).

(** A call that only touches the clock or the UUID source. *)
Definition on_world {A} (m : M World A) : LedgerM A :=
  fun st => let r := m (snd st) in (fst r, (fst st, snd r)).

Definition this : LedgerM t := fun st => (Returns (fst st), st).

Definition set_this (f : t -> t) : LedgerM unit :=
  fun st => (Returns tt, (f (fst st), snd st)).

Definition ensureInitialized : LedgerM unit :=
  l <- this ;;
  if negb (initialized l) then throw (new_LedgerNotInitializedError None) else ret tt.

Definition start (initiatedBy : value) (metadata : option value) : LedgerM string :=
  l <- this ;;
  id <- on_world generateId ;;
  now <- on_world timestamp ;;
  let session :=
    mkSessionEnvelope id (orgId (config l)) (agentId (config l)) (agentVersion (config l))
      (cfg_environment (config l)) initiatedBy now None (compliance (config l))
      (default 2555%Z (retentionDays (config l))) metadata in
  on_storage (storage_initialize session) ;;;
  set_this (fun l => mkLedger (storage l) (config l) true 0 (signingKeys l)) ;;;
  ret (session_id session).

(** [snapshot(params)], given the [append] it ends with. *)
Definition snapshot_with (append : value -> LedgerM ChainedEntry) (params : SnapshotParams)
  : LedgerM ChainedEntry :=
  ensureInitialized ;;;
  id <- on_world generateId ;;
  ts <- on_world timestamp ;;
  append (StateSnapshot_entry id ts params).

(** Whether [append] takes a periodic snapshot:
    [snapshotInterval && entryCount % snapshotInterval === 0]. *)
Definition snapshot_due (l : t) : bool :=
  match snapshotInterval (config l) with
  | Some interval => number_truthy interval && remainder_is_zero (entryCount l) interval
  | None => false
  end.

(** The private [append(entry)]. It calls [snapshot], which calls it
    back: [depth] bounds the nesting, and a deeper nesting stands for a
    call that does not return. *)
Fixpoint append (depth : nat) (entry : value) : LedgerM ChainedEntry :=
  chained <- on_storage (storage_append entry) ;;
  set_this (fun l => mkLedger (storage l) (config l) (initialized l) (entryCount l + 1)%Z
                              (signingKeys l)) ;;;
  l <- this ;;
  (if snapshot_due l then
     match depth with
     | O => throw NonTermination
     | Datatypes.S depth' =>
         snapshot_with (append depth')
           (mkSnapshotParams "periodic"
              (hashContent (stringify (JObj [("count", JNum (entryCount l))])))
              "1.0.0" None) ;;;
         ret tt
     end
   else ret tt) ;;;
  ret chained.

(** A periodic snapshot is followed by another right away only when every
    count is a multiple of the interval (1, -1, 0.5, ...), in which case
    the nesting never ends; two levels decide. *)
Definition append_depth : nat := 2.

Definition logModelCall (params : ModelCallParams) : LedgerM ChainedEntry :=
  ensureInitialized ;;;
  id <- on_world generateId ;;
  ts <- on_world timestamp ;;
  append append_depth (ModelCall_entry id ts params).

Definition logToolInvocation (params : ToolInvocationParams) : LedgerM ChainedEntry :=
  ensureInitialized ;;;
  id <- on_world generateId ;;
  ts <- on_world timestamp ;;
  append append_depth (ToolInvocation_entry id ts params).

Definition logDecision (params : DecisionParams) : LedgerM ChainedEntry :=
  ensureInitialized ;;;
  id <- on_world generateId ;;
  ts <- on_world timestamp ;;
  append append_depth (DecisionPoint_entry id ts params).

Definition logApproval (params : ApprovalParams) : LedgerM ChainedEntry :=
  ensureInitialized ;;;
  id <- on_world generateId ;;
  ts <- on_world timestamp ;;
  append append_depth (HumanApproval_entry id ts params).

Definition snapshot (params : SnapshotParams) : LedgerM ChainedEntry :=
  snapshot_with (append append_depth) params.

Definition storeContent (params : StoreContentParams) : LedgerM ChainedEntry :=
  ensureInitialized ;;;
  id <- on_world generateId ;;
  ts <- on_world timestamp ;;
  append append_depth (ContentReference_entry id ts params).

Definition verify : LedgerM (bool * list string) :=
  ensureInitialized ;;;
  on_storage storage_verify.

Definition getEntries (start end_ : option Z) : LedgerM (list ChainedEntry) :=
  ensureInitialized ;;;
  match start, end_ with
  | Some s, Some e => on_storage (storage_getRange s e)
  | _, _ => on_storage storage_getAll
  end.

Definition count : LedgerM Z :=
  ensureInitialized ;;;
  on_storage storage_count.

Definition close : LedgerM AuditLog :=
  ensureInitialized ;;;
  l <- this ;;
  on_storage (storage_close (option_map privateKey (signingKeys l))
                            (option_map publicKey (signingKeys l))).

Definition export (options : ExportOptions) : LedgerM string :=
  ensureInitialized ;;;
  on_storage (storage_export options).

Definition getSession : LedgerM SessionEnvelope :=
  ensureInitialized ;;;
  on_storage storage_getSession.

End Definitions.
End Ledger.

(* ====================================================================== *)
(** ** Facts about the hash chain *)
(* ====================================================================== *)


(** The errors that the loop of [verifyChain] adds at index [i]. *)
Definition link_errors (entries : list ChainedEntry) (i : nat) : list string :=
  verifyChain_step entries [] i.

(** The link that the loop checks at index [i]. *)
Definition link_at (entries : list ChainedEntry) (i : nat) : option LinkResult :=
  match nth_error entries i with
  | Some current =>
      Some (verifyChainLink current (if Nat.ltb 0 i then nth_error entries (i - 1) else None))
  | None => None
  end.

Lemma verifyChain_step_app entries errs i :
  verifyChain_step entries errs i = errs ++ link_errors entries i.
Proof.
  unfold link_errors, verifyChain_step.
  destruct (nth_error entries i) as [current|]; [|now rewrite app_nil_r].
  destruct (link_error _) as [e|]; [|now rewrite app_nil_r].
  destruct (negb _ && truthy e); [reflexivity | now rewrite app_nil_r].
Qed.

Lemma verifyChain_fold entries idxs errs :
  fold_left (verifyChain_step entries) idxs errs = errs ++ flat_map (link_errors entries) idxs.
Proof.
  revert errs; induction idxs as [|i idxs IH]; intros errs; simpl.
  - now rewrite app_nil_r.
  - rewrite IH, verifyChain_step_app, <- app_assoc. reflexivity.
Qed.

(** [verifyChain] visits every index and collects what each link reports. *)
Lemma verifyChain_errors entries :
  errors (verifyChain entries) = flat_map (link_errors entries) (seq 0 (length entries)).
Proof. unfold verifyChain; simpl. now rewrite verifyChain_fold. Qed.

Lemma truthy_literal c s : truthy (String c s) = true.
Proof. reflexivity. Qed.

(** A link is either valid without an error, or invalid with a non-empty one. *)
Lemma verifyChainLink_cases current previous :
  verifyChainLink current previous = mkLinkResult true None \/
  exists e, verifyChainLink current previous = mkLinkResult false (Some e) /\ truthy e = true.
Proof.
  unfold verifyChainLink.
  destruct (negb (Z.eqb _ _)); [right; eexists; split; [reflexivity | apply truthy_literal] |].
  destruct (negb (String.eqb (previous_hash current) _));
    [right; eexists; split; [reflexivity | apply truthy_literal] |].
  destruct (negb (String.eqb (entry_hash current) _));
    [right; eexists; split; [reflexivity | apply truthy_literal] | now left].
Qed.

Lemma link_errors_spec entries i :
  link_errors entries i =
  match link_at entries i with
  | Some r => match link_error r with Some e => [e] | None => [] end
  | None => []
  end.
Proof.
  unfold link_errors, link_at, verifyChain_step.
  destruct (nth_error entries i) as [current|]; [|reflexivity].
  destruct (verifyChainLink_cases current (if Nat.ltb 0 i then nth_error entries (i - 1) else None))
    as [-> | (e & -> & He)]; simpl; [reflexivity | now rewrite He].
Qed.

Lemma flat_map_nil {A B} (f : A -> list B) l :
  (forall x, In x l -> f x = []) -> flat_map f l = [].
Proof.
  induction l as [|a l IH]; intros H; simpl; [reflexivity|].
  rewrite (H a) by now left. apply IH. intros; apply H; now right.
Qed.

Lemma flat_map_nil_inv {A B} (f : A -> list B) l x :
  flat_map f l = [] -> In x l -> f x = [].
Proof.
  induction l as [|a l IH]; simpl; [tauto|].
  intros H [->|Hin]; apply app_eq_nil in H; destruct H; auto.
Qed.

(** The links that [verifyChain] accepts: all of them valid. *)
Definition all_links_valid (entries : list ChainedEntry) : Prop :=
  forall i r, link_at entries i = Some r -> r = mkLinkResult true None.

Lemma verifyChain_valid_iff entries :
  valid (verifyChain entries) = true <-> all_links_valid entries.
Proof.
  unfold verifyChain at 1; simpl. rewrite verifyChain_fold; simpl.
  rewrite Nat.eqb_eq, length_zero_iff_nil. split.
  - intros H i r Hr.
    assert (Hi : (i < length entries)%nat).
    { unfold link_at in Hr. destruct (nth_error entries i) eqn:E; [|discriminate].
      apply nth_error_Some. congruence. }
    pose proof (flat_map_nil_inv _ _ i H) as Hnil.
    rewrite link_errors_spec, Hr in Hnil.
    specialize (Hnil ltac:(apply in_seq; lia)).
    unfold link_at in Hr. destruct (nth_error entries i) as [c|]; [|discriminate].
    injection Hr as <-.
    destruct (verifyChainLink_cases c (if Nat.ltb 0 i then nth_error entries (i - 1) else None))
      as [E | (e & E & _)]; rewrite E in *; [reflexivity | discriminate].
  - intros H. apply flat_map_nil. intros i _. rewrite link_errors_spec.
    destruct (link_at entries i) as [r|] eqn:E; [|reflexivity].
    now rewrite (H i r E).
Qed.


Lemma verifyChainLink_valid_iff current previous :
  verifyChainLink current previous = mkLinkResult true None <->
  sequence current = match previous with Some p => (sequence p + 1)%Z | None => 0%Z end /\
  previous_hash current = match previous with Some p => entry_hash p | None => "" end /\
  entry_hash current =
    hashObject (entryWithPrevious (sequence current) (entry current) (previous_hash current)).
Proof.
  unfold verifyChainLink.
  destruct (Z.eqb_spec (sequence current)
              match previous with Some p => (sequence p + 1)%Z | None => 0%Z end) as [Hs|Hs];
    simpl; [|split; [discriminate | tauto]].
  destruct (String.eqb_spec (previous_hash current)
              match previous with Some p => entry_hash p | None => "" end) as [Hp|Hp];
    simpl; [|split; [discriminate | tauto]].
  destruct (String.eqb_spec (entry_hash current)
              (hashObject (entryWithPrevious (sequence current) (entry current)
                             (previous_hash current)))) as [He|He];
    simpl; [tauto | split; [discriminate | tauto]].
Qed.

(** The chain invariant of the data model:
    [entry[i].sequence == i], [entry[0].previous_hash == ""],
    [entry[i].previous_hash == entry[i-1].entry_hash] for [i > 0], and
    every [entry_hash] is the canonical hash of
    [(sequence, entry, previous_hash)]. *)
Definition chain_invariant (entries : list ChainedEntry) : Prop :=
  forall i c, nth_error entries i = Some c ->
    sequence c = Z.of_nat i /\
    previous_hash c =
      match i with
      | O => ""
      | S j => match nth_error entries j with Some p => entry_hash p | None => "" end
      end /\
    entry_hash c = hashObject (entryWithPrevious (sequence c) (entry c) (previous_hash c)).

Lemma chain_invariant_links entries :
  chain_invariant entries -> all_links_valid entries.
Proof.
  intros Hinv i r Hr. unfold link_at in Hr.
  destruct (nth_error entries i) as [c|] eqn:Ec; [|discriminate].
  injection Hr as <-. apply verifyChainLink_valid_iff.
  destruct (Hinv i c Ec) as (Hs & Hp & He).
  destruct i as [|j]; simpl.
  - repeat split; assumption.
  - rewrite Nat.sub_0_r.
    destruct (nth_error entries j) as [p|] eqn:Ep.
    + destruct (Hinv j p Ep) as (Hsp & _). repeat split; try assumption. lia.
    + exfalso. apply nth_error_None in Ep.
      assert (S j < length entries)%nat by (apply nth_error_Some; congruence). lia.
Qed.

Lemma links_chain_invariant entries :
  all_links_valid entries -> chain_invariant entries.
Proof.
  intros Hall.
  assert (Hlink : forall i c, nth_error entries i = Some c ->
            verifyChainLink c (if Nat.ltb 0 i then nth_error entries (i - 1) else None)
            = mkLinkResult true None).
  { intros i c Ec. apply (Hall i). unfold link_at. now rewrite Ec. }
  assert (Hseq : forall i c, nth_error entries i = Some c -> sequence c = Z.of_nat i).
  { induction i as [|j IH]; intros c Ec; pose proof (Hlink _ _ Ec) as Hv;
      apply verifyChainLink_valid_iff in Hv.
    - simpl in Hv. tauto.
    - simpl in Hv. rewrite Nat.sub_0_r in Hv.
      destruct (nth_error entries j) as [p|] eqn:Ep.
      + rewrite (proj1 Hv), (IH p eq_refl). lia.
      + exfalso. apply nth_error_None in Ep.
        assert (S j < length entries)%nat by (apply nth_error_Some; congruence). lia. }
  intros i c Ec. split; [now apply Hseq|].
  pose proof (Hlink _ _ Ec) as Hv. apply verifyChainLink_valid_iff in Hv as (_ & Hp & He).
  split; [|assumption].
  destruct i as [|j]; simpl in Hp; [assumption|].
  rewrite Nat.sub_0_r in Hp. rewrite Hp. now destruct (nth_error entries j).
Qed.

Lemma verifyChain_of_links entries :
  all_links_valid entries ->
  verifyChain entries = mkChainResult true [] (length entries).
Proof.
  intros H. pose proof (proj2 (verifyChain_valid_iff entries) H) as Hv.
  unfold verifyChain in *. simpl in Hv.
  apply Nat.eqb_eq, length_zero_iff_nil in Hv. now rewrite Hv.
Qed.

(** The entry that [append] pushes on a list of persisted entries. *)
Definition next_entry (entries : list ChainedEntry) (e : value) : ChainedEntry :=
  createChainedEntry e (Z.of_nat (length entries))
    match nth_error entries (length entries - 1) with
    | Some lastEntry => entry_hash lastEntry
    | None => ""
    end.

Lemma chain_invariant_snoc entries e :
  chain_invariant entries -> chain_invariant (entries ++ [next_entry entries e]).
Proof.
  intros Hinv i c Hc.
  destruct (Nat.lt_ge_cases i (length entries)) as [Hlt|Hge].
  - rewrite nth_error_app1 in Hc by assumption.
    destruct (Hinv i c Hc) as (Hs & Hp & He). repeat split; try assumption.
    destruct i as [|j]; [assumption|].
    rewrite nth_error_app1 by lia. assumption.
  - rewrite nth_error_app2 in Hc by assumption.
    destruct (i - length entries)%nat as [|k] eqn:Ek; simpl in Hc;
      [|destruct k; discriminate].
    injection Hc as <-. assert (i = length entries) as -> by lia.
    unfold next_entry, createChainedEntry; simpl. repeat split.
    destruct (length entries) as [|j] eqn:El.
    + apply length_zero_iff_nil in El. subst entries. reflexivity.
    + simpl. rewrite Nat.sub_0_r. rewrite nth_error_app1 by lia. reflexivity.
Qed.

(** The state after appending the entries of [es], in order. *)
Definition appended (es : list value) (st : InMemoryStorage.t) : InMemoryStorage.t :=
  fold_left (fun st e => snd (InMemoryStorage.append e st)) es st.

Lemma appended_snoc es e st :
  appended (es ++ [e]) st = snd (InMemoryStorage.append e (appended es st)).
Proof. unfold appended. now rewrite fold_left_app. Qed.

Lemma append_entries e st :
  InMemoryStorage.entries (snd (InMemoryStorage.append e st)) =
  InMemoryStorage.entries st ++ [next_entry (InMemoryStorage.entries st) e].
Proof. reflexivity. Qed.

Lemma appended_invariant es st :
  chain_invariant (InMemoryStorage.entries st) ->
  chain_invariant (InMemoryStorage.entries (appended es st)) /\
  map entry (InMemoryStorage.entries (appended es st)) =
    map entry (InMemoryStorage.entries st) ++ es.
Proof.
  intros H0. induction es as [|e es IH] using rev_ind.
  - simpl. now rewrite app_nil_r.
  - destruct IH as (IH1 & IH2). rewrite appended_snoc, append_entries. split.
    + now apply chain_invariant_snoc.
    + rewrite map_app, IH2, <- app_assoc. reflexivity.
Qed.

(** C1. Appending any sequence of entries, in order, to a freshly
    initialized in-memory backend leaves a persisted list that holds the
    given payloads, satisfies the chain invariant, and on which
    [verifyChain] and the backend's [verify] report a valid chain with no
    error. *)
Theorem C1_append_yields_valid_chain (session : SessionEnvelope) (st0 : InMemoryStorage.t)
    (es : list value) :
  let st := appended es (snd (InMemoryStorage.initialize session st0)) in
  map entry (InMemoryStorage.entries st) = es /\
  chain_invariant (InMemoryStorage.entries st) /\
  verifyChain (InMemoryStorage.entries st) = mkChainResult true [] (length es) /\
  fst (InMemoryStorage.verify st) = Returns (true, []).
Proof.
  intros st.
  assert (H0 : chain_invariant
                 (InMemoryStorage.entries (snd (InMemoryStorage.initialize session st0)))).
  { intros [|i] c Hc; discriminate. }
  destruct (appended_invariant es _ H0) as (Hinv & Hmap). fold st in Hinv, Hmap.
  simpl in Hmap.
  assert (Hv : verifyChain (InMemoryStorage.entries st)
               = mkChainResult true [] (length (InMemoryStorage.entries st))).
  { apply verifyChain_of_links, chain_invariant_links, Hinv. }
  assert (Hlen : length (InMemoryStorage.entries st) = length es).
  { rewrite <- (length_map entry), Hmap. reflexivity. }
  split; [exact Hmap|]. split; [exact Hinv|]. split.
  - now rewrite Hv, Hlen.
  - change (fst (InMemoryStorage.verify st))
      with (Returns (valid (verifyChain (InMemoryStorage.entries st)),
                     errors (verifyChain (InMemoryStorage.entries st)))).
    now rewrite Hv.
Qed.


(** Entry [c] with its payload replaced, the stored hashes left as they are. *)
Definition with_payload (e' : value) (c : ChainedEntry) : ChainedEntry :=
  mkChainedEntry (sequence c) e' (previous_hash c) (entry_hash c).

(** The list with the payload of entry [i] replaced. *)
Fixpoint tamper (i : nat) (e' : value) (entries : list ChainedEntry) : list ChainedEntry :=
  match entries, i with
  | [], _ => []
  | c :: rest, O => with_payload e' c :: rest
  | c :: rest, S j => c :: tamper j e' rest
  end.

Lemma length_tamper i e' entries : length (tamper i e' entries) = length entries.
Proof.
  revert i; induction entries as [|c rest IH]; intros [|j]; simpl; auto.
Qed.

Lemma nth_error_tamper i e' entries j :
  nth_error (tamper i e' entries) j =
  if Nat.eqb i j then option_map (with_payload e') (nth_error entries j)
  else nth_error entries j.
Proof.
  revert i j; induction entries as [|c rest IH]; intros [|i] [|j]; simpl; auto;
    now destruct (Nat.eqb _ _).
Qed.

(** A link reads the sequence number and the stored hash of its
    predecessor, never its payload. *)
Lemma verifyChainLink_previous_payload c p e' :
  verifyChainLink c (option_map (with_payload e') p) = verifyChainLink c p.
Proof. destruct p; reflexivity. Qed.

Lemma link_at_tamper_other i e' entries j :
  j <> i -> link_at (tamper i e' entries) j = link_at entries j.
Proof.
  intros Hne. unfold link_at. rewrite nth_error_tamper.
  destruct (Nat.eqb_spec i j) as [->|_]; [contradiction|].
  destruct (nth_error entries j) as [c|]; [|reflexivity]. f_equal.
  destruct (Nat.ltb 0 j); [|reflexivity].
  rewrite nth_error_tamper. destruct (Nat.eqb i (j - 1)); [|reflexivity].
  apply verifyChainLink_previous_payload.
Qed.

Lemma flat_map_single {B} (f : nat -> list B) (l : list nat) (i : nat) :
  List.NoDup l -> In i l -> (forall j, In j l -> j <> i -> f j = []) -> flat_map f l = f i.
Proof.
  induction l as [|a l IH]; intros Hnd Hin Hf; [contradiction|].
  apply NoDup_cons_iff in Hnd as [Ha Hnd']. simpl. destruct Hin as [Hai|Hin].
  - subst a. rewrite (flat_map_nil f l); [apply app_nil_r|].
    intros j Hj. apply Hf; [now right|]. intros E. subst j. contradiction.
  - rewrite (Hf a); [|now left|intros E; subst a; contradiction]. simpl.
    apply IH; auto. intros j Hj. apply Hf. now right.
Qed.

(** C2. In a chain that [verifyChain] accepts, replacing the payload of
    entry [i] by one for which the recomputed canonical hash differs from
    the stored [entry_hash] makes the link of entry [i] fail with an
    entry hash mismatch, leaves every other link valid (the successor
    still checks against the stored hash strings), and [verifyChain]
    reports exactly that error. For any list, [verifyChain] visits every
    index: its errors are the errors of all the links, in order. *)
Theorem C2_tamper_detected_at_entry_only
    (entries : list ChainedEntry) (i : nat) (c : ChainedEntry) (e' : value)
    (Hvalid : valid (verifyChain entries) = true)
    (Hi : nth_error entries i = Some c)
    (Hdiff : String.eqb (entry_hash c)
               (hashObject (entryWithPrevious (sequence c) e' (previous_hash c))) = false) :
  let tampered := tamper i e' entries in
  let msg := "Entry hash mismatch at sequence " +:+ number_to_string (Z.of_nat i) in
  link_at tampered i = Some (mkLinkResult false (Some msg)) /\
  (forall j, j <> i -> (j < length entries)%nat ->
             link_at tampered j = Some (mkLinkResult true None)) /\
  verifyChain tampered = mkChainResult false [msg] (length entries) /\
  (forall l : list ChainedEntry,
      errors (verifyChain l) = flat_map (link_errors l) (seq 0 (length l)) /\
      verified_count (verifyChain l) = length l).
Proof.
  intros tampered msg. subst tampered msg.
  apply verifyChain_valid_iff in Hvalid.
  pose proof (links_chain_invariant _ Hvalid) as Hinv.
  assert (Hlt : (i < length entries)%nat) by (apply nth_error_Some; congruence).
  assert (Hati : link_at (tamper i e' entries) i = Some (mkLinkResult false (Some ("Entry hash mismatch at sequence " +:+ number_to_string (Z.of_nat i))))).
  { unfold link_at. rewrite nth_error_tamper, Nat.eqb_refl, Hi. simpl. f_equal.
    pose proof (Hvalid i _ ltac:(unfold link_at; rewrite Hi; reflexivity)) as Hv.
    apply verifyChainLink_valid_iff in Hv as (Hs & Hp & _).
    assert (Hprev : (if Nat.ltb 0 i then nth_error (tamper i e' entries) (i - 1) else None)
                    = (if Nat.ltb 0 i then nth_error entries (i - 1) else None)).
    { destruct (Nat.ltb_spec 0 i); [|reflexivity]. rewrite nth_error_tamper.
      destruct (Nat.eqb_spec i (i - 1)); [lia | reflexivity]. }
    rewrite Hprev. unfold verifyChainLink. simpl.
    rewrite Hs, Z.eqb_refl. simpl. rewrite Hp, String.eqb_refl. simpl.
    rewrite <- Hp, <- Hs, Hdiff. simpl. do 4 f_equal.
    destruct (Hinv i c Hi) as (Hseq & _). now rewrite Hseq. }
  assert (Hother : forall j, j <> i -> (j < length entries)%nat ->
                     link_at (tamper i e' entries) j = Some (mkLinkResult true None)).
  { intros j Hne Hj. rewrite link_at_tamper_other by assumption.
    destruct (link_at entries j) as [r|] eqn:E.
    - now rewrite (Hvalid j r E).
    - unfold link_at in E. destruct (nth_error entries j) eqn:En; [discriminate|].
      apply nth_error_None in En. lia. }
  split; [exact Hati|]. split; [exact Hother|]. split.
  - unfold verifyChain. rewrite verifyChain_fold. simpl.
    rewrite length_tamper.
    rewrite (flat_map_single _ _ i).
    + rewrite link_errors_spec, Hati. reflexivity.
    + apply seq_NoDup.
    + apply in_seq. lia.
    + intros j Hj Hne. apply in_seq in Hj. rewrite link_errors_spec, Hother; [reflexivity|assumption|lia].
  - intros l. split; [apply verifyChain_errors | reflexivity].
Qed.

(** A chain of three entries as the in-memory backend builds it. *)
Definition sample_session : SessionEnvelope :=
  mkSessionEnvelope "6f1c2a9e-0d7b-4c55-9a3e-2b1f8e7d4c10" "acme" "advisor" (Some "1.0.0") "test"
    (JObj [("type", JStr "user"); ("identifier", JStr "u-17")])
    "2026-01-05T09:00:00.000Z" None ["FINRA_4511"] 2555 None.

Definition sample_payloads : list value :=
  [JObj [("type", JStr "model_call"); ("prompt_tokens", JNum 100)];
   JObj [("type", JStr "tool_invocation"); ("success", JBool true)];
   JObj [("type", JStr "decision_point"); ("options", JArr [JStr "a"; JStr "b"])]].

Definition sample_chain : list ChainedEntry :=
  InMemoryStorage.entries
    (appended sample_payloads
       (snd (InMemoryStorage.initialize sample_session InMemoryStorage.new))).

Lemma C2_tamper_witness :
  verifyChain (tamper 1 (JObj [("type", JStr "tool_invocation"); ("success", JBool false)])
                 sample_chain)
  = mkChainResult false ["Entry hash mismatch at sequence 1"] 3.
Proof.
  assert (Hc : exists c, nth_error sample_chain 1 = Some c /\
                 String.eqb (entry_hash c)
                   (hashObject (entryWithPrevious (sequence c)
                      (JObj [("type", JStr "tool_invocation"); ("success", JBool false)])
                      (previous_hash c))) = false).
  { eexists. split; [reflexivity | vm_compute; reflexivity]. }
  destruct Hc as (c & Hi & Hdiff).
  exact (proj1 (proj2 (proj2 (C2_tamper_detected_at_entry_only sample_chain 1 c _
                         ltac:(vm_compute; reflexivity) Hi Hdiff)))).
Defined.

(* ====================================================================== *)
(** ** Facts about the Merkle tree *)
(* ====================================================================== *)


(** The loop test [n & (n - 1)] of the padding loop, as a boolean: it is
    zero, and the loop stops, exactly at the powers of two. *)
Definition pad_done (n : nat) : bool :=
  Z.eqb (Z.land (Z.of_nat n) (Z.of_nat n - 1)) 0.

Definition power_of_two (n : nat) : Prop := exists k : nat, n = 2 ^ k.

Lemma land_pred_pow2 (k : Z) : (0 <= k)%Z -> Z.land (2 ^ k) (2 ^ k - 1) = 0%Z.
Proof.
  intros Hk.
  replace (2 ^ k - 1)%Z with (Z.ones k) by (rewrite Z.ones_equiv; lia).
  rewrite Z.land_ones by assumption. apply Z.mod_same. apply Z.pow_nonzero; lia.
Qed.

Lemma land_pred_zero (n : Z) :
  (0 < n)%Z -> Z.land n (n - 1) = 0%Z -> n = (2 ^ Z.log2 n)%Z.
Proof.
  intros Hn Hland.
  destruct (Z.log2_spec n Hn) as [Hlo Hhi].
  destruct (Z.eq_dec n (2 ^ Z.log2 n)%Z) as [|Hne]; [assumption|exfalso].
  assert (Hlog : Z.log2 (n - 1) = Z.log2 n).
  { apply Z.log2_unique; [apply Z.log2_nonneg | lia]. }
  assert (Hb1 : Z.testbit n (Z.log2 n) = true) by (apply Z.bit_log2; lia).
  assert (Hb2 : Z.testbit (n - 1) (Z.log2 n) = true).
  { rewrite <- Hlog. apply Z.bit_log2.
    pose proof (Z.pow_pos_nonneg 2 (Z.log2 n) ltac:(lia) (Z.log2_nonneg n)). lia. }
  pose proof (Z.land_spec n (n - 1) (Z.log2 n)) as Hs.
  rewrite Hland, Z.bits_0, Hb1, Hb2 in Hs. discriminate.
Qed.

Lemma pad_done_pow2 (n : nat) : pad_done n = true <-> n = 0 \/ power_of_two n.
Proof.
  unfold pad_done, power_of_two. rewrite Z.eqb_eq. split.
  - intros H. destruct n as [|m]; [now left | right].
    apply land_pred_zero in H; [|lia].
    exists (Z.to_nat (Z.log2 (Z.of_nat (S m)))).
    apply Nat2Z.inj. rewrite Nat2Z.inj_pow, Z2Nat.id by apply Z.log2_nonneg. exact H.
  - intros [-> | [k ->]]; [reflexivity|].
    rewrite Nat2Z.inj_pow. apply land_pred_pow2. lia.
Qed.

Lemma pad_loop_done fuel l : pad_done (length l) = true -> pad_loop fuel l = Some l.
Proof. unfold pad_done. intros H. destruct fuel; simpl; now rewrite H. Qed.

Lemma last_nth_error (l : list string) (x : string) :
  nth_error (l ++ [x]) (length (l ++ [x]) - 1) = Some x.
Proof.
  rewrite length_app. simpl. replace (length l + 1 - 1) with (length l) by lia.
  rewrite nth_error_app2 by lia. now rewrite Nat.sub_diag.
Qed.

(** One turn of the loop when the test fails and the last hash is truthy. *)
Lemma pad_loop_step fuel l x :
  pad_done (length (l ++ [x])) = false -> truthy x = true ->
  pad_loop (S fuel) (l ++ [x]) = pad_loop fuel ((l ++ [x]) ++ [x]).
Proof.
  unfold pad_done. intros Hd Hx. simpl pad_loop at 1. rewrite Hd.
  rewrite last_nth_error, Hx. reflexivity.
Qed.

(** When the last hash is falsy, nothing is pushed and the test never changes. *)
Lemma pad_loop_stuck fuel l x :
  pad_done (length (l ++ [x])) = false -> truthy x = false ->
  pad_loop fuel (l ++ [x]) = None.
Proof.
  unfold pad_done. intros Hd Hx. induction fuel as [|fuel IH]; simpl; rewrite Hd; [reflexivity|].
  rewrite last_nth_error, Hx. exact IH.
Qed.

(** An empty string as the last of three leaf hashes: the padding loop
    pushes nothing and its test never changes, so the call does not return
    whatever the number of turns. *)
Example buildMerkleTree_empty_last_hash (a b : string) (fuel : nat) :
  buildMerkleTree_fuel fuel [a; b; ""] = None.
Proof.
  unfold buildMerkleTree_fuel. cbn [length Nat.eqb].
  change [a; b; ""] with ([a; b] ++ [""]).
  now rewrite (pad_loop_stuck fuel [a; b] "").
Qed.

(** With a truthy last hash the loop stops once the length has reached a
    power of two [d] pushes away. *)
Lemma pad_loop_reaches (d : nat) : forall fuel l x,
  truthy x = true -> pad_done (length (l ++ [x]) + d) = true -> d <= fuel ->
  exists m, m <= d /\ pad_loop fuel (l ++ [x]) = Some ((l ++ [x]) ++ repeat x m) /\
            pad_done (length ((l ++ [x]) ++ repeat x m)) = true.
Proof.
  induction d as [|d IH]; intros fuel l x Hx Hd Hfuel.
  - rewrite Nat.add_0_r in Hd. exists 0. simpl. rewrite app_nil_r.
    split; [lia|]. split; [now apply pad_loop_done | assumption].
  - destruct (pad_done (length (l ++ [x]))) eqn:Hnow.
    + exists 0. simpl. rewrite app_nil_r.
      split; [lia|]. split; [now apply pad_loop_done | assumption].
    + destruct fuel as [|fuel]; [lia|].
      rewrite pad_loop_step by assumption.
      destruct (IH fuel (l ++ [x]) x Hx) as (m & Hm & Hres & Hdone).
      * rewrite length_app. simpl. rewrite <- Hd. f_equal. lia.
      * lia.
      * exists (S m). split; [lia|]. simpl repeat.
        replace ((l ++ [x]) ++ x :: repeat x m) with (((l ++ [x]) ++ [x]) ++ repeat x m)
          by (now rewrite <- !app_assoc).
        split; assumption.
Qed.

(** Some power of two lies between [n] and [2n - 1]. *)
Lemma pow2_above (n : nat) : 1 <= n -> exists d, d < n /\ pad_done (n + d) = true.
Proof.
  intros Hn. destruct (Nat.eq_dec n 1) as [->|Hne].
  - exists 0. split; [lia | reflexivity].
  - destruct (Nat.log2_up_spec n ltac:(lia)) as [Hlo Hhi].
    exists (2 ^ Nat.log2_up n - n). split.
    + assert (2 ^ Nat.log2_up n = 2 * 2 ^ Nat.pred (Nat.log2_up n)) as ->; [|lia].
      rewrite <- Nat.pow_succ_r'. f_equal.
      assert (0 < Nat.log2_up n) by (apply Nat.log2_up_pos; lia). lia.
    + replace (n + (2 ^ Nat.log2_up n - n)) with (2 ^ Nat.log2_up n) by lia.
      apply pad_done_pow2. right. now exists (Nat.log2_up n).
Qed.

Lemma snoc_last (l : list string) : l <> [] -> exists l' x, l = l' ++ [x] /\ List.last l "" = x.
Proof.
  intros H. destruct (exists_last H) as (l' & x & ->). exists l', x.
  split; [reflexivity | apply last_last].
Qed.

(** The padding loop returns when the last hash is a non-empty string:
    within [length hashes] turns it yields the hashes followed by copies
    of the last one, of a length that is a power of two. *)
Lemma pad_loop_terminates (hashes : list string) :
  hashes <> [] -> truthy (List.last hashes "") = true ->
  exists m, pad_loop (length hashes) hashes
            = Some (hashes ++ repeat (List.last hashes "") m) /\
            power_of_two (length (hashes ++ repeat (List.last hashes "") m)).
Proof.
  intros Hne Hx. destruct (snoc_last hashes Hne) as (l & x & -> & Hlast).
  rewrite Hlast in *.
  destruct (pow2_above (length (l ++ [x]))) as (d & Hd & Hdone).
  { rewrite length_app. simpl. lia. }
  destruct (pad_loop_reaches d (length (l ++ [x])) l x Hx Hdone ltac:(lia))
    as (m & _ & Hres & Hfin).
  exists m. split; [exact Hres|].
  apply pad_done_pow2 in Hfin as [H0|Hp]; [|exact Hp].
  rewrite !length_app in H0. simpl in H0. lia.
Qed.

(** More fuel does not change a result. *)
Lemma pad_loop_more_fuel fuel : forall l p k,
  pad_loop fuel l = Some p -> pad_loop (fuel + k) l = Some p.
Proof.
  induction fuel as [|fuel IH]; intros l p k H.
  - simpl in H. destruct (Z.eqb _ _) eqn:E; [|discriminate].
    injection H as <-. now apply pad_loop_done.
  - simpl in H |- *. destruct (Z.eqb _ _); [assumption|].
    destruct (nth_error l (length l - 1)) as [lastHash|]; [|now apply IH].
    destruct (truthy lastHash); now apply IH.
Qed.

(** The fuel that [buildMerkleTree] runs the loop on is enough: more fuel
    gives the same answer, so [None] is a loop that does not end. *)
Lemma pad_loop_fuel_irrelevant (hashes : list string) (fuel : nat) :
  length hashes <= fuel -> pad_loop fuel hashes = pad_loop (length hashes) hashes.
Proof.
  intros Hfuel. destruct (pad_done (length hashes)) eqn:Hd.
  - now rewrite !pad_loop_done.
  - destruct hashes as [|h t] using rev_ind; [discriminate|]. clear IHt.
    destruct (truthy h) eqn:Hh.
    + destruct (pad_loop_terminates (t ++ [h])) as (m & Hres & _).
      * now destruct t.
      * now rewrite last_last.
      * replace fuel with (length (t ++ [h]) + (fuel - length (t ++ [h]))) by lia.
        rewrite (pad_loop_more_fuel _ _ _ _ Hres). now rewrite Hres.
    + now rewrite !pad_loop_stuck.
Qed.


(** *** Levels *)

Lemma next_level_pairs (n : nat) : forall l,
  length l = 2 * n ->
  length (next_level l) = n /\
  forall j, j < n ->
    nth j (next_level l) "" = sha256 (nth (2 * j) l "" +:+ nth (2 * j + 1) l "").
Proof.
  induction n as [|n IH]; intros l Hl.
  - destruct l; [|discriminate]. split; [reflexivity | intros j Hj; lia].
  - destruct l as [|a [|b rest]]; try (simpl in Hl; lia).
    destruct (IH rest) as (Hlen & Hnth); [simpl in Hl; lia|].
    simpl next_level. split; [simpl; now rewrite Hlen|].
    intros [|j] Hj; [reflexivity|].
    replace (2 * S j) with (S (S (2 * j))) by lia.
    replace (S (S (2 * j)) + 1) with (S (S (2 * j + 1))) by lia.
    simpl nth. apply Hnth. lia.
Qed.

(** The root that [buildMerkleTree] reads off the last level. *)
Definition root_of (levels : list (list string)) : string :=
  match List.last levels [] with r :: _ => r | [] => "" end.

(** The body of the loop of [getMerkleProof] on the level array itself. *)
Definition walk_step (acc : list ProofStep * Z) (currentLevelArr : list string)
  : list ProofStep * Z :=
  let proof := fst acc in
  let currentIndex := snd acc in
  let isLeft := Z.eqb (Z.rem currentIndex 2) 0 in
  let siblingIndex := if isLeft then (currentIndex + 1)%Z else (currentIndex - 1)%Z in
  (if Z.ltb siblingIndex (Z.of_nat (length currentLevelArr)) then
     match js_index currentLevelArr siblingIndex with
     | Some siblingHash => proof ++ [mkProofStep siblingHash (if isLeft then Right else Left)]
     | None => proof
     end
   else proof,
   (currentIndex / 2)%Z).

Lemma getMerkleProof_step_level tree acc level lvl :
  nth_error tree level = Some lvl -> getMerkleProof_step tree acc level = walk_step acc lvl.
Proof. intros H. unfold getMerkleProof_step, walk_step. now rewrite H. Qed.

Lemma getMerkleProof_fold_levels tree : forall n a acc,
  a + n <= length tree ->
  fold_left (getMerkleProof_step tree) (seq a n) acc
  = fold_left walk_step (firstn n (skipn a tree)) acc.
Proof.
  induction n as [|n IH]; intros a acc Hlen; [reflexivity|].
  destruct (nth_error tree a) as [lvl|] eqn:E;
    [|apply nth_error_None in E; lia].
  assert (Hs : skipn a tree = lvl :: skipn (S a) tree).
  { clear -E. revert tree E. induction a as [|a IHa]; intros [|x t] E; try discriminate.
    - now injection E as ->.
    - simpl. now apply IHa. }
  simpl seq. simpl fold_left. rewrite Hs. simpl firstn. simpl fold_left.
  rewrite (getMerkleProof_step_level _ _ _ _ E). apply IH. lia.
Qed.

Lemma getMerkleProof_levels tree index :
  getMerkleProof tree index = fst (fold_left walk_step (removelast tree) ([], index)).
Proof.
  unfold getMerkleProof. rewrite getMerkleProof_fold_levels by lia.
  simpl skipn. rewrite removelast_firstn_len. do 3 f_equal. lia.
Qed.

(** At an even-length level the sibling of node [i] exists, and hashing
    the pair gives the parent. *)
Lemma walk_step_parent (n : nat) (l : list string) (i : nat) (pre : list ProofStep) :
  length l = 2 * n -> i < 2 * n ->
  exists step,
    walk_step (pre, Z.of_nat i) l = (pre ++ [step], Z.of_nat (i / 2)) /\
    sha256 (proof_preimage (nth i l "") step) = nth (i / 2) (next_level l) "".
Proof.
  intros Hl Hi. destruct (next_level_pairs n l Hl) as (_ & Hnth).
  assert (Hdiv : (Z.of_nat i / 2)%Z = Z.of_nat (i / 2)) by (now rewrite Nat2Z.inj_div).
  assert (Hrem : Z.rem (Z.of_nat i) 2 = Z.of_nat (i mod 2)).
  { rewrite Z.rem_mod_nonneg by lia. now rewrite Nat2Z.inj_mod. }
  pose proof (Nat.div_mod_eq i 2) as Hdm.
  assert (Hj : i / 2 < n) by (apply Nat.Div0.div_lt_upper_bound; lia).
  unfold walk_step. simpl fst. simpl snd. rewrite Hrem, Hdiv, (Hnth _ Hj).
  destruct (Nat.eq_dec (i mod 2) 0) as [Hev|Hodd].
  - rewrite Hev. simpl Z.eqb. cbv iota.
    assert (Hlt : (Z.of_nat i + 1 <? Z.of_nat (length l))%Z = true) by (apply Z.ltb_lt; lia).
    rewrite Hlt. unfold js_index.
    assert (Hneg : (Z.of_nat i + 1 <? 0)%Z = false) by (apply Z.ltb_ge; lia).
    rewrite Hneg. replace (Z.to_nat (Z.of_nat i + 1)) with (i + 1) by lia.
    destruct (nth_error l (i + 1)) as [sib|] eqn:E;
      [|apply nth_error_None in E; lia].
    eexists. split; [reflexivity|]. unfold proof_preimage. cbn [position hash].
    replace (2 * (i / 2)) with i by lia.
    now rewrite (nth_error_nth _ _ _ E).
  - assert (Hone : i mod 2 = 1) by (pose proof (Nat.mod_upper_bound i 2); lia).
    rewrite Hone. simpl Z.eqb. cbv iota.
    assert (Hlt : (Z.of_nat i - 1 <? Z.of_nat (length l))%Z = true) by (apply Z.ltb_lt; lia).
    rewrite Hlt. unfold js_index.
    assert (Hneg : (Z.of_nat i - 1 <? 0)%Z = false) by (apply Z.ltb_ge; lia).
    rewrite Hneg. replace (Z.to_nat (Z.of_nat i - 1)) with (i - 1) by lia.
    destruct (nth_error l (i - 1)) as [sib|] eqn:E;
      [|apply nth_error_None in E; lia].
    eexists. split; [reflexivity|]. unfold proof_preimage. cbn [position hash].
    replace (2 * (i / 2)) with (i - 1) by lia.
    replace (i - 1 + 1) with i by lia.
    now rewrite (nth_error_nth _ _ _ E).
Qed.

Lemma walk_prefix levels : forall pre idx,
  fst (fold_left walk_step levels (pre, idx))
  = pre ++ fst (fold_left walk_step levels ([], idx)).
Proof.
  induction levels as [|lvl levels IH]; intros pre idx; simpl.
  - now rewrite app_nil_r.
  - unfold walk_step at 2 4. simpl fst. simpl snd.
    destruct (Z.ltb _ _); [|apply IH].
    destruct (js_index lvl _) as [sib|]; [|apply IH].
    rewrite IH. rewrite (IH [_]). now rewrite <- app_assoc.
Qed.

(** Walking up from leaf [i] of a level of [2^m] nodes and folding the
    proof from that leaf arrives at the root. *)
Lemma walk_reaches_root (m : nat) : forall fuel l i,
  length l = 2 ^ m -> i < 2 ^ m -> m <= fuel ->
  verifyMerkleProof_fold (nth i l "")
    (fst (fold_left walk_step (removelast (l :: build_levels fuel l)) ([], Z.of_nat i)))
  = root_of (l :: build_levels fuel l).
Proof.
  induction m as [|m IH]; intros fuel l i Hl Hi Hfuel.
  - simpl in Hl, Hi. destruct l as [|x [|y l]]; try discriminate.
    assert (i = 0) as -> by lia.
    destruct fuel; reflexivity.
  - destruct fuel as [|fuel]; [lia|].
    assert (Hl2 : length l = 2 * 2 ^ m) by (rewrite Hl; apply Nat.pow_succ_r').
    pose proof (Nat.pow_nonzero 2 m ltac:(lia)) as Hpos.
    destruct (next_level_pairs _ l Hl2) as (Hlen' & _).
    simpl build_levels.
    assert (Hgt : Nat.ltb 1 (length l) = true) by (apply Nat.ltb_lt; lia).
    rewrite Hgt.
    destruct (walk_step_parent (2 ^ m) l i [] Hl2 ltac:(lia)) as (step & Hstep & Hparent).
    change (removelast (l :: next_level l :: build_levels fuel (next_level l)))
      with (l :: removelast (next_level l :: build_levels fuel (next_level l))).
    cbn [fold_left]. rewrite Hstep, walk_prefix. cbn [app].
    unfold verifyMerkleProof_fold. cbn [fold_left]. rewrite Hparent.
    assert (Hj : i / 2 < 2 ^ m) by (apply Nat.Div0.div_lt_upper_bound; lia).
    exact (IH fuel (next_level l) (i / 2) Hlen' Hj ltac:(lia)).
Qed.


(** *** [buildMerkleTree] *)

Lemma buildMerkleTree_padded (hashes p : list string) :
  hashes <> [] -> pad_loop (length hashes) hashes = Some p ->
  buildMerkleTree hashes
  = Some (mkMerkleTree (root_of (p :: build_levels (length p) p))
                       (p :: build_levels (length p) p)).
Proof.
  intros Hne Hp. unfold buildMerkleTree, buildMerkleTree_fuel. rewrite Hp.
  destruct hashes; [contradiction | reflexivity].
Qed.

(** Leaf hashes are non-empty strings. *)
Definition leaf_hashes (hashes : list string) : Prop :=
  Forall (fun h => truthy h = true) hashes.

Lemma leaf_hashes_last hashes :
  hashes <> [] -> leaf_hashes hashes -> truthy (List.last hashes "") = true.
Proof.
  intros Hne H. destruct (snoc_last hashes Hne) as (l & x & -> & ->).
  apply Forall_app in H as [_ H]. now inversion H.
Qed.

(** [buildMerkleTree] returns on non-empty leaf hashes: the first level is
    the list padded with copies of its last hash to a power of two. *)
Lemma buildMerkleTree_returns (hashes : list string) :
  hashes <> [] -> leaf_hashes hashes ->
  exists m k, let p := hashes ++ repeat (List.last hashes "") m in
    length p = 2 ^ k /\
    buildMerkleTree hashes
    = Some (mkMerkleTree (root_of (p :: build_levels (length p) p))
                         (p :: build_levels (length p) p)).
Proof.
  intros Hne Hl.
  destruct (pad_loop_terminates hashes Hne (leaf_hashes_last _ Hne Hl)) as (m & Hres & k & Hk).
  exists m, k. split; [exact Hk | now apply buildMerkleTree_padded].
Qed.

Lemma string_app_nil_l (b : string) : "" +:+ b = b.
Proof. reflexivity. Qed.

Lemma string_app_cons (c : ascii) (a b : string) : String c a +:+ b = String c (a +:+ b).
Proof. reflexivity. Qed.

Lemma string_length_app (a b : string) :
  String.length (a +:+ b) = String.length a + String.length b.
Proof.
  induction a as [|c a IH]; [reflexivity|].
  rewrite string_app_cons. simpl. now rewrite IH.
Qed.

Lemma string_app_inv_tail (a b h : string) : a +:+ h = b +:+ h -> a = b.
Proof.
  revert b; induction a as [|c a IH]; intros [|d b] H;
    rewrite ?string_app_nil_l, ?string_app_cons in H.
  - reflexivity.
  - apply (f_equal String.length) in H. simpl in H.
    rewrite (string_length_app b h) in H. lia.
  - apply (f_equal String.length) in H. simpl in H.
    rewrite (string_length_app a h) in H. lia.
  - injection H as -> H. f_equal. now apply IH.
Qed.

Lemma string_app_inv_head (h a b : string) : h +:+ a = h +:+ b -> a = b.
Proof.
  induction h as [|c h IH]; rewrite ?string_app_nil_l, ?string_app_cons; intros H;
    [assumption|]. injection H as H. auto.
Qed.

Lemma proof_preimage_inj (a b : string) (step : ProofStep) :
  proof_preimage a step = proof_preimage b step -> a = b.
Proof.
  unfold proof_preimage. destruct (position step).
  - apply string_app_inv_head.
  - apply string_app_inv_tail.
Qed.

(** SHA-256 does not collide on the two strings hashed at any step when a
    proof is folded from [a] and from [b]. *)
Fixpoint collision_free_path (a b : string) (proof : list ProofStep) : Prop :=
  match proof with
  | [] => True
  | step :: rest =>
      (sha256 (proof_preimage a step) = sha256 (proof_preimage b step) ->
       proof_preimage a step = proof_preimage b step) /\
      collision_free_path (sha256 (proof_preimage a step)) (sha256 (proof_preimage b step)) rest
  end.

Lemma verifyMerkleProof_fold_inj proof : forall a b,
  collision_free_path a b proof ->
  verifyMerkleProof_fold a proof = verifyMerkleProof_fold b proof -> a = b.
Proof.
  induction proof as [|step rest IH]; intros a b Hfree Heq; [exact Heq|].
  destruct Hfree as (Hstep & Hrest).
  apply (proof_preimage_inj a b step), Hstep, (IH _ _ Hrest), Heq.
Qed.

(** X30. For non-empty leaf hashes and an index [k] into them,
    [buildMerkleTree] returns a tree; the proof of leaf [k] verifies
    against the root; it fails against every other root; and it fails for
    every other leaf hash on whose path SHA-256 does not collide with the
    path of leaf [k]. *)
Theorem merkle_proof_round_trip (hashes : list string) (k : nat)
    (Hleaves : leaf_hashes hashes) (Hk : k < length hashes) :
  exists t : MerkleTree,
    buildMerkleTree hashes = Some t /\
    let proof := getMerkleProof (tree t) (Z.of_nat k) in
    verifyMerkleProof (nth k hashes "") proof (root t) = true /\
    (forall root', root' <> root t ->
       verifyMerkleProof (nth k hashes "") proof root' = false) /\
    (forall leaf', leaf' <> nth k hashes "" ->
       collision_free_path leaf' (nth k hashes "") proof ->
       verifyMerkleProof leaf' proof (root t) = false).
Proof.
  assert (Hne : hashes <> []) by (destruct hashes; [simpl in Hk; lia | discriminate]).
  destruct (buildMerkleTree_returns hashes Hne Hleaves) as (m & e & Hlen & Hbuild).
  set (p := hashes ++ repeat (List.last hashes "") m) in *.
  eexists. split; [exact Hbuild|]. cbn [tree root].
  assert (Hfold : verifyMerkleProof_fold (nth k hashes "")
                    (getMerkleProof (p :: build_levels (length p) p) (Z.of_nat k))
                  = root_of (p :: build_levels (length p) p)).
  { rewrite getMerkleProof_levels.
    replace (nth k hashes "") with (nth k p "") by (unfold p; now rewrite app_nth1).
    apply (walk_reaches_root e).
    - exact Hlen.
    - rewrite <- Hlen. unfold p. rewrite length_app. lia.
    - rewrite Hlen. apply Nat.lt_le_incl, Nat.pow_gt_lin_r. lia. }
  unfold verifyMerkleProof. rewrite Hfold. split; [apply String.eqb_refl|]. split.
  - intros root' Hroot. apply String.eqb_neq. congruence.
  - intros leaf' Hleaf Hfree. apply String.eqb_neq. rewrite <- Hfold. intros Heq.
    apply Hleaf. eapply verifyMerkleProof_fold_inj; eassumption.
Qed.

(** C7. For non-empty leaf hashes whose number is not a power of two,
    appending the last hash once more gives the same padded level, hence
    the same tree and the same root: two lists of different lengths share
    a root. *)
Theorem C7_padding_hides_length (hashes : list string)
    (Hne : hashes <> []) (Hleaves : leaf_hashes hashes)
    (Hnp : ~ power_of_two (length hashes)) :
  exists t : MerkleTree,
    buildMerkleTree hashes = Some t /\
    buildMerkleTree (hashes ++ [List.last hashes ""]) = Some t /\
    length (hashes ++ [List.last hashes ""]) <> length hashes.
Proof.
  pose proof (leaf_hashes_last _ Hne Hleaves) as Hx.
  destruct (pad_loop_terminates hashes Hne Hx) as (m & Hres & _).
  set (p := hashes ++ repeat (List.last hashes "") m) in *.
  exists (mkMerkleTree (root_of (p :: build_levels (length p) p))
                       (p :: build_levels (length p) p)).
  split; [now apply buildMerkleTree_padded|]. split.
  - apply buildMerkleTree_padded; [now destruct hashes|].
    destruct (snoc_last hashes Hne) as (l & x & E & Hlast). rewrite Hlast in *.
    assert (Hnd : pad_done (length hashes) = false).
    { destruct (pad_done (length hashes)) eqn:Hd; [|reflexivity].
      apply pad_done_pow2 in Hd as [H0|Hp]; [|contradiction].
      apply length_zero_iff_nil in H0. contradiction. }
    rewrite E in Hres, Hnd |- *.
    assert (Hlen : length (l ++ [x]) = S (length l)) by (rewrite length_app; simpl; lia).
    rewrite Hlen in Hres. rewrite pad_loop_step in Hres by assumption.
    replace (length ((l ++ [x]) ++ [x])) with (length l + 2)
      by (rewrite !length_app; simpl; lia).
    now apply pad_loop_more_fuel.
  - rewrite length_app. simpl. lia.
Qed.

(* ====================================================================== *)
(** ** Digests of SHA-256 *)
(* ====================================================================== *)

(** The digests of the standard's one-block message and of the empty
    message, and of a string with a character outside ASCII, which is
    hashed as the two bytes of its UTF-8 encoding. *)
Example sha256_abc :
  sha256 "abc" = "ba7816bf8f01cfea414140de5dae2223b00361a396177a9cb410ff61f20015ad".
Proof. vm_compute. reflexivity. Qed.

Example sha256_empty :
  sha256 "" = "e3b0c44298fc1c149afbf4c8996fb92427ae41e4649b934ca495991b7852b855".
Proof. vm_compute. reflexivity. Qed.

Example sha256_e_acute :
  sha256 (String "233"%char EmptyString)
  = "4a99557e4033c3539de2eb65472017cad5f9557f7a0625a09f1c3f6e2ba69c4c".
Proof. vm_compute. reflexivity. Qed.

(** Three leaf hashes, the digests of ["a"], ["b"] and ["c"]. *)
Definition sample_leaves : list string := map sha256 ["a"; "b"; "c"].

Lemma leaf_hashes_forallb (hashes : list string) :
  forallb truthy hashes = true -> leaf_hashes hashes.
Proof.
  intros H. apply List.Forall_forall. intros h Hh.
  exact (proj1 (forallb_forall truthy hashes) H h Hh).
Qed.

Lemma sample_leaves_ok : leaf_hashes sample_leaves.
Proof. apply leaf_hashes_forallb. vm_compute. reflexivity. Qed.

Lemma merkle_round_trip_witness :
  exists t : MerkleTree,
    buildMerkleTree sample_leaves = Some t /\
    verifyMerkleProof (nth 2 sample_leaves "") (getMerkleProof (tree t) 2) (root t) = true /\
    verifyMerkleProof (sha256 "wrong") (getMerkleProof (tree t) 2) (root t) = false.
Proof.
  destruct (merkle_proof_round_trip sample_leaves 2 sample_leaves_ok
              ltac:(vm_compute; lia))
    as (t & Hbuild & Hok & _ & Hleaf).
  exists t. split; [exact Hbuild|]. split; [exact Hok|].
  apply Hleaf.
  - apply String.eqb_neq. vm_compute. reflexivity.
  - clear Hok Hleaf. vm_compute in Hbuild. injection Hbuild as <-.
    set (p := getMerkleProof _ _). vm_compute in p. subst p.
    set (leaf := nth 2 sample_leaves ""). vm_compute in leaf. subst leaf.
    cbv [collision_free_path].
    repeat match goal with
           | |- _ /\ _ => split
           | |- True => exact I
           | |- sha256 _ = sha256 _ -> _ =>
               let H := fresh "H" in
               intros H; apply String.eqb_eq in H; vm_compute in H; discriminate H
           end.
Defined.

Lemma three_not_power_of_two : ~ power_of_two 3.
Proof.
  intros H. assert (Hd : pad_done 3 = true) by (apply pad_done_pow2; now right).
  discriminate Hd.
Qed.

Lemma C7_padding_witness :
  exists t : MerkleTree,
    buildMerkleTree sample_leaves = Some t /\
    buildMerkleTree (sample_leaves ++ [List.last sample_leaves ""]) = Some t.
Proof.
  assert (Hne : sample_leaves <> []) by discriminate.
  destruct (C7_padding_hides_length sample_leaves Hne sample_leaves_ok
              three_not_power_of_two) as (t & H1 & H2 & _).
  exists t. split; [exact H1 | exact H2].
Defined.


(* ====================================================================== *)
(** ** Facts about canonical hashing *)
(* ====================================================================== *)

(** *** The order on strings *)

Lemma ltb_leb (a b : string) : String.ltb a b = negb (String.leb b a).
Proof.
  unfold String.ltb, String.leb. rewrite (String.compare_antisym a b).
  destruct (String.compare b a); reflexivity.
Qed.

Lemma leb_trans (a b c : string) :
  String.leb a b = true -> String.leb b c = true -> String.leb a c = true.
Proof.
  intros H1 H2. apply Is_true_true. apply Is_true_true in H1, H2.
  exact (transitivity (R := String.le) H1 H2).
Qed.

Lemma ltb_asym (a b : string) : String.ltb a b = true -> String.ltb b a = false.
Proof.
  rewrite !ltb_leb, negb_true_iff, negb_false_iff. intros H.
  destruct (String.leb_total a b) as [H'|H']; congruence.
Qed.

Lemma ltb_connected (a b : string) :
  String.ltb a b = false -> String.ltb b a = false -> a = b.
Proof.
  rewrite !ltb_leb, !negb_false_iff. intros H1 H2. now apply String.leb_antisym.
Qed.

Lemma ltb_skip (y a b : string) :
  String.ltb y a = false -> String.ltb y b = true -> String.ltb a b = true.
Proof.
  rewrite !ltb_leb, negb_false_iff, !negb_true_iff. intros H1 H2.
  destruct (String.leb b a) eqn:E; [|reflexivity].
  rewrite (leb_trans b a y E H1) in H2. discriminate.
Qed.

(** *** Sorting does not depend on the order of the input *)

Lemma sort_insert_comm (a b : string) (l : list string) :
  sort_insert a (sort_insert b l) = sort_insert b (sort_insert a l).
Proof.
  induction l as [|y l IH]; simpl.
  - destruct (String.ltb b a) eqn:Hba, (String.ltb a b) eqn:Hab; try reflexivity.
    + rewrite (ltb_asym _ _ Hba) in Hab. discriminate.
    + now rewrite (ltb_connected _ _ Hab Hba).
  - destruct (String.ltb y b) eqn:Hyb, (String.ltb y a) eqn:Hya; simpl;
      rewrite ?Hyb, ?Hya.
    + now rewrite IH.
    + now rewrite (ltb_skip _ _ _ Hya Hyb).
    + now rewrite (ltb_skip _ _ _ Hyb Hya).
    + destruct (String.ltb b a) eqn:Hba, (String.ltb a b) eqn:Hab; simpl;
        rewrite ?Hya, ?Hyb; try reflexivity.
      * rewrite (ltb_asym _ _ Hba) in Hab. discriminate.
      * now rewrite (ltb_connected _ _ Hab Hba).
Qed.

Lemma Array_sort_Permutation (l l' : list string) :
  Permutation l l' -> Array_sort l = Array_sort l'.
Proof.
  unfold Array_sort. induction 1 as [|x l l' _ IH|x y l|l l' l'' _ IH1 _ IH2]; simpl.
  - reflexivity.
  - now rewrite IH.
  - apply sort_insert_comm.
  - congruence.
Qed.

(** *** Objects *)

Lemma obj_get_map {V W} (g : V -> W) (o : object V) (k : string) :
  obj_get (map (fun kv => (fst kv, g (snd kv))) o) k = option_map g (obj_get o k).
Proof.
  induction o as [|[k' v] o IH]; simpl; [reflexivity|].
  destruct (String.eqb k' k); [reflexivity | exact IH].
Qed.

Lemma obj_get_In {V} (o : object V) (k : string) (v : V) :
  obj_get o k = Some v -> In (k, v) o.
Proof.
  induction o as [|[k' v'] o IH]; simpl; [discriminate|].
  destruct (String.eqb_spec k' k) as [->|_].
  - intros H. injection H as ->. now left.
  - intros H. right. now apply IH.
Qed.

Lemma obj_get_None {V} (o : object V) (k : string) :
  obj_get o k = None <-> ~ In k (Object_keys o).
Proof.
  induction o as [|[k' v'] o IH]; simpl; [tauto|].
  destruct (String.eqb_spec k' k) as [->|Hne].
  - split; [discriminate | intros H; exfalso; apply H; now left].
  - rewrite IH. tauto.
Qed.

Lemma Object_keys_map {V W} (g : V -> W) (o : object V) :
  Object_keys (map (fun kv => (fst kv, g (snd kv))) o) = Object_keys o.
Proof. unfold Object_keys. rewrite map_map. reflexivity. Qed.

(** The replacer's result depends on the object only through its set of
    keys and the value at each key. *)
Lemma sortedReplacer_ext {V} (o o' : object V) :
  Permutation (Object_keys o) (Object_keys o') ->
  (forall k, obj_get o k = obj_get o' k) ->
  sortedReplacer o = sortedReplacer o'.
Proof.
  intros Hkeys Hget. unfold sortedReplacer.
  rewrite (Array_sort_Permutation _ _ Hkeys).
  generalize (Array_sort (Object_keys o')) (@nil (string * V)).
  intros ks. induction ks as [|k ks IH]; intros acc; simpl; [reflexivity|].
  rewrite Hget. apply IH.
Qed.

Lemma obj_update_map {V W} (g : V -> W) (o : object V) (k : string) (v : V) :
  obj_update (map (fun kv => (fst kv, g (snd kv))) o) k (g v)
  = map (fun kv => (fst kv, g (snd kv))) (obj_update o k v).
Proof.
  induction o as [|[k' v'] o IH]; simpl; [reflexivity|].
  destruct (String.eqb k' k); simpl; [reflexivity | now rewrite IH].
Qed.

Lemma obj_insert_new_map {V W} (g : V -> W) (o : object V) (k : string) (v : V) :
  obj_insert_new (map (fun kv => (fst kv, g (snd kv))) o) k (g v)
  = map (fun kv => (fst kv, g (snd kv))) (obj_insert_new o k v).
Proof.
  induction o as [|[k' v'] o IH]; simpl; [reflexivity|].
  destruct (array_index k) as [n|]; [destruct (array_index k') as [n'|]|];
    [destruct (N.ltb n n')| |]; simpl; rewrite ?IH; reflexivity.
Qed.

Lemma obj_set_map {V W} (g : V -> W) (o : object V) (k : string) (v : V) :
  obj_set (map (fun kv => (fst kv, g (snd kv))) o) k (g v)
  = map (fun kv => (fst kv, g (snd kv))) (obj_set o k v).
Proof.
  unfold obj_set. rewrite obj_get_map.
  destruct (obj_get o k); simpl; [apply obj_update_map | apply obj_insert_new_map].
Qed.

(** The replacer commutes with a change of the values. *)
Lemma sortedReplacer_map {V W} (g : V -> W) (o : object V) :
  sortedReplacer (map (fun kv => (fst kv, g (snd kv))) o)
  = map (fun kv => (fst kv, g (snd kv))) (sortedReplacer o).
Proof.
  unfold sortedReplacer. rewrite Object_keys_map.
  change (@nil (string * W)) with (map (fun kv : string * V => (fst kv, g (snd kv))) []).
  generalize (Array_sort (Object_keys o)) (@nil (string * V)).
  intros ks. induction ks as [|k ks IH]; intros acc; simpl; [reflexivity|].
  rewrite obj_get_map. destruct (obj_get o k) as [v|]; simpl.
  - destruct (String.eqb k "__proto__"); [apply IH|].
    rewrite obj_set_map. apply IH.
  - apply IH.
Qed.

(** [JSON.stringify(obj, sortedReplacer())] on an object, in the order the
    source runs: the replacer first, then the members of its result. *)
Lemma stringify_sorted_object (fields : list (string * value)) :
  stringify_sorted (JObj fields)
  = "{" +:+ String.concat ","
              (map (fun kv => QuoteJSONString (fst kv) +:+ ":" +:+ stringify_sorted (snd kv))
                   (sortedReplacer fields))
        +:+ "}".
Proof.
  cbn [stringify_sorted]. rewrite sortedReplacer_map, map_map. reflexivity.
Qed.

(** *** Equality up to the insertion order of keys *)

(** Two values are equal up to key order when they are the same scalar,
    arrays of pairwise equal elements in the same order, or objects with
    the same (distinct) keys and equal values at each key. *)
Fixpoint json_equiv (v1 v2 : value) {struct v1} : Prop :=
  match v1, v2 with
  | JNull, JNull => True
  | JBool a, JBool b => a = b
  | JNum a, JNum b => a = b
  | JStr a, JStr b => a = b
  | JArr xs, JArr ys =>
      (fix items_equiv (xs ys : list value) {struct xs} : Prop :=
         match xs, ys with
         | [], [] => True
         | x :: xs', y :: ys' => json_equiv x y /\ items_equiv xs' ys'
         | _, _ => False
         end) xs ys
  | JObj f1, JObj f2 =>
      List.NoDup (Object_keys f1) /\ List.NoDup (Object_keys f2) /\
      length f1 = length f2 /\
      (fix fields_equiv (fs : list (string * value)) : Prop :=
         match fs with
         | [] => True
         | kv :: rest =>
             match obj_get f2 (fst kv) with
             | Some v' => json_equiv (snd kv) v'
             | None => False
             end /\ fields_equiv rest
         end) f1
  | _, _ => False
  end.

Lemma json_equiv_arr (xs ys : list value) :
  json_equiv (JArr xs) (JArr ys) <-> Forall2 json_equiv xs ys.
Proof.
  cbn [json_equiv]. revert ys. induction xs as [|x xs IH]; intros [|y ys].
  - split; [constructor | trivial].
  - split; [contradiction | intros H; inversion H].
  - split; [contradiction | intros H; inversion H].
  - rewrite IH. split.
    + intros [H1 H2]. now constructor.
    + intros H. inversion H; subst. now split.
Qed.

Lemma json_equiv_obj (f1 f2 : list (string * value)) :
  json_equiv (JObj f1) (JObj f2) <->
  List.NoDup (Object_keys f1) /\ List.NoDup (Object_keys f2) /\ length f1 = length f2 /\
  forall k v, In (k, v) f1 -> exists v', obj_get f2 k = Some v' /\ json_equiv v v'.
Proof.
  cbn [json_equiv].
  assert (H : forall fs,
    (fix fields_equiv (fs : list (string * value)) : Prop :=
       match fs with
       | [] => True
       | kv :: rest =>
           match obj_get f2 (fst kv) with
           | Some v' => json_equiv (snd kv) v'
           | None => False
           end /\ fields_equiv rest
       end) fs
    <-> forall k v, In (k, v) fs -> exists v', obj_get f2 k = Some v' /\ json_equiv v v').
  { induction fs as [|[k0 v0] fs IH]; cbn [fst snd].
    - split; [intros _ k v [] | trivial].
    - rewrite IH. split.
      + intros [H1 H2] k v [E|Hin]; [|now apply H2].
        injection E as <- <-. destruct (obj_get f2 k0) as [v'|]; [|contradiction].
        now exists v'.
      + intros H. split; [|intros k v Hin; apply H; now right].
        destruct (H k0 v0 (or_introl eq_refl)) as (v' & -> & Hv). exact Hv. }
  rewrite H. tauto.
Qed.

(** Induction on values, with the hypothesis on the members of arrays and
    objects. *)
Lemma value_ind' (P : value -> Prop) :
  P JNull -> (forall b, P (JBool b)) -> (forall n, P (JNum n)) -> (forall s, P (JStr s)) ->
  (forall items, Forall P items -> P (JArr items)) ->
  (forall fields, Forall (fun kv => P (snd kv)) fields -> P (JObj fields)) ->
  forall v, P v.
Proof.
  intros Hnull Hbool Hnum Hstr Harr Hobj.
  fix IH 1. intros [| b | n | s | items | fields].
  - exact Hnull.
  - apply Hbool.
  - apply Hnum.
  - apply Hstr.
  - apply Harr. induction items as [|x items IHitems]; constructor; [apply IH | exact IHitems].
  - apply Hobj. induction fields as [|[k x] fields IHfields]; constructor;
      [apply IH | exact IHfields].
Qed.

(** Values that are equal up to key order have the same canonical
    serialization. *)
Lemma stringify_sorted_equiv (v1 : value) :
  forall v2, json_equiv v1 v2 -> stringify_sorted v1 = stringify_sorted v2.
Proof.
  induction v1 as [| b | n | s | items IH | fields IH] using value_ind'; intros v2 H.
  - destruct v2; try contradiction. reflexivity.
  - destruct v2; try contradiction. cbn in H. now subst.
  - destruct v2; try contradiction. cbn in H. now subst.
  - destruct v2; try contradiction. cbn in H. now subst.
  - destruct v2 as [| | | | items2 |]; try contradiction.
    apply json_equiv_arr in H. cbn [stringify_sorted]. do 3 f_equal.
    induction H as [|x y xs ys Hxy _ IHF]; [reflexivity|].
    inversion IH as [|? ? Hx Hxs]; subst. simpl. f_equal; [now apply Hx | now apply IHF].
  - destruct v2 as [| | | | | fields2]; try contradiction.
    apply json_equiv_obj in H as (Hnd1 & Hnd2 & Hlen & Hfields).
    cbn [stringify_sorted]. do 4 f_equal.
    assert (Hincl : incl (Object_keys fields) (Object_keys fields2)).
    { intros k Hk. apply in_map_iff in Hk as ([k' v] & <- & Hin).
      destruct (Hfields k' v Hin) as (v' & Hget & _).
      apply obj_get_In in Hget. apply in_map_iff. now exists (k', v'). }
    assert (Hperm : Permutation (Object_keys fields) (Object_keys fields2)).
    { apply NoDup_Permutation_bis; [exact Hnd1 | | exact Hincl].
      unfold Object_keys. rewrite !length_map. lia. }
    apply sortedReplacer_ext.
    + now rewrite !Object_keys_map.
    + intros k. rewrite !obj_get_map.
      destruct (obj_get fields k) as [v|] eqn:E.
      * apply obj_get_In in E as Hin.
        destruct (Hfields k v Hin) as (v' & -> & Hv). simpl. f_equal.
        rewrite List.Forall_forall in IH. exact (IH (k, v) Hin v' Hv).
      * apply obj_get_None in E.
        assert (E' : obj_get fields2 k = None).
        { apply obj_get_None. intros Hk. apply E.
          apply (Permutation_in _ (Permutation_sym Hperm) Hk). }
        now rewrite E'.
Qed.

(** *** The digest is 64 lowercase hexadecimal characters *)

Definition hex_char (c : ascii) : bool :=
  let n := N_of_ascii c in
  ((48 <=? n)%N && (n <=? 57)%N) || ((97 <=? n)%N && (n <=? 102)%N).

Definition hex_string (s : string) : Prop :=
  Forall (fun c => hex_char c = true) (list_ascii_of_string s).

Lemma hex_digit_hex (n : Z) : (0 <= n < 16)%Z -> hex_char (SHA256.hex_digit n) = true.
Proof.
  intros Hn.
  assert (H : In n [0; 1; 2; 3; 4; 5; 6; 7; 8; 9; 10; 11; 12; 13; 14; 15]%Z).
  { simpl. lia. }
  simpl in H. repeat (destruct H as [<-|H]; [reflexivity|]). contradiction.
Qed.

Lemma nibble_bound (x : Z) : (0 <= Z.land x 15 < 16)%Z.
Proof.
  change 15%Z with (Z.ones 4). rewrite Z.land_ones by lia.
  change (2 ^ 4)%Z with 16%Z. apply Z.mod_pos_bound. lia.
Qed.

Lemma length_string_of_list_ascii (l : list ascii) :
  String.length (string_of_list_ascii l) = length l.
Proof. induction l as [|c l IH]; simpl; [reflexivity | now rewrite IH]. Qed.

Lemma list_ascii_app (a b : string) :
  list_ascii_of_string (a +:+ b) = list_ascii_of_string a ++ list_ascii_of_string b.
Proof.
  induction a as [|c a IH]; [now rewrite string_app_nil_l|].
  rewrite string_app_cons. simpl. now rewrite IH.
Qed.

Lemma hex_string_app (a b : string) : hex_string a -> hex_string b -> hex_string (a +:+ b).
Proof.
  unfold hex_string. intros Ha Hb. rewrite list_ascii_app.
  rewrite List.Forall_forall in *. intros c Hc. apply in_app_or in Hc as [Hc|Hc]; auto.
Qed.

Lemma hex_word_length (x : Z) : String.length (SHA256.hex_word x) = 8.
Proof.
  unfold SHA256.hex_word. now rewrite length_string_of_list_ascii, length_map, length_rev, length_seq.
Qed.

Lemma hex_word_hex (x : Z) : hex_string (SHA256.hex_word x).
Proof.
  unfold hex_string, SHA256.hex_word. rewrite list_ascii_of_string_of_list_ascii.
  apply List.Forall_forall. intros c Hc. apply in_map_iff in Hc as (i & <- & _).
  apply hex_digit_hex, nibble_bound.
Qed.

Lemma sha256_length (data : string) : String.length (sha256 data) = 64.
Proof.
  unfold sha256, SHA256.hex_of_state.
  rewrite !string_length_app, !hex_word_length. reflexivity.
Qed.

Lemma sha256_hex (data : string) : hex_string (sha256 data).
Proof.
  unfold sha256, SHA256.hex_of_state.
  repeat (apply hex_string_app; [apply hex_word_hex|]). apply hex_word_hex.
Qed.

(** The index-like keys of an object come first whatever the replacer
    inserted first: the member order of the canonical form is the property
    order of the rebuilt object. *)
Example sortedReplacer_index_keys :
  stringify_sorted (JObj [("b", JNum 1); ("9", JNum 2); ("10", JNum 3); ("a", JNum 4)])
  = stringify (JObj [("9", JNum 2); ("10", JNum 3); ("a", JNum 4); ("b", JNum 1)]).
Proof. vm_compute. reflexivity. Qed.

(** C8. Two values that are equal up to the insertion order of object keys
    at every nesting level, arrays keeping their element order, have the
    same [hashObject] digest, which is 64 lowercase hexadecimal characters:
    their canonical serializations, with the keys of every object
    re-inserted in sorted order, are the same string.  Values that differ
    in a field value, or in the order of the elements of an array, may hash
    differently, as they do here. *)
Theorem C8_hashObject_ignores_key_order (v1 v2 : value) (Hequiv : json_equiv v1 v2) :
  hashObject v1 = hashObject v2 /\
  String.length (hashObject v1) = 64 /\ hex_string (hashObject v1) /\
  stringify_sorted v1 = stringify_sorted v2 /\
  hashObject (JObj [("value", JNum 1)]) <> hashObject (JObj [("value", JNum 2)]) /\
  hashObject (JArr [JNum 1; JNum 2; JNum 3]) <> hashObject (JArr [JNum 3; JNum 2; JNum 1]).
Proof.
  pose proof (stringify_sorted_equiv v1 v2 Hequiv) as Hs.
  split; [unfold hashObject; now rewrite Hs|].
  split; [apply sha256_length|].
  split; [apply sha256_hex|].
  split; [exact Hs|].
  split; intros H; apply String.eqb_eq in H; vm_compute in H; discriminate H.
Qed.

Definition insertion_order : value :=
  JObj [("b", JNum 2); ("a", JNum 1);
        ("nested", JObj [("y", JArr [JNum 1; JNum 2]); ("x", JStr "s")]);
        ("c", JNull)].

Definition sorted_order : value :=
  JObj [("a", JNum 1); ("b", JNum 2); ("c", JNull);
        ("nested", JObj [("x", JStr "s"); ("y", JArr [JNum 1; JNum 2])])].

Lemma insertion_order_equiv : json_equiv insertion_order sorted_order.
Proof.
  vm_compute.
  repeat match goal with
         | |- _ /\ _ => split
         | |- True => exact I
         | |- _ = _ => reflexivity
         | |- List.NoDup [] => constructor
         | |- List.NoDup (_ :: _) => constructor; [simpl; intuition discriminate|]
         end.
Qed.

Lemma C8_key_order_witness :
  json_equiv insertion_order sorted_order /\
  hashObject insertion_order = hashObject sorted_order /\
  String.length (hashObject insertion_order) = 64.
Proof.
  split; [exact insertion_order_equiv|].
  destruct (C8_hashObject_ignores_key_order insertion_order sorted_order insertion_order_equiv)
    as (Hhash & Hlen & _).
  split; [exact Hhash | exact Hlen].
Defined.


(* ====================================================================== *)
(** ** Facts about the storage backends *)
(* ====================================================================== *)

(** The chain that a backend persists for the payloads [es]. *)
Definition chain_of (es : list value) : list ChainedEntry :=
  fold_left (fun chain e => chain ++ [next_entry chain e]) es [].

Lemma chain_of_snoc es e : chain_of (es ++ [e]) = chain_of es ++ [next_entry (chain_of es) e].
Proof. unfold chain_of. now rewrite fold_left_app. Qed.

Lemma length_chain_of es : length (chain_of es) = length es.
Proof.
  induction es as [|e es IH] using rev_ind; [reflexivity|].
  rewrite chain_of_snoc, !length_app, IH. reflexivity.
Qed.

Lemma chain_of_invariant es : chain_invariant (chain_of es).
Proof.
  induction es as [|e es IH] using rev_ind.
  - intros [|i] c Hc; discriminate.
  - rewrite chain_of_snoc. now apply chain_invariant_snoc.
Qed.

Lemma last_nth_error' {A} (l : list A) (x : A) :
  nth_error (l ++ [x]) (length (l ++ [x]) - 1) = Some x.
Proof.
  rewrite length_app. simpl. replace (length l + 1 - 1) with (length l) by lia.
  rewrite nth_error_app2 by lia. now rewrite Nat.sub_diag.
Qed.

(** *** The in-memory backend *)

Lemma InMemory_appended_entries es st :
  InMemoryStorage.entries st = [] ->
  InMemoryStorage.entries (appended es st) = chain_of es.
Proof.
  intros H0. induction es as [|e es IH] using rev_ind; [exact H0|].
  rewrite appended_snoc, append_entries, IH, chain_of_snoc. reflexivity.
Qed.

(** *** The file backend *)

Module FileSystemFacts.
Section WithFileSystem.
Context `{FS : NodeFileSystem}.
Import FileSystemStorage.

(** The state and the files after appending the entries of [es], in order. *)
Definition appended (es : list value) (st : t * Files) : t * Files :=
  fold_left (fun st e => snd (append e st)) es st.

Lemma FileSystem_appended_snoc es e st : appended (es ++ [e]) st = snd (append e (appended es st)).
Proof. unfold appended. now rewrite fold_left_app. Qed.

(** Every one of the calls [append] for the entries of [es], in order,
    returned. *)
Fixpoint appends_return (es : list value) (st : t * Files) : Prop :=
  match es with
  | [] => True
  | e :: rest =>
      (exists chained, fst (append e st) = Returns chained) /\
      appends_return rest (snd (append e st))
  end.

Lemma appends_return_snoc es e : forall st,
  appends_return (es ++ [e]) st <->
  appends_return es st /\ exists chained, fst (append e (appended es st)) = Returns chained.
Proof.
  induction es as [|e0 es IH]; intros st; cbn [app appends_return].
  - unfold appended. cbn [fold_left]. tauto.
  - rewrite IH. unfold appended. cbn [fold_left]. tauto.
Qed.

(** A file system that keeps what is written: after a write that
    returned the file reads as written, and after an append that returned
    it reads as before with the line added. *)
Definition keeps_writes : Prop :=
  (forall path content files files',
     writeFileSync path content files = (Done tt, files') ->
     readFileSync path files' = Done content) /\
  (forall path line files files' content,
     appendFileSync path line files = (Done tt, files') ->
     readFileSync path files = Done content ->
     readFileSync path files' = Done (content ++ [line])).

(** The path of the log file of a session. *)
Definition log_path (basePath : string) (sess : SessionEnvelope) : string :=
  path_join [path_join [basePath; org_id sess; session_id sess]; "audit.jsonl"].

(** The backend holds the persisted entries of [es]: the cursor of the
    chain is at its end, and the log file reads as the session header
    and one line per entry. *)
Definition holds (sess : SessionEnvelope) (path : string) (es : list value)
    (st : t * Files) : Prop :=
  FileSystemStorage.session (fst st) = Some sess /\
  logPath (fst st) = Some path /\
  entryCount (fst st) = Z.of_nat (length es) /\
  lastHash (fst st) =
    match nth_error (chain_of es) (length (chain_of es) - 1) with
    | Some lastEntry => entry_hash lastEntry
    | None => ""
    end /\
  readFileSync path (snd st) = Done (SessionLine sess :: map EntryLine (chain_of es)).

(** What [initialize] comes to, by the outcome of its two calls. *)
Lemma initialize_cases sess (this : t) (files : Files) :
  let dir := path_join [basePath this; org_id sess; session_id sess] in
  let made := mkdirSync dir files in
  let written := writeFileSync (log_path (basePath this) sess) [SessionLine sess] (snd made) in
  initialize sess (this, files)
  = match fst made with
    | Fails code =>
        (Throws (NodeError code),
         (mk (Some sess) (basePath this) (logPath this) 0 "", snd made))
    | Done _ =>
        (match fst written with
         | Fails code => Throws (NodeError code)
         | Done _ => Returns tt
         end,
         (mk (Some sess) (basePath this) (Some (log_path (basePath this) sess)) 0 "",
          snd written))
    end.
Proof.
  cbv zeta. unfold initialize, log_path. cbn [fst snd].
  destruct (fst (mkdirSync _ files)); [|reflexivity].
  destruct (fst (writeFileSync _ _ _)); reflexivity.
Qed.

Lemma initialize_holds sess st :
  keeps_writes -> fst (initialize sess st) = Returns tt ->
  holds sess (log_path (basePath (fst st)) sess) [] (snd (initialize sess st)).
Proof.
  intros (Hwrite & _). destruct st as [this files]. rewrite initialize_cases. cbv zeta.
  cbn [fst snd]. destruct (mkdirSync _ files) as [[[]|code] files1]; cbn [fst snd];
    [|discriminate].
  destruct (writeFileSync _ _ files1) as [[[]|code] files2] eqn:E; cbn [fst snd];
    [|discriminate].
  intros _. unfold holds. cbn [fst snd session logPath entryCount lastHash].
  repeat split. exact (Hwrite _ _ _ _ E).
Qed.

Lemma append_holds sess path es e st :
  keeps_writes -> holds sess path es st ->
  forall chained, fst (append e st) = Returns chained ->
  chained = next_entry (chain_of es) e /\
  holds sess path (es ++ [e]) (snd (append e st)).
Proof.
  intros (_ & Happend) (Hs & Hp & Hc & Hh & Hf) chained.
  assert (Hnext : createChainedEntry e (entryCount (fst st)) (lastHash (fst st))
                  = next_entry (chain_of es) e).
  { unfold next_entry. now rewrite Hc, Hh, length_chain_of. }
  unfold append. rewrite Hnext, Hp.
  destruct (appendFileSync path _ (snd st)) as [[[]|code] files'] eqn:E; cbn [fst snd];
    [|discriminate].
  intros H. injection H as <-. split; [reflexivity|].
  unfold holds; cbn [fst snd session logPath entryCount lastHash].
  split; [exact Hs|]. split; [reflexivity|]. split; [rewrite Hc, length_app; simpl; lia|].
  split.
  - rewrite chain_of_snoc. rewrite last_nth_error'. reflexivity.
  - rewrite (Happend _ _ _ _ _ E Hf), chain_of_snoc, map_app. reflexivity.
Qed.

Lemma appended_holds sess path es st :
  keeps_writes -> holds sess path [] st -> appends_return es st ->
  holds sess path es (appended es st).
Proof.
  intros Hkeeps H0. induction es as [|e es IH] using rev_ind; intros Hret; [exact H0|].
  apply appends_return_snoc in Hret as (Hes & chained & He).
  rewrite FileSystem_appended_snoc.
  exact (proj2 (append_holds sess path es e _ Hkeeps (IH Hes) chained He)).
Qed.

Lemma entry_lines_map chain : entry_lines (map EntryLine chain) = Returns chain.
Proof. induction chain as [|c chain IH]; simpl; [reflexivity | now rewrite IH]. Qed.

Lemma getAll_holds sess path es st :
  holds sess path es st -> getAll st = (Returns (chain_of es), st).
Proof.
  intros (_ & Hp & _ & _ & Hf). unfold getAll. rewrite Hp, Hf.
  cbn [entry_lines]. now rewrite entry_lines_map.
Qed.

Lemma getRange_holds sess path es st start end_ :
  holds sess path es st ->
  getRange start end_ st = (Returns (js_slice (chain_of es) start end_), st).
Proof.
  intros H. unfold getRange, bind. now rewrite (getAll_holds _ _ _ _ H).
Qed.

End WithFileSystem.
End FileSystemFacts.

(** *** The S3 backend *)

Module S3Facts.
Section WithRuntime.
Context `{RT : NodeRuntime}.
Import S3Storage.

Definition appended (es : list value) (st : t * World) : t * World :=
  fold_left (fun st e => snd (append e st)) es st.

Lemma S3_appended_snoc es e st : appended (es ++ [e]) st = snd (append e (appended es st)).
Proof. unfold appended. now rewrite fold_left_app. Qed.

Lemma putObject_state key body st : fst (snd (putObject key body st)) = fst st.
Proof. reflexivity. Qed.

Lemma flush_entries st : entries (fst (snd (flush st))) = entries (fst st).
Proof.
  unfold flush. destruct (pendingWrites (fst st)) as [|firstEntry rest]; [reflexivity|].
  destruct (session (fst st)); reflexivity.
Qed.

(** [append] pushes the new entry whether or not the flush it may trigger
    succeeds. *)
Lemma S3_append_entries e st :
  entries (fst (snd (append e st))) = entries (fst st) ++ [next_entry (entries (fst st)) e].
Proof.
  unfold append. destruct (Nat.leb 100 _); [|reflexivity].
  unfold bind.
  match goal with |- context [flush ?s] =>
    pose proof (flush_entries s) as Hf; destruct (flush s) as [[u|err] s'] end;
    exact Hf.
Qed.

Lemma initialize_entries sess st : entries (fst (snd (initialize sess st))) = [].
Proof. reflexivity. Qed.

Lemma appended_entries es st :
  entries (fst st) = [] -> entries (fst (appended es st)) = chain_of es.
Proof.
  intros H0. induction es as [|e es IH] using rev_ind; [exact H0|].
  rewrite S3_appended_snoc, S3_append_entries, IH, chain_of_snoc. reflexivity.
Qed.

End WithRuntime.
End S3Facts.

(** *** [getRange] *)

(** A bound of [slice] on an array of length [n]: a negative bound counts
    from the end; the result is clamped to [0, n]. *)
Definition slice_bound (n b : Z) : Z :=
  if Z.ltb b 0 then Z.max (n + b) 0 else Z.min b n.

(** The entries whose sequence number lies in [lo, hi). *)
Definition in_range (lo hi : Z) (c : ChainedEntry) : bool :=
  Z.leb lo (sequence c) && Z.ltb (sequence c) hi.

Lemma js_slice_bounds {A} (arr : list A) (start end_ : Z) :
  js_slice arr start end_ =
  firstn (Z.to_nat (slice_bound (Z.of_nat (length arr)) end_
                    - slice_bound (Z.of_nat (length arr)) start))
         (skipn (Z.to_nat (slice_bound (Z.of_nat (length arr)) start)) arr).
Proof. unfold js_slice, slice_bound. f_equal. lia. Qed.

Lemma filter_none {A} (f : A -> bool) (l : list A) :
  (forall x, In x l -> f x = false) -> List.filter f l = [].
Proof.
  induction l as [|x l IH]; intros H; [reflexivity|]. simpl.
  rewrite (H x) by now left. apply IH. intros y Hy. apply H. now right.
Qed.

(** On a list numbered from [off], a window is the entries whose sequence
    number falls in it. *)
Lemma window_filter (l : list ChainedEntry) : forall (off : Z) (a b : nat),
  (forall i c, nth_error l i = Some c -> sequence c = (off + Z.of_nat i)%Z) ->
  firstn b (skipn a l)
  = List.filter (in_range (off + Z.of_nat a) (off + Z.of_nat a + Z.of_nat b)) l.
Proof.
  induction l as [|x l IH]; intros off a b Hseq.
  - now rewrite skipn_nil, firstn_nil.
  - assert (Hx : sequence x = off) by (rewrite (Hseq 0 x eq_refl); lia).
    assert (Hseq' : forall i c, nth_error l i = Some c ->
                      sequence c = (off + 1 + Z.of_nat i)%Z).
    { intros i c Hc. rewrite (Hseq (S i) c Hc). lia. }
    assert (Hin : forall c, In c l -> (off + 1 <= sequence c)%Z).
    { intros c Hc. apply In_nth_error in Hc as (i & Hi). rewrite (Hseq' i c Hi). lia. }
    destruct a as [|a]; [destruct b as [|b]|].
    + cbn [skipn firstn]. apply eq_sym, filter_none. intros c [<-|Hc]; unfold in_range.
      * rewrite Hx. apply andb_false_iff. right. apply Z.ltb_ge. lia.
      * apply Hin in Hc. apply andb_false_iff. right. apply Z.ltb_ge. lia.
    + simpl skipn. simpl firstn. simpl List.filter. unfold in_range at 1. rewrite Hx.
      replace (off + Z.of_nat 0 <=? off)%Z with true by (symmetry; apply Z.leb_le; lia).
      replace (off <? off + Z.of_nat 0 + Z.of_nat (S b))%Z with true
        by (symmetry; apply Z.ltb_lt; lia).
      simpl andb. cbv iota. f_equal.
      change l with (skipn 0 l) at 1. rewrite (IH (off + 1)%Z 0 b Hseq').
      apply filter_ext_in. intros c Hc. apply Hin in Hc. unfold in_range.
      f_equal; [|f_equal; lia].
      destruct (Z.leb_spec (off + 1 + Z.of_nat 0) (sequence c)),
               (Z.leb_spec (off + Z.of_nat 0) (sequence c)); lia || reflexivity.
    + simpl skipn. simpl List.filter. unfold in_range at 1. rewrite Hx.
      replace (off + Z.of_nat (S a) <=? off)%Z with false by (symmetry; apply Z.leb_gt; lia).
      simpl andb. cbv iota. rewrite (IH (off + 1)%Z a b Hseq').
      apply filter_ext_in. intros c Hc. unfold in_range. f_equal; f_equal; lia.
Qed.

Lemma chain_of_sequenced es i c :
  nth_error (chain_of es) i = Some c -> sequence c = (0 + Z.of_nat i)%Z.
Proof. intros H. now destruct (chain_of_invariant es i c H) as (-> & _). Qed.

(** [slice] on a persisted chain, as a selection by sequence number. *)
Lemma js_slice_chain (es : list value) (start end_ : Z) :
  js_slice (chain_of es) start end_
  = List.filter (in_range (slice_bound (Z.of_nat (length es)) start)
                          (slice_bound (Z.of_nat (length es)) end_))
                (chain_of es).
Proof.
  rewrite js_slice_bounds, length_chain_of.
  set (n := Z.of_nat (length es)). assert (Hn : (0 <= n)%Z) by (unfold n; lia).
  assert (Hs : (0 <= slice_bound n start <= n)%Z) by (unfold slice_bound; destruct (Z.ltb_spec start 0); lia).
  assert (He : (0 <= slice_bound n end_ <= n)%Z) by (unfold slice_bound; destruct (Z.ltb_spec end_ 0); lia).
  rewrite (window_filter _ 0 _ _ (chain_of_sequenced es)).
  apply filter_ext_in. intros c Hc. unfold in_range. rewrite !Z.add_0_l, Z2Nat.id by lia.
  destruct (Z.leb_spec (slice_bound n start) (sequence c)); simpl; [|reflexivity].
  destruct (Z.ltb_spec (sequence c)
              (slice_bound n start
               + Z.of_nat (Z.to_nat (slice_bound n end_ - slice_bound n start)))),
           (Z.ltb_spec (sequence c) (slice_bound n end_)); try reflexivity; lia.
Qed.

Lemma chain_of_sequences es : map sequence (chain_of es) = map Z.of_nat (seq 0 (length es)).
Proof.
  induction es as [|e es IH] using rev_ind; [reflexivity|].
  rewrite chain_of_snoc, map_app, IH, length_app. simpl length.
  rewrite Nat.add_1_r, seq_S, map_app. simpl. unfold next_entry, createChainedEntry. simpl.
  now rewrite length_chain_of.
Qed.

Lemma chain_of_sequence_bounds es c :
  In c (chain_of es) -> (0 <= sequence c < Z.of_nat (length es))%Z.
Proof.
  intros Hc. apply In_nth_error in Hc as (i & Hi).
  assert (i < length (chain_of es)) by (apply nth_error_Some; congruence).
  rewrite length_chain_of in *. rewrite (chain_of_sequenced es i c Hi). lia.
Qed.

(** The amended C6. On a backend that holds the persisted entries of
    [es] (a freshly initialized backend of any of the three kinds to which
    they were appended; for the file backend, on a file system that keeps
    what is written and on which [initialize] and the appends returned),
    [getRange(start, end)] returns, without an error, the persisted
    entries whose sequence number lies between the two bounds as [slice]
    reads them: a negative bound counts from the end, and both are clamped
    to [0, n]. For bounds that are not negative this is the interval
    [start, end) clamped to [0, n). The persisted entries are numbered 0
    to n - 1, in order. *)
Theorem C6_getRange_selects_by_sequence `{RT : NodeRuntime} `{FS : NodeFileSystem}
    (session : SessionEnvelope) (es : list value) (start end_ : Z)
    (mem0 : InMemoryStorage.t) (fs0 : FileSystemStorage.t * Files)
    (s30 : S3Storage.t * World) :
  let n := Z.of_nat (length es) in
  let selected :=
    List.filter (in_range (slice_bound n start) (slice_bound n end_)) (chain_of es) in
  fst (InMemoryStorage.getRange start end_
         (appended es (snd (InMemoryStorage.initialize session mem0))))
    = Returns selected /\
  (FileSystemFacts.keeps_writes ->
   fst (FileSystemStorage.initialize session fs0) = Returns tt ->
   FileSystemFacts.appends_return es (snd (FileSystemStorage.initialize session fs0)) ->
   fst (FileSystemStorage.getRange start end_
          (FileSystemFacts.appended es (snd (FileSystemStorage.initialize session fs0))))
     = Returns selected) /\
  fst (S3Storage.getRange start end_
         (S3Facts.appended es (snd (S3Storage.initialize session s30))))
    = Returns selected /\
  ((0 <= start)%Z -> (0 <= end_)%Z ->
   selected = List.filter (in_range start end_) (chain_of es)) /\
  map sequence (chain_of es) = map Z.of_nat (seq 0 (length es)).
Proof.
  intros n selected. unfold selected, n. rewrite <- js_slice_chain.
  split; [|split; [|split; [|split]]].
  - unfold InMemoryStorage.getRange. cbn [fst].
    now rewrite InMemory_appended_entries.
  - intros Hkeeps Hinitialized Happended.
    erewrite FileSystemFacts.getRange_holds; [reflexivity|].
    apply FileSystemFacts.appended_holds; [exact Hkeeps | | exact Happended].
    now apply FileSystemFacts.initialize_holds.
  - unfold S3Storage.getRange. cbn [fst].
    now rewrite S3Facts.appended_entries.
  - intros Hs He. rewrite js_slice_chain. apply filter_ext_in. intros c Hc.
    apply chain_of_sequence_bounds in Hc. unfold in_range, slice_bound.
    destruct (Z.ltb_spec start 0), (Z.ltb_spec end_ 0); lia.
  - apply chain_of_sequences.
Qed.

(** The claim's reading of a range: the interval [start, end) clamped to
    [0, n). *)
Definition clamped_range (n start end_ : Z) (chain : list ChainedEntry) : list ChainedEntry :=
  List.filter (in_range (Z.max start 0) (Z.min end_ n)) chain.

(** Three entries in the in-memory backend. *)
Definition sample_storage : InMemoryStorage.t :=
  appended sample_payloads (snd (InMemoryStorage.initialize sample_session InMemoryStorage.new)).

(** The counterexample to C6 as stated: with three entries,
    [getRange(-2, 3)] returns the last two, while the interval [-2, 3)
    clamped to [0, 3) holds all three. *)
Lemma C6_negative_start_counts_from_end :
  exists l,
    fst (InMemoryStorage.getRange (-2) 3 sample_storage) = Returns l /\
    map sequence l = [1%Z; 2%Z] /\
    map sequence (clamped_range 3 (-2) 3 (InMemoryStorage.entries sample_storage))
    = [0%Z; 1%Z; 2%Z].
Proof.
  eexists. split; [reflexivity|]. split; vm_compute; reflexivity.
Qed.

(** Ten entries, as in the range read scenario. *)
Definition ten_payloads : list value :=
  map (fun i => JObj [("type", JStr "model_call"); ("prompt_tokens", JNum (10 * Z.of_nat i))])
      (seq 0 10).

(** The range read scenario: ten entries, then [getRange(2, 5)],
    [getRange(8, 20)] and [getRange(20, 30)]. *)
Example getRange_scenario :
  let st := appended ten_payloads
              (snd (InMemoryStorage.initialize sample_session InMemoryStorage.new)) in
  let sequences r := match r with Returns l => Some (map sequence l) | Throws _ => None end in
  sequences (fst (InMemoryStorage.getRange 2 5 st)) = Some [2; 3; 4]%Z /\
  sequences (fst (InMemoryStorage.getRange 8 20 st)) = Some [8; 9]%Z /\
  sequences (fst (InMemoryStorage.getRange 20 30 st)) = Some [].
Proof. vm_compute. repeat split. Qed.





(* ====================================================================== *)
(** ** [QuoteJSONString] is injective *)
(* ====================================================================== *)

Definition hex_value (c : ascii) : N :=
  let n := N_of_ascii c in
  if N.leb 97 n then (n - 87)%N else (n - 48)%N.

(** Reads back the first code unit of an escaped string. *)
Definition unescape_first (s : string) : option (ascii * string) :=
  match s with
  | EmptyString => None
  | String c rest =>
      if Ascii.eqb c backslash then
        match rest with
        | String t rest' =>
            if Ascii.eqb t "b" then Some (ascii_of_N 8, rest')
            else if Ascii.eqb t "t" then Some (ascii_of_N 9, rest')
            else if Ascii.eqb t "n" then Some (ascii_of_N 10, rest')
            else if Ascii.eqb t "f" then Some (ascii_of_N 12, rest')
            else if Ascii.eqb t "r" then Some (ascii_of_N 13, rest')
            else if Ascii.eqb t dquote then Some (dquote, rest')
            else if Ascii.eqb t backslash then Some (backslash, rest')
            else
              match rest' with
              | String _ (String _ (String h1 (String h0 rest''))) =>
                  Some (ascii_of_N (16 * hex_value h1 + hex_value h0), rest'')
              | _ => None
              end
        | EmptyString => None
        end
      else Some (c, rest)
  end.

Lemma unescape_first_escape_char (c : ascii) (rest : string) :
  unescape_first (escape_char c +:+ rest) = Some (c, rest).
Proof. destruct c as [[] [] [] [] [] [] [] []]; reflexivity. Qed.

Lemma escape_inj (s s' : string) : escape s = escape s' -> s = s'.
Proof.
  revert s'; induction s as [|c s IH]; intros [|c' s'] H.
  - reflexivity.
  - apply (f_equal unescape_first) in H. cbn [escape] in H.
    rewrite unescape_first_escape_char in H. discriminate H.
  - apply (f_equal unescape_first) in H. cbn [escape] in H.
    rewrite unescape_first_escape_char in H. discriminate H.
  - apply (f_equal unescape_first) in H. cbn [escape] in H.
    rewrite !unescape_first_escape_char in H. injection H as -> H. f_equal. now apply IH.
Qed.

Lemma QuoteJSONString_inj (s s' : string) : QuoteJSONString s = QuoteJSONString s' -> s = s'.
Proof.
  unfold QuoteJSONString. intros H. injection H as H.
  apply string_app_inv_tail in H. now apply escape_inj.
Qed.

(* ====================================================================== *)
(** ** Facts about the signatures *)
(* ====================================================================== *)

(** The summary that is signed, property by property. *)
Definition session_id_property (log : AuditLog) : string :=
  serialize_property ("session_id", QuoteJSONString (session_id (session log))).

Definition merkle_root_property (r : string) : string :=
  serialize_property ("merkle_root", QuoteJSONString r).

Definition remaining_properties (log : AuditLog) : string :=
  String.concat ","
    (serialize_property ("entry_count", number_to_string (Z.of_nat (length (entries log))))
     :: match closed_at (session log) with
        | Some c => [serialize_property ("closed_at", QuoteJSONString c)]
        | None => []
        end).

Lemma dataToSign_with_root (log : AuditLog) (r : string) :
  merkle_root log = Some r ->
  dataToSign log
  = "{" +:+ (session_id_property log +:+ "," +:+ merkle_root_property r +:+ ","
             +:+ remaining_properties log) +:+ "}".
Proof.
  intros H. unfold dataToSign, summary, remaining_properties. rewrite H.
  destruct (closed_at (session log)); reflexivity.
Qed.

Lemma dataToSign_without_root (log : AuditLog) :
  merkle_root log = None ->
  dataToSign log
  = "{" +:+ (session_id_property log +:+ "," +:+ remaining_properties log) +:+ "}".
Proof.
  intros H. unfold dataToSign, summary, remaining_properties. rewrite H.
  destruct (closed_at (session log)); reflexivity.
Qed.

(** Two logs agree on the signed fields other than the Merkle root. *)
Definition same_session_and_count (log log' : AuditLog) : Prop :=
  session_id (session log') = session_id (session log) /\
  length (entries log') = length (entries log) /\
  closed_at (session log') = closed_at (session log).

(** Two logs agree on all four signed fields. *)
Definition same_summary (log log' : AuditLog) : Prop :=
  same_session_and_count log log' /\ merkle_root log' = merkle_root log.

Lemma same_summary_dataToSign log log' :
  same_summary log log' -> dataToSign log' = dataToSign log.
Proof.
  intros ((Hs & Hn & Hc) & Hr). unfold dataToSign, summary.
  now rewrite Hs, Hn, Hc, Hr.
Qed.

(** The summary determines the Merkle root. *)
Lemma dataToSign_root_inj log log' :
  same_session_and_count log log' -> dataToSign log' = dataToSign log ->
  merkle_root log' = merkle_root log.
Proof.
  intros (Hs & Hn & Hc) H.
  assert (Hsid : session_id_property log' = session_id_property log)
    by (unfold session_id_property; now rewrite Hs).
  assert (Hrem : remaining_properties log' = remaining_properties log)
    by (unfold remaining_properties; now rewrite Hn, Hc).
  destruct (merkle_root log') as [r'|] eqn:E', (merkle_root log) as [r|] eqn:E.
  - rewrite (dataToSign_with_root _ _ E'), (dataToSign_with_root _ _ E), Hsid, Hrem in H.
    apply string_app_inv_head, string_app_inv_tail, string_app_inv_head,
      string_app_inv_head, string_app_inv_tail in H.
    unfold merkle_root_property, serialize_property in H. cbn [fst snd] in H.
    apply string_app_inv_head, string_app_inv_head, QuoteJSONString_inj in H.
    now subst.
  - rewrite (dataToSign_with_root _ _ E'), (dataToSign_without_root _ E), Hsid, Hrem in H.
    apply string_app_inv_head, string_app_inv_tail, string_app_inv_head,
      string_app_inv_head in H.
    apply (f_equal String.length) in H. rewrite !string_length_app in H.
    simpl in H. lia.
  - rewrite (dataToSign_without_root _ E'), (dataToSign_with_root _ _ E), Hsid, Hrem in H.
    apply string_app_inv_head, string_app_inv_tail, string_app_inv_head,
      string_app_inv_head in H.
    apply (f_equal String.length) in H. rewrite !string_length_app in H.
    simpl in H. lia.
  - reflexivity.
Qed.

Section SignatureFacts.
Context `{NC : NodeCrypto}.

(** A key pair matches when a signature made with the private key
    verifies under the public key for the data that was signed. *)
Definition matching_key_pair (privateKeyBase64 publicKeyBase64 : string) : Prop :=
  forall data, exists sig,
    sign data privateKeyBase64 = Returns sig /\
    verify data sig publicKeyBase64 = Returns true.

(** The signature is accepted under the key for no data other than
    [data]: what an unforgeable scheme provides against a change of the
    signed data. *)
Definition accepted_only_for (data sig publicKeyBase64 : string) : Prop :=
  forall data', data' <> data -> verify data' sig publicKeyBase64 = Returns false.

Context `{RT : NodeRuntime}.

(** X31. Verifying a signature never raises. [verify] returns a boolean
    for every data, signature and key: [true] exactly when the key parses
    and [crypto.verify] accepts, and [false] in every other case, among
    them a key that does not parse (malformed key material), a primitive
    that raises, and a signature that the primitive rejects.
    [verifyAuditLogSignature] returns [false], with no error, for a log
    without [org_signature]; for a log with one it returns the verdict of
    [verify] on the summary of the log's present fields. With a matching
    key pair, [signAuditLog] returns a signature that carries the public
    key and under which every log with the same four summary fields is
    verified. *)
Theorem signature_verification_never_raises (data signatureBase64 publicKeyBase64 : string) :
  let publicKeyPem := Buffer_toString_utf8 (Buffer_from_base64 publicKeyBase64) in
  (exists b : bool, verify data signatureBase64 publicKeyBase64 = Returns b) /\
  (verify data signatureBase64 publicKeyBase64 = Returns true <->
   exists publicKeyObj,
     createPublicKey publicKeyPem = Returns publicKeyObj /\
     cryptoVerify data publicKeyObj (Buffer_from_base64 signatureBase64) = Returns true) /\
  (forall e, createPublicKey publicKeyPem = Throws e ->
             verify data signatureBase64 publicKeyBase64 = Returns false) /\
  (forall publicKeyObj e,
      createPublicKey publicKeyPem = Returns publicKeyObj ->
      cryptoVerify data publicKeyObj (Buffer_from_base64 signatureBase64) = Throws e ->
      verify data signatureBase64 publicKeyBase64 = Returns false) /\
  (forall publicKeyObj,
      createPublicKey publicKeyPem = Returns publicKeyObj ->
      cryptoVerify data publicKeyObj (Buffer_from_base64 signatureBase64) = Returns false ->
      verify data signatureBase64 publicKeyBase64 = Returns false) /\
  (forall unsigned, org_signature unsigned = None ->
                    verifyAuditLogSignature unsigned = Returns false) /\
  (forall signed s, org_signature signed = Some s ->
     verifyAuditLogSignature signed = verify (dataToSign signed) (signature s) (public_key s) /\
     exists b : bool, verifyAuditLogSignature signed = Returns b) /\
  (forall log privateKeyBase64 w,
     matching_key_pair privateKeyBase64 publicKeyBase64 ->
     exists s w',
       signAuditLog log privateKeyBase64 publicKeyBase64 w = (Returns s, w') /\
       public_key s = publicKeyBase64 /\
       sign (dataToSign log) privateKeyBase64 = Returns (signature s) /\
       (forall log', same_summary log log' -> org_signature log' = Some s ->
                     verifyAuditLogSignature log' = Returns true)).
Proof.
  intros publicKeyPem.
  assert (Hbool : forall d sg k, exists b : bool, verify d sg k = Returns b).
  { intros d sg k. unfold verify, verify_body, try_catch, Result_bind.
    destruct (createPublicKey _) as [ko|e0]; [|now exists false].
    destruct (cryptoVerify d ko _) as [b|e1]; [now exists b | now exists false]. }
  split; [apply Hbool|].
  assert (Hrest :
    (verify data signatureBase64 publicKeyBase64 = Returns true <->
     exists publicKeyObj,
       createPublicKey publicKeyPem = Returns publicKeyObj /\
       cryptoVerify data publicKeyObj (Buffer_from_base64 signatureBase64) = Returns true) /\
    (forall e, createPublicKey publicKeyPem = Throws e ->
               verify data signatureBase64 publicKeyBase64 = Returns false) /\
    (forall publicKeyObj e,
        createPublicKey publicKeyPem = Returns publicKeyObj ->
        cryptoVerify data publicKeyObj (Buffer_from_base64 signatureBase64) = Throws e ->
        verify data signatureBase64 publicKeyBase64 = Returns false) /\
    (forall publicKeyObj,
        createPublicKey publicKeyPem = Returns publicKeyObj ->
        cryptoVerify data publicKeyObj (Buffer_from_base64 signatureBase64) = Returns false ->
        verify data signatureBase64 publicKeyBase64 = Returns false)).
  { unfold verify, verify_body, try_catch, Result_bind. fold publicKeyPem.
    destruct (createPublicKey publicKeyPem) as [k|e0] eqn:Ek.
    - destruct (cryptoVerify data k (Buffer_from_base64 signatureBase64)) as [[|]|e1] eqn:Ev.
      + split; [split; [intros _; now exists k | reflexivity]|].
        split; [discriminate|]. split.
        * intros k' e Hk Hv. injection Hk as <-. congruence.
        * intros k' Hk Hv. injection Hk as <-. congruence.
      + split; [split; [discriminate | intros (k' & Hk & Hv); injection Hk as <-; congruence]|].
        split; [discriminate|]. split; reflexivity.
      + split; [split; [discriminate | intros (k' & Hk & Hv); injection Hk as <-; congruence]|].
        split; [discriminate|]. split; reflexivity.
    - split; [split; [discriminate | intros (k' & Hk & Hv); discriminate]|].
      split; [reflexivity|]. split; discriminate. }
  destruct Hrest as (H1 & H2 & H3 & H4).
  split; [exact H1|]. split; [exact H2|]. split; [exact H3|]. split; [exact H4|].
  split.
  { intros unsigned H. unfold verifyAuditLogSignature. now rewrite H. }
  split.
  { intros signed s Hs. unfold verifyAuditLogSignature. rewrite Hs.
    split; [reflexivity | apply Hbool]. }
  intros log privateKeyBase64 w Hkeys.
  destruct (Hkeys (dataToSign log)) as (sig & Hsign & Hverify).
  exists (mkOrgSignature publicKeyBase64 sig (fst (Date_toISOString w))),
         (snd (Date_toISOString w)).
  split.
  { unfold signAuditLog, bind, lift_result, timestamp, ret. now rewrite Hsign. }
  split; [reflexivity|]. split; [exact Hsign|].
  intros log' Hsame Hs. unfold verifyAuditLogSignature. rewrite Hs.
  cbn [signature public_key].
  now rewrite (same_summary_dataToSign _ _ Hsame).
Qed.

End SignatureFacts.

(** *** A toy runtime and a toy signature scheme, for the examples *)

(** The clock and the UUID source are counters; every request succeeds. *)
#[local] Instance ToyRuntime : NodeRuntime := {|
  World := nat;
  Date_toISOString := fun w => ("2026-01-05T09:00:0" +:+ number_to_string (Z.of_nat (w mod 10)) +:+ ".000Z", Datatypes.S w);
  randomUUID := fun w => ("00000000-0000-4000-8000-00000000000" +:+ number_to_string (Z.of_nat (w mod 10)), Datatypes.S w);
  fetch_PUT := fun _ _ w => (true, w)
|}.

(** Keys are non-empty strings, the two keys of a pair are equal, and the
    signature of [data] under [key] is [key:data]. *)
#[local] Instance ToyCrypto : NodeCrypto := {|
  PrivateKeyObject := string;
  PublicKeyObject := string;
  Buffer_from_base64 := fun s => s;
  Buffer_toString_base64 := fun s => s;
  Buffer_toString_utf8 := fun s => s;
  createPrivateKey := fun pem => if truthy pem then Returns pem else Throws (NodeError "ERR_OSSL_UNSUPPORTED");
  createPublicKey := fun pem => if truthy pem then Returns pem else Throws (NodeError "ERR_OSSL_UNSUPPORTED");
  cryptoSign := fun data key => Returns (key +:+ ":" +:+ data);
  cryptoVerify := fun data key sig => Returns (String.eqb (key +:+ ":" +:+ data) sig)
|}.

Definition toy_world : @World ToyRuntime := 0.

(** A file system in memory: the regular files by path. A directory can
    be created unless a regular file has its path; a file that is absent
    cannot be read. *)
#[local] Instance ToyFileSystem : NodeFileSystem := {|
  Files := gmap string (list Line);
  path_join := String.concat "/";
  mkdirSync := fun path files =>
    match files !! path with
    | Some _ => (Fails "EEXIST", files)
    | None => (Done tt, files)
    end;
  writeFileSync := fun path content files => (Done tt, <[path := content]> files);
  appendFileSync := fun path line files =>
    (Done tt, <[path := (default [] (files !! path) ++ [line])%list]> files);
  readFileSync := fun path files =>
    match files !! path with
    | Some content => Done content
    | None => Fails "ENOENT"
    end
|}.

(** No file at all. *)
Definition no_files : @Files ToyFileSystem := ∅.

(** A regular file where the directory of [sample_session] would be. *)
Definition file_in_the_way : @Files ToyFileSystem :=
  {[ "logs/acme/6f1c2a9e-0d7b-4c55-9a3e-2b1f8e7d4c10" := [Unparsable] ]}.

(** The file backend after [initialize]. *)
Definition sample_file_backend : FileSystemStorage.t * @Files ToyFileSystem :=
  snd (@FileSystemStorage.initialize ToyFileSystem sample_session
         (FileSystemStorage.new "logs", no_files)).

Lemma toy_keeps_writes : @FileSystemFacts.keeps_writes ToyFileSystem.
Proof.
  split.
  - intros path content files files' H. cbv [writeFileSync ToyFileSystem] in H.
    injection H as <-.
    cbv [readFileSync ToyFileSystem]. now rewrite lookup_insert_eq.
  - intros path line files files' content H. cbv [appendFileSync ToyFileSystem] in H.
    injection H as <-.
    cbv [readFileSync ToyFileSystem]. rewrite lookup_insert_eq.
    intros E.
    match type of E with match ?found with _ => _ end = _ => destruct found as [c|] end;
      [|discriminate E].
    injection E as ->. reflexivity.
Qed.

Lemma toy_appends_return (es : list value) :
  forall st : FileSystemStorage.t * @Files ToyFileSystem,
    FileSystemStorage.logPath (fst st) <> None ->
    @FileSystemFacts.appends_return ToyFileSystem es st.
Proof.
  induction es as [|e es IH]; intros st Hp; [exact I|].
  cbn [FileSystemFacts.appends_return]. unfold FileSystemStorage.append.
  destruct (FileSystemStorage.logPath (fst st)) as [p|] eqn:E; [|contradiction].
  cbn [appendFileSync ToyFileSystem fst snd]. split; [eexists; reflexivity|].
  apply IH. cbn [fst FileSystemStorage.logPath]. discriminate.
Qed.

Lemma C6_getRange_witness :
  fst (@FileSystemStorage.getRange ToyFileSystem 1 3
         (@FileSystemFacts.appended ToyFileSystem sample_payloads sample_file_backend))
  = Returns (List.filter (in_range 1 3) (chain_of sample_payloads)).
Proof.
  exact (proj1 (proj2
    (@C6_getRange_selects_by_sequence ToyRuntime ToyFileSystem sample_session
       sample_payloads 1 3 InMemoryStorage.new
       (FileSystemStorage.new "logs", no_files)
       (S3Storage.new
          (S3Storage.mkS3Config "https://s3.example.com" "audit" "id" "secret" None),
        toy_world)))
    toy_keeps_writes ltac:(vm_compute; reflexivity)
    (toy_appends_return sample_payloads sample_file_backend
       ltac:(vm_compute; discriminate))).
Defined.

Lemma toy_keys_match : matching_key_pair "k1" "k1".
Proof.
  intros data. exists ("k1:" +:+ data). split; [reflexivity|].
  cbn. now rewrite String.eqb_refl.
Qed.

Lemma toy_accepted_only (data : string) : accepted_only_for data ("k1:" +:+ data) "k1".
Proof.
  intros data' Hne. cbn. f_equal. apply String.eqb_neq. intros H. apply Hne.
  now injection H.
Qed.

Definition sample_log : AuditLog :=
  mkAuditLog "1.0.0"
    (mkSessionEnvelope "6f1c2a9e-0d7b-4c55-9a3e-2b1f8e7d4c10" "acme" "advisor" (Some "1.0.0")
       "test" (JObj [("type", JStr "user"); ("identifier", JStr "u-17")])
       "2026-01-05T09:00:00.000Z" (Some "2026-01-05T09:30:00.000Z") ["FINRA_4511"] 2555 None)
    [mkChainedEntry 0 (JObj [("type", JStr "model_call")]) "" "aa11"]
    (Some "58c89d709329eb37285837b042ab6ff72c7c8f74de0446b091b6a0131c102cfd")
    None None.

Definition with_signature (s : OrgSignature) (log : AuditLog) : AuditLog :=
  mkAuditLog (version log) (session log) (entries log) (merkle_root log) (Some s) (integrity log).

Definition with_merkle_root (r : string) (log : AuditLog) : AuditLog :=
  mkAuditLog (version log) (session log) (entries log) (Some r) (org_signature log)
    (integrity log).

Lemma signature_verification_witness :
  verify "data" "k1:data" "k1" = Returns true /\
  verify "other data" "k1:data" "k1" = Returns false /\
  verify "data" "k1:data" "" = Returns false /\
  exists s w',
    signAuditLog sample_log "k1" "k1" toy_world = (Returns s, w') /\
    verifyAuditLogSignature (with_signature s sample_log) = Returns true.
Proof.
  split; [reflexivity|]. split; [reflexivity|]. split.
  - destruct (@signature_verification_never_raises ToyCrypto ToyRuntime "data" "k1:data" "")
      as (_ & _ & Hkey & _).
    apply (Hkey (NodeError "ERR_OSSL_UNSUPPORTED")). reflexivity.
  - destruct (@signature_verification_never_raises ToyCrypto ToyRuntime "data" "k1:data" "k1")
      as (_ & _ & _ & _ & _ & _ & _ & Hsigned).
    destruct (Hsigned sample_log "k1" toy_world toy_keys_match)
      as (s & w' & Hsign & _ & _ & Hsame).
    exists s, w'. split; [exact Hsign|].
    apply Hsame; [|reflexivity].
    split; [split; [reflexivity | split; reflexivity] | reflexivity].
Defined.


(* ====================================================================== *)
(** ** Facts about the ledger *)
(* ====================================================================== *)

Section LedgerFacts.
Context `{RT : NodeRuntime} {S : Type} `{SB : !StorageBackend S}.

(** The error that every guarded operation raises before [start()]. *)
Definition not_initialized : Error :=
  LedgerNotInitializedError "Ledger not initialized. Call start() first.".

(** An operation fails with [LedgerNotInitializedError] and leaves the
    ledger, its storage and the world as they were. *)
Definition rejected {A} (op : @Ledger.LedgerM RT S A) (l : @Ledger.t S) (w : World) : Prop :=
  op (l, w) = (Throws not_initialized, (l, w)).

Lemma ensureInitialized_fresh (l : @Ledger.t S) (w : World) :
  Ledger.initialized l = false ->
  Ledger.ensureInitialized (l, w) = (Throws not_initialized, (l, w)).
Proof.
  intros H. unfold Ledger.ensureInitialized, bind, Ledger.this. cbn [fst snd].
  rewrite H. reflexivity.
Qed.

Lemma guarded_rejected {A} (k : @Ledger.LedgerM RT S A) (l : @Ledger.t S) (w : World) :
  Ledger.initialized l = false ->
  rejected (bind Ledger.ensureInitialized (fun _ => k)) l w.
Proof.
  intros H. unfold rejected, bind. now rewrite ensureInitialized_fresh.
Qed.

(** C10. On a ledger that has just been constructed, every public
    operation other than [start] fails with [LedgerNotInitializedError]:
    the typed log operations, [snapshot], [storeContent], [verify],
    [getEntries], [count], [close], [export] and [getSession]; nothing is
    appended and the storage is not called. *)
Theorem C10_operations_before_start_are_rejected
    (config : LedgerConfig) (storage : S) (w : World) :
  let l := Ledger.new config storage in
  (forall p, rejected (Ledger.logModelCall p) l w) /\
  (forall p, rejected (Ledger.logToolInvocation p) l w) /\
  (forall p, rejected (Ledger.logDecision p) l w) /\
  (forall p, rejected (Ledger.logApproval p) l w) /\
  (forall p, rejected (Ledger.snapshot p) l w) /\
  (forall p, rejected (Ledger.storeContent p) l w) /\
  rejected Ledger.verify l w /\
  (forall start end_, rejected (Ledger.getEntries start end_) l w) /\
  rejected Ledger.count l w /\
  rejected Ledger.close l w /\
  (forall options, rejected (Ledger.export options) l w) /\
  rejected Ledger.getSession l w.
Proof.
  intros l.
  assert (Hl : Ledger.initialized l = false) by reflexivity.
  repeat match goal with
         | |- _ /\ _ => split
         | |- forall _, _ => intro
         end;
    apply guarded_rejected; exact Hl.
Qed.

(** After [start()] the guard lets the operations through. *)
Lemma ensureInitialized_started (l : @Ledger.t S) (w : World) :
  Ledger.initialized l = true ->
  Ledger.ensureInitialized (l, w) = (Returns tt, (l, w)).
Proof.
  intros H. unfold Ledger.ensureInitialized, bind, Ledger.this. cbn [fst snd].
  rewrite H. reflexivity.
Qed.

Lemma start_initializes (l : @Ledger.t S) (w : World) initiatedBy metadata id st' :
  Ledger.start initiatedBy metadata (l, w) = (Returns id, st') ->
  Ledger.initialized (fst st') = true /\ Ledger.entryCount (fst st') = 0%Z.
Proof.
  unfold Ledger.start, bind, Ledger.this, Ledger.on_world, Ledger.on_storage,
    Ledger.set_this, ret, generateId, timestamp. cbn [fst snd].
  destruct (storage_initialize _ _) as [[u|e] s']; cbn [fst snd]; intros H;
    [|discriminate].
  injection H as _ <-. split; reflexivity.
Qed.

End LedgerFacts.


(* ====================================================================== *)
(** ** More on the hash chain *)
(* ====================================================================== *)

(** X1. [verifyChain] accepts a list of entries exactly when the list
    satisfies the chain invariant, and then it reports no error; whatever
    the list, [verified_count] is its length. *)
Theorem verifyChain_accepts_exactly_the_invariant (entries : list ChainedEntry) :
  (valid (verifyChain entries) = true <-> chain_invariant entries) /\
  (valid (verifyChain entries) = true <-> errors (verifyChain entries) = []) /\
  verified_count (verifyChain entries) = length entries.
Proof.
  split; [|split; [|reflexivity]].
  - rewrite verifyChain_valid_iff. split.
    + apply links_chain_invariant.
    + apply chain_invariant_links.
  - unfold verifyChain. cbn [valid errors].
    destruct (fold_left _ _ _) as [|e errs]; simpl; split; congruence.
Qed.

Lemma chain_invariant_firstn (entries : list ChainedEntry) (k : nat) :
  chain_invariant entries -> chain_invariant (firstn k entries).
Proof.
  intros Hinv i c Hi.
  assert (Hik : i < k).
  { destruct (Nat.lt_ge_cases i k) as [H|H]; [exact H|].
    assert (nth_error (firstn k entries) i = None); [|congruence].
    apply nth_error_None. rewrite length_firstn. lia. }
  rewrite nth_error_firstn in Hi.
  destruct (Nat.ltb_spec i k); [|lia].
  destruct (Hinv i c Hi) as (Hs & Hp & Hh). split; [exact Hs|]. split; [|exact Hh].
  rewrite Hp. destruct i as [|j]; [reflexivity|].
  rewrite nth_error_firstn. destruct (Nat.ltb_spec j k); [reflexivity | lia].
Qed.

(** X2. Every prefix of a chain that [verifyChain] accepts is accepted as
    well: the chain by itself does not show that entries are missing at
    the end. *)
Theorem verifyChain_accepts_every_prefix (entries : list ChainedEntry) (k : nat)
    (Hvalid : valid (verifyChain entries) = true) :
  verifyChain (firstn k entries) = mkChainResult true [] (Nat.min k (length entries)).
Proof.
  rewrite <- length_firstn. apply verifyChain_of_links, chain_invariant_links.
  apply chain_invariant_firstn, links_chain_invariant, verifyChain_valid_iff, Hvalid.
Qed.

(** The list without its entry [i]. *)
Definition without (i : nat) (entries : list ChainedEntry) : list ChainedEntry :=
  firstn i entries ++ skipn (S i) entries.

Lemma nth_error_without (i : nat) (entries : list ChainedEntry) (j : nat) :
  nth_error (without i entries) j
  = if Nat.ltb j i then nth_error entries j else nth_error entries (S j).
Proof.
  unfold without. destruct (Nat.ltb_spec j i) as [Hlt|Hge].
  - destruct (Nat.le_gt_cases (length entries) j) as [Hout|Hin].
    + rewrite (proj2 (nth_error_None entries j) Hout).
      apply nth_error_None. rewrite length_app, length_firstn, length_skipn. lia.
    + rewrite nth_error_app1 by (rewrite length_firstn; lia).
      rewrite nth_error_firstn. destruct (Nat.ltb_spec j i); [reflexivity | lia].
  - destruct (Nat.le_gt_cases (length entries) i) as [Hout|Hin].
    + rewrite firstn_all2, skipn_all2, app_nil_r by lia.
      rewrite (proj2 (nth_error_None entries j)), (proj2 (nth_error_None entries (S j))) by lia.
      reflexivity.
    + rewrite nth_error_app2 by (rewrite length_firstn; lia).
      rewrite length_firstn, Nat.min_l by lia.
      rewrite nth_error_skipn. f_equal. lia.
Qed.

Lemma length_without (i : nat) (entries : list ChainedEntry) :
  i < length entries -> length (without i entries) = length entries - 1.
Proof.
  intros Hi. unfold without. rewrite length_app, length_firstn, length_skipn. lia.
Qed.

(** X3. Removing an entry other than the last from a chain that
    [verifyChain] accepts is detected, and reported once: the entry that
    moves into the gap fails with a sequence mismatch, and every other
    link still verifies. *)
Theorem verifyChain_detects_a_removed_entry (entries : list ChainedEntry) (i : nat)
    (Hvalid : valid (verifyChain entries) = true) (Hi : S i < length entries) :
  verifyChain (without i entries)
  = mkChainResult false
      ["Sequence mismatch: expected " +:+ number_to_string (Z.of_nat i)
       +:+ ", got " +:+ number_to_string (Z.of_nat (S i))]
      (length entries - 1).
Proof.
  apply verifyChain_valid_iff in Hvalid.
  pose proof (links_chain_invariant _ Hvalid) as Hinv.
  assert (Hlen : length (without i entries) = length entries - 1)
    by (apply length_without; lia).
  assert (Hseq : forall j c, nth_error entries j = Some c -> sequence c = Z.of_nat j)
    by (intros j c Hj; now destruct (Hinv j c Hj)).
  assert (Hati : link_errors (without i entries) i
                 = ["Sequence mismatch: expected " +:+ number_to_string (Z.of_nat i)
                    +:+ ", got " +:+ number_to_string (Z.of_nat (S i))]).
  { rewrite link_errors_spec. unfold link_at. rewrite nth_error_without, Nat.ltb_irrefl.
    destruct (nth_error entries (S i)) as [c|] eqn:Ec;
      [|apply nth_error_None in Ec; lia].
    unfold verifyChainLink. rewrite (Hseq _ _ Ec).
    destruct i as [|i'].
    - simpl. reflexivity.
    - replace (Nat.ltb 0 (S i')) with true by reflexivity.
      rewrite nth_error_without.
      replace (S i' - 1) with i' by lia.
      destruct (Nat.ltb_spec i' (S i')); [|lia].
      destruct (nth_error entries i') as [p|] eqn:Ep;
        [|apply nth_error_None in Ep; lia].
      rewrite (Hseq _ _ Ep).
      destruct (Z.eqb_spec (Z.of_nat (S (S i'))) (Z.of_nat i' + 1)) as [E|_]; [lia|].
      cbn [negb link_error]. do 4 f_equal. lia. }
  assert (Hother : forall j, j < length entries - 1 -> j <> i ->
                     link_errors (without i entries) j = []).
  { intros j Hj Hne. rewrite link_errors_spec. unfold link_at.
    rewrite nth_error_without.
    destruct (Nat.ltb_spec j i) as [Hlt|Hge].
    - destruct (nth_error entries j) as [c|] eqn:Ec; [|reflexivity].
      assert (Hp : (if Nat.ltb 0 j then nth_error (without i entries) (j - 1) else None)
                   = (if Nat.ltb 0 j then nth_error entries (j - 1) else None)).
      { destruct (Nat.ltb 0 j); [|reflexivity]. rewrite nth_error_without.
        destruct (Nat.ltb_spec (j - 1) i); [reflexivity | lia]. }
      rewrite Hp.
      rewrite (Hvalid j (verifyChainLink c (if Nat.ltb 0 j then nth_error entries (j - 1) else None)));
        [reflexivity|].
      unfold link_at. now rewrite Ec.
    - destruct (nth_error entries (S j)) as [c|] eqn:Ec; [|reflexivity].
      assert (Hp : (if Nat.ltb 0 j then nth_error (without i entries) (j - 1) else None)
                   = nth_error entries j).
      { destruct (Nat.ltb_spec 0 j); [|lia]. rewrite nth_error_without.
        destruct (Nat.ltb_spec (j - 1) i); [lia|]. f_equal. lia. }
      rewrite Hp.
      pose proof (Hvalid (S j)) as Hv. unfold link_at in Hv. rewrite Ec in Hv.
      replace (Nat.ltb 0 (S j)) with true in Hv by reflexivity.
      replace (S j - 1) with j in Hv by lia.
      now rewrite (Hv _ eq_refl). }
  unfold verifyChain. rewrite verifyChain_fold, Hlen. cbn [app].
  rewrite (flat_map_single _ _ i).
  - rewrite Hati. reflexivity.
  - apply seq_NoDup.
  - apply in_seq. lia.
  - intros j Hj Hne. apply in_seq in Hj. apply Hother; [lia | exact Hne].
Qed.

(** The payloads of the object that is hashed are compared up to the
    order of their keys. *)
Lemma entryWithPrevious_equiv (sequence : Z) (e e' : value) (previousHash : string) :
  json_equiv e e' ->
  json_equiv (entryWithPrevious sequence e previousHash)
             (entryWithPrevious sequence e' previousHash).
Proof.
  intros He. unfold entryWithPrevious. apply json_equiv_obj.
  assert (Hnd : List.NoDup ["sequence"; "entry"; "previous_hash"]).
  { repeat (constructor; [simpl; intuition discriminate|]). constructor. }
  split; [exact Hnd|]. split; [exact Hnd|]. split; [reflexivity|].
  intros k v [E|[E|[E|[]]]]; injection E as <- <-.
  - eexists. split; [reflexivity|]. reflexivity.
  - eexists. split; [reflexivity|]. exact He.
  - eexists. split; [reflexivity|]. reflexivity.
Qed.

(** X4. A payload whose objects have their keys in another order, at any
    depth, gets the same entry hash from [createChainedEntry], and
    [verifyChainLink] gives the same verdict on an entry when its payload
    is replaced by such a payload: a store that reorders keys does not
    break the chain. *)
Theorem chain_hash_ignores_key_order (e e' : value) (Hequiv : json_equiv e e') :
  (forall sequence previousHash,
      entry_hash (createChainedEntry e sequence previousHash)
      = entry_hash (createChainedEntry e' sequence previousHash)) /\
  (forall c previous, entry c = e ->
      verifyChainLink (with_payload e' c) previous = verifyChainLink c previous).
Proof.
  assert (Hhash : forall s p, hashObject (entryWithPrevious s e p)
                              = hashObject (entryWithPrevious s e' p)).
  { intros s p. unfold hashObject. f_equal.
    apply stringify_sorted_equiv, entryWithPrevious_equiv, Hequiv. }
  split.
  - intros s p. cbn [createChainedEntry entry_hash]. apply Hhash.
  - intros c previous <-. unfold verifyChainLink, with_payload.
    cbn [sequence previous_hash entry_hash entry]. now rewrite Hhash.
Qed.

Lemma sample_chain_valid : valid (verifyChain sample_chain) = true.
Proof. vm_compute. reflexivity. Qed.

Lemma verifyChain_prefix_witness :
  verifyChain (firstn 2 sample_chain) = mkChainResult true [] 2.
Proof. exact (verifyChain_accepts_every_prefix sample_chain 2 sample_chain_valid). Defined.

Lemma verifyChain_removed_entry_witness :
  verifyChain (without 1 sample_chain)
  = mkChainResult false ["Sequence mismatch: expected 1, got 2"] 2.
Proof.
  exact (verifyChain_detects_a_removed_entry sample_chain 1 sample_chain_valid
           ltac:(vm_compute; lia)).
Defined.

Lemma chain_hash_key_order_witness :
  entry_hash (createChainedEntry insertion_order 0 "")
  = entry_hash (createChainedEntry sorted_order 0 "").
Proof.
  exact (proj1 (chain_hash_ignores_key_order insertion_order sorted_order
                  insertion_order_equiv) 0%Z "").
Defined.


(* ====================================================================== *)
(** ** More on the Merkle tree *)
(* ====================================================================== *)

Lemma pad_done_dec (n : nat) : pad_done n = false -> n <> 0 /\ ~ power_of_two n.
Proof.
  intros H. split.
  - intros ->. discriminate.
  - intros Hp. assert (pad_done n = true) by (apply pad_done_pow2; now right). congruence.
Qed.

(** X5. [buildMerkleTree] returns exactly when the list is empty, or its
    length is a power of two, or its last hash is a non-empty string; in
    the remaining case, a last hash that is the empty string in a list
    whose length is not a power of two, the padding loop never ends,
    however many turns it is given. *)
Theorem buildMerkleTree_returns_iff (hashes : list string) :
  ((exists t, buildMerkleTree hashes = Some t) <->
   hashes = [] \/ power_of_two (length hashes) \/ List.last hashes "" <> "") /\
  (buildMerkleTree hashes = None -> forall fuel, buildMerkleTree_fuel fuel hashes = None).
Proof.
  destruct hashes as [|h hs] eqn:Eh.
  { split; [split; [now left | intros _; now eexists]|]. discriminate. }
  rewrite <- Eh. assert (Hne : hashes <> []) by (rewrite Eh; discriminate).
  assert (Hlen : Nat.eqb (length hashes) 0 = false).
  { apply Nat.eqb_neq. rewrite Eh. discriminate. }
  clear Eh h hs.
  destruct (pad_done (length hashes)) eqn:Hd.
  { pose proof (pad_loop_done (length hashes) hashes Hd) as Hp.
    apply pad_done_pow2 in Hd as [H0|Hpow]; [apply Nat.eqb_neq in Hlen; lia|].
    split; [split; [intros _; now right; left|intros _]|].
    - rewrite (buildMerkleTree_padded _ _ Hne Hp). now eexists.
    - rewrite (buildMerkleTree_padded _ _ Hne Hp). discriminate. }
  destruct (pad_done_dec _ Hd) as (_ & Hnp).
  destruct (truthy (List.last hashes "")) eqn:Ht.
  { destruct (pad_loop_terminates hashes Hne Ht) as (m & Hp & _).
    rewrite (buildMerkleTree_padded _ _ Hne Hp).
    split; [split; [intros _; right; right|intros _; now eexists]|discriminate].
    intros E. rewrite E in Ht. discriminate. }
  destruct (snoc_last hashes Hne) as (l' & x & El & Ex).
  rewrite Ex in Ht.
  assert (Hstuck : forall fuel, buildMerkleTree_fuel fuel hashes = None).
  { intros fuel. unfold buildMerkleTree_fuel. rewrite Hlen.
    rewrite El. rewrite pad_loop_stuck; [reflexivity | now rewrite <- El | exact Ht]. }
  split; [|intros _; exact Hstuck].
  unfold buildMerkleTree. rewrite Hstuck. split.
  - intros (t & Hs). discriminate.
  - intros [H|[H|H]]; [contradiction|contradiction|].
    exfalso. apply H. rewrite Ex. unfold truthy in Ht.
    apply negb_false_iff, String.eqb_eq in Ht. exact Ht.
Qed.

(** *** The shape of the tree *)

(** Above a level of [2^e] nodes come [e] levels, of [2^(e-1)], ..., [1]
    nodes. *)
Lemma build_levels_shape (e : nat) : forall fuel l,
  length l = 2 ^ e -> e <= fuel ->
  length (build_levels fuel l) = e /\
  forall j lvl, nth_error (l :: build_levels fuel l) j = Some lvl -> length lvl = 2 ^ (e - j).
Proof.
  induction e as [|e IH]; intros fuel l Hl Hfuel.
  - assert (Hb : build_levels fuel l = []).
    { destruct fuel; [reflexivity|]. simpl. rewrite Hl. reflexivity. }
    rewrite Hb. split; [reflexivity|].
    intros [|[|j]] lvl Hj; simpl in Hj; try discriminate. now injection Hj as <-.
  - destruct fuel as [|fuel]; [lia|].
    assert (Hl2 : length l = 2 * 2 ^ e) by (rewrite Hl; apply Nat.pow_succ_r').
    pose proof (Nat.pow_nonzero 2 e ltac:(lia)) as Hpos.
    destruct (next_level_pairs _ l Hl2) as (Hlen' & _).
    simpl build_levels.
    assert (Hgt : Nat.ltb 1 (length l) = true) by (apply Nat.ltb_lt; lia).
    rewrite Hgt.
    destruct (IH fuel (next_level l) Hlen' ltac:(lia)) as (Hn & Hshape).
    split; [simpl; now rewrite Hn|].
    intros [|j] lvl Hj.
    + simpl in Hj. injection Hj as <-. now rewrite Nat.sub_0_r.
    + simpl in Hj. replace (S e - S j) with (e - j) by lia. now apply Hshape.
Qed.

(** In a level of [2^e] nodes every walk to the root takes [e] steps. *)
Lemma walk_length (e : nat) : forall fuel l i,
  length l = 2 ^ e -> i < 2 ^ e -> e <= fuel ->
  length (fst (fold_left walk_step (removelast (l :: build_levels fuel l)) ([], Z.of_nat i)))
  = e.
Proof.
  induction e as [|e IH]; intros fuel l i Hl Hi Hfuel.
  - assert (Hb : build_levels fuel l = []).
    { destruct fuel; [reflexivity|]. simpl. rewrite Hl. reflexivity. }
    rewrite Hb. reflexivity.
  - destruct fuel as [|fuel]; [lia|].
    assert (Hl2 : length l = 2 * 2 ^ e) by (rewrite Hl; apply Nat.pow_succ_r').
    pose proof (Nat.pow_nonzero 2 e ltac:(lia)) as Hpos.
    destruct (next_level_pairs _ l Hl2) as (Hlen' & _).
    simpl build_levels.
    assert (Hgt : Nat.ltb 1 (length l) = true) by (apply Nat.ltb_lt; lia).
    rewrite Hgt.
    destruct (walk_step_parent (2 ^ e) l i [] Hl2 ltac:(lia)) as (step & Hstep & _).
    change (removelast (l :: next_level l :: build_levels fuel (next_level l)))
      with (l :: removelast (next_level l :: build_levels fuel (next_level l))).
    cbn [fold_left]. rewrite Hstep, walk_prefix. cbn [app length]. f_equal.
    assert (Hj : i / 2 < 2 ^ e) by (apply Nat.Div0.div_lt_upper_bound; lia).
    exact (IH fuel (next_level l) (i / 2) Hlen' Hj ltac:(lia)).
Qed.

(** The padding loop stops at the first power of two that it meets: what
    it returns is the list followed by copies of its last hash, and no
    shorter such list has a length that is a power of two. *)
Lemma pad_loop_minimal (fuel : nat) : forall p p',
  pad_loop fuel p = Some p' ->
  exists m, p' = p ++ repeat (List.last p "") m /\
            pad_done (length p') = true /\
            forall m', m' < m -> pad_done (length p + m') = false.
Proof.
  induction fuel as [|fuel IH]; intros p p' Hp.
  - simpl in Hp. destruct (Z.eqb _ _) eqn:Hd; [|discriminate]. injection Hp as <-.
    exists 0. simpl. rewrite app_nil_r. split; [reflexivity|]. split; [exact Hd | intros; lia].
  - destruct (pad_done (length p)) eqn:Hd.
    + rewrite (pad_loop_done _ _ Hd) in Hp. injection Hp as <-.
      exists 0. simpl. rewrite app_nil_r. split; [reflexivity|]. split; [exact Hd | intros; lia].
    + destruct p as [|h t] using rev_ind; [discriminate|]. clear IHt.
      assert (Hlast : List.last (t ++ [h]) "" = h) by apply last_last.
      destruct (truthy h) eqn:Ht.
      * rewrite (pad_loop_step _ _ _ Hd Ht) in Hp.
        destruct (IH _ _ Hp) as (m & -> & Hdone & Hmin).
        exists (S m). rewrite Hlast.
        split; [rewrite (last_last (t ++ [h]) h ""); now rewrite <- app_assoc|]. split; [exact Hdone|].
        intros [|m'] Hm'; [now rewrite Nat.add_0_r|].
        specialize (Hmin m' ltac:(lia)).
        assert (E : length ((t ++ [h]) ++ [h]) + m' = length (t ++ [h]) + S m').
        { rewrite (length_app (t ++ [h])). simpl. lia. }
        now rewrite E in Hmin.
      * now rewrite (pad_loop_stuck _ _ _ Hd Ht) in Hp.
Qed.

Lemma build_levels_next (e : nat) : forall fuel l j lvl up,
  length l = 2 ^ e -> e <= fuel ->
  nth_error (l :: build_levels fuel l) j = Some lvl ->
  nth_error (l :: build_levels fuel l) (S j) = Some up ->
  up = next_level lvl.
Proof.
  induction e as [|e IH]; intros fuel l j lvl up Hl Hfuel Hj Hup.
  - assert (Hb : build_levels fuel l = []).
    { destruct fuel; [reflexivity|]. simpl. rewrite Hl. reflexivity. }
    rewrite Hb in Hup. destruct j; discriminate.
  - destruct fuel as [|fuel]; [lia|].
    assert (Hl2 : length l = 2 * 2 ^ e) by (rewrite Hl; apply Nat.pow_succ_r').
    pose proof (Nat.pow_nonzero 2 e ltac:(lia)) as Hpos.
    destruct (next_level_pairs _ l Hl2) as (Hlen' & _).
    simpl build_levels in Hj, Hup.
    assert (Hgt : Nat.ltb 1 (length l) = true) by (apply Nat.ltb_lt; lia).
    rewrite Hgt in Hj, Hup.
    destruct j as [|j].
    + simpl in Hj, Hup. injection Hj as <-. now injection Hup as <-.
    + change (nth_error (next_level l :: build_levels fuel (next_level l)) j = Some lvl) in Hj.
      change (nth_error (next_level l :: build_levels fuel (next_level l)) (S j) = Some up)
        in Hup.
      exact (IH fuel (next_level l) j lvl up Hlen' ltac:(lia) Hj Hup).
Qed.

Lemma last_nth_error_length {A} (l : list A) (d : A) :
  l <> [] -> nth_error l (length l - 1) = Some (List.last l d).
Proof.
  destruct l as [|x t] using rev_ind; [contradiction|]. intros _.
  rewrite last_last. apply last_nth_error'.
Qed.

(** X6. For a non-empty list of [n] hashes whose last hash is a non-empty
    string, the tree that [buildMerkleTree] returns has [e + 1] levels,
    where [2^e] is the least power of two that is at least [n]: level 0
    is the list followed by copies of its last hash, level [j] has
    [2^(e-j)] nodes, each level is made of the hashes of the pairs of the
    level below, and the last level is the root alone. Every proof that
    [getMerkleProof] returns for an index below [2^e] has [e] steps. *)
Theorem buildMerkleTree_shape (hashes : list string)
    (Hne : hashes <> []) (Hlast : List.last hashes "" <> "") :
  exists (t : MerkleTree) (m e : nat),
    buildMerkleTree hashes = Some t /\
    nth_error (tree t) 0 = Some (hashes ++ repeat (List.last hashes "") m) /\
    length hashes + m = 2 ^ e /\
    (forall m', m' < m -> ~ power_of_two (length hashes + m')) /\
    length (tree t) = e + 1 /\
    (forall j lvl, nth_error (tree t) j = Some lvl -> length lvl = 2 ^ (e - j)) /\
    (forall j lvl up, nth_error (tree t) j = Some lvl -> nth_error (tree t) (S j) = Some up ->
                      up = next_level lvl) /\
    nth_error (tree t) e = Some [root t] /\
    (forall k, k < 2 ^ e -> length (getMerkleProof (tree t) (Z.of_nat k)) = e).
Proof.
  assert (Ht : truthy (List.last hashes "") = true).
  { unfold truthy. apply negb_true_iff, String.eqb_neq, Hlast. }
  destruct (pad_loop_terminates hashes Hne Ht) as (m0 & Hp & _).
  destruct (pad_loop_minimal _ _ _ Hp) as (m & Ep & Hdone & Hmin).
  rewrite Ep in Hp, Hdone. clear Ep m0.
  set (p := hashes ++ repeat (List.last hashes "") m) in *.
  assert (Hlenp : length p = length hashes + m).
  { unfold p. now rewrite length_app, repeat_length. }
  apply pad_done_pow2 in Hdone as [H0|(e & He)].
  { assert (length hashes <> 0) by (destruct hashes; [contradiction | discriminate]). lia. }
  destruct (build_levels_shape e (length p) p He) as (Hn & Hshape).
  { rewrite He. apply Nat.lt_le_incl, Nat.pow_gt_lin_r. lia. }
  assert (Hfuel : e <= length p).
  { rewrite He. apply Nat.lt_le_incl, Nat.pow_gt_lin_r. lia. }
  exists (mkMerkleTree (root_of (p :: build_levels (length p) p))
                       (p :: build_levels (length p) p)), m, e.
  cbn [tree root].
  split; [now apply buildMerkleTree_padded|].
  split; [reflexivity|].
  split; [now rewrite <- Hlenp|].
  split.
  { intros m' Hm' Hpow. specialize (Hmin m' Hm').
    assert (pad_done (length hashes + m') = true) by (apply pad_done_pow2; now right).
    congruence. }
  split; [simpl; rewrite Hn; lia|].
  split; [exact Hshape|].
  split; [intros j lvl up; now apply (build_levels_next e)|].
  split.
  - assert (Hlen : length (p :: build_levels (length p) p) - 1 = e) by (simpl; lia).
    pose proof (last_nth_error_length (p :: build_levels (length p) p) []
                  ltac:(discriminate)) as Hl.
    rewrite Hlen in Hl. rewrite Hl. f_equal.
    pose proof (Hshape e _ Hl) as Hone. rewrite Nat.sub_diag in Hone.
    unfold root_of.
    destruct (List.last (p :: build_levels (length p) p) []) as [|r [|r' rest]];
      try discriminate. reflexivity.
  - intros k Hk. rewrite getMerkleProof_levels. now apply walk_length.
Qed.

(** X7. The padding positions have proofs too: for a non-empty list whose
    last hash is a non-empty string, the proof that [getMerkleProof]
    returns for any index from the number of hashes up to the padded
    length verifies the last hash against the root, as if the log had an
    entry there. *)
Theorem padding_positions_have_proofs (hashes : list string)
    (Hne : hashes <> []) (Hlast : List.last hashes "" <> "") :
  exists t : MerkleTree,
    buildMerkleTree hashes = Some t /\
    forall k padded, nth_error (tree t) 0 = Some padded ->
      length hashes <= k < length padded ->
      verifyMerkleProof (List.last hashes "") (getMerkleProof (tree t) (Z.of_nat k)) (root t)
      = true.
Proof.
  assert (Ht : truthy (List.last hashes "") = true).
  { unfold truthy. apply negb_true_iff, String.eqb_neq, Hlast. }
  destruct (pad_loop_terminates hashes Hne Ht) as (m & Hp & (e & He)).
  set (p := hashes ++ repeat (List.last hashes "") m) in *.
  eexists. split; [exact (buildMerkleTree_padded _ _ Hne Hp)|]. cbn [tree root].
  intros k padded Hpad Hk. simpl in Hpad. injection Hpad as <-.
  unfold verifyMerkleProof. rewrite getMerkleProof_levels.
  assert (Hnth : nth k p "" = List.last hashes "").
  { unfold p. rewrite app_nth2 by lia. apply nth_repeat_lt.
    unfold p in Hk. rewrite length_app, repeat_length in Hk. lia. }
  rewrite <- Hnth.
  rewrite (walk_reaches_root e); [apply String.eqb_refl | exact He | lia |].
  rewrite He. apply Nat.lt_le_incl, Nat.pow_gt_lin_r. lia.
Qed.

(** *** The root of two halves *)

(** The root over a level of [2^e] nodes does not depend on the fuel. *)
Lemma root_of_fuel (e : nat) : forall fuel l,
  length l = 2 ^ e -> e <= fuel ->
  root_of (l :: build_levels fuel l) = root_of (l :: build_levels e l).
Proof.
  induction e as [|e IH]; intros fuel l Hl Hfuel.
  - destruct fuel; [reflexivity|]. simpl. rewrite Hl. reflexivity.
  - destruct fuel as [|fuel]; [lia|].
    assert (Hl2 : length l = 2 * 2 ^ e) by (rewrite Hl; apply Nat.pow_succ_r').
    pose proof (Nat.pow_nonzero 2 e ltac:(lia)) as Hpos.
    destruct (next_level_pairs _ l Hl2) as (Hlen' & _).
    simpl build_levels.
    assert (Hgt : Nat.ltb 1 (length l) = true) by (apply Nat.ltb_lt; lia).
    rewrite Hgt.
    change (root_of (l :: ?a :: ?b)) with (root_of (a :: b)).
    apply IH; [exact Hlen' | lia].
Qed.

Lemma next_level_app (n : nat) : forall l1 l2,
  length l1 = 2 * n -> next_level (l1 ++ l2) = next_level l1 ++ next_level l2.
Proof.
  induction n as [|n IH]; intros l1 l2 Hl.
  - destruct l1; [reflexivity | discriminate].
  - destruct l1 as [|a [|b rest]]; try (simpl in Hl; lia).
    simpl app. simpl next_level. f_equal. apply IH. simpl in Hl. lia.
Qed.

Lemma root_of_halves (e : nat) : forall l1 l2,
  length l1 = 2 ^ e -> length l2 = 2 ^ e ->
  root_of ((l1 ++ l2) :: build_levels (S e) (l1 ++ l2))
  = sha256 (root_of (l1 :: build_levels e l1) +:+ root_of (l2 :: build_levels e l2)).
Proof.
  induction e as [|e IH]; intros l1 l2 H1 H2.
  - destruct l1 as [|a [|? ?]]; try discriminate.
    destruct l2 as [|b [|? ?]]; try discriminate. reflexivity.
  - assert (Hl1 : length l1 = 2 * 2 ^ e) by (rewrite H1; apply Nat.pow_succ_r').
    assert (Hl2 : length l2 = 2 * 2 ^ e) by (rewrite H2; apply Nat.pow_succ_r').
    pose proof (Nat.pow_nonzero 2 e ltac:(lia)) as Hpos.
    destruct (next_level_pairs _ l1 Hl1) as (Hn1 & _).
    destruct (next_level_pairs _ l2 Hl2) as (Hn2 & _).
    assert (Hgt : forall l : list string, length l = 2 * 2 ^ e -> Nat.ltb 1 (length l) = true)
      by (intros l Hl; apply Nat.ltb_lt; lia).
    assert (Hgt' : Nat.ltb 1 (length (l1 ++ l2)) = true)
      by (apply Nat.ltb_lt; rewrite length_app; lia).
    change (build_levels (S (S e)) (l1 ++ l2))
      with (if Nat.ltb 1 (length (l1 ++ l2))
            then next_level (l1 ++ l2) :: build_levels (S e) (next_level (l1 ++ l2))
            else []).
    change (build_levels (S e) l1)
      with (if Nat.ltb 1 (length l1)
            then next_level l1 :: build_levels e (next_level l1) else []).
    change (build_levels (S e) l2)
      with (if Nat.ltb 1 (length l2)
            then next_level l2 :: build_levels e (next_level l2) else []).
    rewrite Hgt', (Hgt l1 Hl1), (Hgt l2 Hl2).
    change (root_of (?l :: ?a :: ?b)) with (root_of (a :: b)).
    rewrite (next_level_app _ l1 l2 Hl1). now apply IH.
Qed.

(** X8. The root over two lists of [2^e] hashes each, one after the other,
    is the hash of the two roots, concatenated: a root can be computed
    from the roots of the two halves of a log. For one hash, the root is
    that hash itself. *)
Theorem root_of_two_halves (e : nat) (l1 l2 : list string)
    (H1 : length l1 = 2 ^ e) (H2 : length l2 = 2 ^ e) :
  exists t t1 t2,
    buildMerkleTree (l1 ++ l2) = Some t /\
    buildMerkleTree l1 = Some t1 /\
    buildMerkleTree l2 = Some t2 /\
    root t = sha256 (root t1 +:+ root t2) /\
    (forall h, buildMerkleTree [h] = Some (mkMerkleTree h [[h]])).
Proof.
  pose proof (Nat.pow_nonzero 2 e ltac:(lia)) as Hpos.
  assert (Hbuild : forall k (l : list string), length l = 2 ^ k ->
            buildMerkleTree l
            = Some (mkMerkleTree (root_of (l :: build_levels (length l) l))
                                 (l :: build_levels (length l) l))).
  { intros k l Hl. apply buildMerkleTree_padded.
    - intros ->. pose proof (Nat.pow_nonzero 2 k ltac:(lia)). simpl in Hl. lia.
    - apply pad_loop_done, pad_done_pow2. right. now exists k. }
  assert (H12 : length (l1 ++ l2) = 2 ^ S e).
  { rewrite length_app, H1, H2. rewrite Nat.pow_succ_r'. lia. }
  do 3 eexists.
  split; [exact (Hbuild _ _ H12)|].
  split; [exact (Hbuild _ _ H1)|].
  split; [exact (Hbuild _ _ H2)|].
  split; [|reflexivity]. cbn [root].
  assert (Hf : forall k, k <= 2 ^ k) by (intros k; apply Nat.lt_le_incl, Nat.pow_gt_lin_r; lia).
  rewrite (root_of_fuel (S e) _ _ H12) by (rewrite H12; apply Hf).
  rewrite (root_of_fuel e _ _ H1) by (rewrite H1; apply Hf).
  rewrite (root_of_fuel e _ _ H2) by (rewrite H2; apply Hf).
  now apply root_of_halves.
Qed.

Lemma sample_leaves_last : List.last sample_leaves "" <> "".
Proof. intros H. vm_compute in H. discriminate H. Qed.

Lemma sample_leaves_nonempty : sample_leaves <> [].
Proof. discriminate. Qed.

Lemma buildMerkleTree_shape_witness :
  exists (t : MerkleTree) (m e : nat),
    buildMerkleTree sample_leaves = Some t /\
    length sample_leaves + m = 2 ^ e /\
    length (tree t) = e + 1 /\
    nth_error (tree t) e = Some [root t] /\
    length (getMerkleProof (tree t) 2) = e.
Proof.
  destruct (buildMerkleTree_shape sample_leaves sample_leaves_nonempty sample_leaves_last)
    as (t & m & e & Hb & _ & Hlen & _ & Hlev & _ & _ & Hroot & Hproof).
  exists t, m, e. split; [exact Hb|]. split; [exact Hlen|]. split; [exact Hlev|].
  split; [exact Hroot|]. apply (Hproof 2).
  assert (length sample_leaves = 3) by reflexivity. lia.
Defined.

Lemma padding_positions_witness :
  exists t : MerkleTree,
    buildMerkleTree sample_leaves = Some t /\
    length sample_leaves = 3 /\
    verifyMerkleProof (sha256 "c") (getMerkleProof (tree t) 3) (root t) = true.
Proof.
  destruct (padding_positions_have_proofs sample_leaves sample_leaves_nonempty
              sample_leaves_last) as (t & Hb & Hpad).
  exists t. split; [exact Hb|]. split; [reflexivity|].
  vm_compute in Hb. injection Hb as <-.
  exact (Hpad 3 _ eq_refl ltac:(vm_compute; lia)).
Defined.

Definition left_half : list string := map sha256 ["a"; "b"].
Definition right_half : list string := map sha256 ["c"; "d"].

Lemma root_of_two_halves_witness :
  exists t t1 t2,
    buildMerkleTree (left_half ++ right_half) = Some t /\
    buildMerkleTree left_half = Some t1 /\
    buildMerkleTree right_half = Some t2 /\
    root t = sha256 (root t1 +:+ root t2).
Proof.
  destruct (root_of_two_halves 1 left_half right_half eq_refl eq_refl)
    as (t & t1 & t2 & H & H1 & H2 & Hr & _).
  exists t, t1, t2. repeat split; assumption.
Defined.


(* ====================================================================== *)
(** ** Closing a session ([InMemoryStorage.close]) *)
(* ====================================================================== *)

(** [{ ...session, closed_at }]. *)
Definition with_closed_at (closed_at : string) (s : SessionEnvelope) : SessionEnvelope :=
  mkSessionEnvelope (session_id s) (org_id s) (agent_id s) (agent_version s) (environment s)
    (initiated_by s) (initiated_at s) (Some closed_at) (compliance_contexts s)
    (retention_days s) (metadata s).

(** [privateKey && publicKey]: both given, and neither the empty string. *)
Definition keys_given (privateKey publicKey : option string) : option (string * string) :=
  match privateKey, publicKey with
  | Some k, Some p => if truthy k && truthy p then Some (k, p) else None
  | _, _ => None
  end.

(** The log that [close] builds on a backend that was never initialized:
    [this.session] is undefined there, and the session of the log has
    [closed_at] only. *)
Record SessionlessLog : Type := mkSessionlessLog
  { sl_closed_at : string;
    sl_entries : list ChainedEntry;
    sl_merkle_root : string;
    sl_org_signature : option OrgSignature;
    sl_integrity : Integrity }.

(** The summary that is signed for such a log: [session_id] is undefined
    and left out. *)
Definition sessionless_dataToSign (root : string) (entries : list ChainedEntry)
    (closed_at : string) : string :=
  stringify (JObj [("merkle_root", JStr root);
                   ("entry_count", JNum (Z.of_nat (length entries)));
                   ("closed_at", JStr closed_at)]).

Module InMemoryStorageClose.
Section WithRuntime.
Context `{RT : NodeRuntime} `{NC : NodeCrypto}.
Local Open Scope m_scope.

(** A call that only reads the clock. *)
Definition on_clock {A} (m : M World A) : M (InMemoryStorage.t * World) A :=
  fun st => let r := m (snd st) in (fst r, (fst st, snd r)).

(** [close(privateKey?, publicKey?)]. The log holds the array
    [this.entries] itself; the backend is left as it is. *)
Definition close (privateKey publicKey : option string)
  : M (InMemoryStorage.t * World) (AuditLog + SessionlessLog) :=
  fun st =>
    let this := fst st in
    let hashes := map entry_hash (InMemoryStorage.entries this) in
    match buildMerkleTree hashes with
    | None => (Throws NonTermination, st)
    | Some merkle =>
        (closed_at <- on_clock timestamp ;;
         let verification := verifyChain (InMemoryStorage.entries this) in
         match InMemoryStorage.session this with
         | Some s =>
             let log := mkAuditLog "1.0.0" (with_closed_at closed_at s) (InMemoryStorage.entries this)
                          (Some (root merkle)) None None in
             org_signature <-
               match keys_given privateKey publicKey with
               | Some (k, p) => (sig <- on_clock (signAuditLog log k p) ;; ret (Some sig))
               | None => ret None
               end ;;
             let log := mkAuditLog (version log) (session log) (entries log)
                          (merkle_root log) org_signature None in
             signature_valid <-
               match org_signature with
               | Some _ => (b <- lift_result (verifyAuditLogSignature log) ;; ret (Some b))
               | None => ret None
               end ;;
             verified_at <- on_clock timestamp ;;
             ret (inl (mkAuditLog (version log) (session log) (entries log)
                         (merkle_root log) org_signature
                         (Some (mkIntegrity (valid verification) true signature_valid
                                  verified_at))))
         | None =>
             let data := sessionless_dataToSign (root merkle) (InMemoryStorage.entries this) closed_at in
             org_signature <-
               match keys_given privateKey publicKey with
               | Some (k, p) =>
                   (sig <- lift_result (sign data k) ;;
                    now <- on_clock timestamp ;;
                    ret (Some (mkOrgSignature p sig now)))
               | None => ret None
               end ;;
             signature_valid <-
               match org_signature with
               | Some s => (b <- lift_result (verify data (signature s) (public_key s)) ;;
                            ret (Some b))
               | None => ret None
               end ;;
             verified_at <- on_clock timestamp ;;
             ret (inr (mkSessionlessLog closed_at (InMemoryStorage.entries this) (root merkle) org_signature
                         (mkIntegrity (valid verification) true signature_valid verified_at)))
         end) st
    end.

(** [getSession()]: undefined before [initialize]. *)
Definition getSession (this : InMemoryStorage.t) : option SessionEnvelope :=
  InMemoryStorage.session this.

End WithRuntime.
End InMemoryStorageClose.

(** *** What [close] returns *)

Lemma sha256_truthy (data : string) : truthy (sha256 data) = true.
Proof.
  unfold truthy. apply negb_true_iff, String.eqb_neq. intros H.
  apply (f_equal String.length) in H. rewrite sha256_length in H. discriminate.
Qed.

(** The entry hashes of a chain made by [append] are digests. *)
Lemma chain_of_hashes (es : list value) : leaf_hashes (map entry_hash (chain_of es)).
Proof.
  apply List.Forall_forall. intros h Hh. apply in_map_iff in Hh as (c & <- & Hc).
  apply In_nth_error in Hc as (i & Hi).
  destruct (chain_of_invariant es i c Hi) as (_ & _ & ->). apply sha256_truthy.
Qed.

(** The Merkle tree over the entry hashes of such a chain is built. *)
Lemma chain_of_tree (es : list value) :
  exists t, buildMerkleTree (map entry_hash (chain_of es)) = Some t.
Proof.
  destruct (map entry_hash (chain_of es)) as [|h hs] eqn:E; [now eexists|].
  rewrite <- E.
  destruct (buildMerkleTree_returns (map entry_hash (chain_of es))) as (m & k & _ & Hb).
  - rewrite E. discriminate.
  - apply chain_of_hashes.
  - eexists. exact Hb.
Qed.

Section CloseFacts.
Context `{RT : NodeRuntime} `{NC : NodeCrypto}.

(** The clock after one and after two readings. *)
Definition first_reading (w : World) : string := fst (Date_toISOString w).
Definition after_reading (w : World) : World := snd (Date_toISOString w).

Lemma appended_session (sess : SessionEnvelope) (st0 : InMemoryStorage.t) (es : list value) :
  InMemoryStorage.session (appended es (snd (InMemoryStorage.initialize sess st0))) = Some sess.
Proof.
  induction es as [|e es IH] using rev_ind; [reflexivity|].
  rewrite appended_snoc. exact IH.
Qed.

Lemma keys_given_both (privateKey publicKey : string) :
  privateKey <> "" -> publicKey <> "" ->
  keys_given (Some privateKey) (Some publicKey) = Some (privateKey, publicKey).
Proof.
  intros Hk Hp. unfold keys_given, truthy.
  apply String.eqb_neq in Hk, Hp. now rewrite Hk, Hp.
Qed.

(** [close] on any backend that holds a session and whose tree is built,
    without a usable key pair. *)
Lemma close_unsigned (st : InMemoryStorage.t) (sess : SessionEnvelope) (t : MerkleTree)
    (privateKey publicKey : option string) (w : World) :
  keys_given privateKey publicKey = None ->
  InMemoryStorage.session st = Some sess ->
  buildMerkleTree (map entry_hash (InMemoryStorage.entries st)) = Some t ->
  InMemoryStorageClose.close privateKey publicKey (st, w)
  = (Returns (inl (mkAuditLog "1.0.0" (with_closed_at (first_reading w) sess)
                     (InMemoryStorage.entries st) (Some (root t)) None
                     (Some (mkIntegrity (valid (verifyChain (InMemoryStorage.entries st)))
                              true None (first_reading (after_reading w)))))),
     (st, after_reading (after_reading w))).
Proof.
  intros Hkeys Hsession Ht.
  unfold InMemoryStorageClose.close. cbn [fst snd]. rewrite Ht.
  unfold bind, InMemoryStorageClose.on_clock, timestamp, ret, lift_result. cbn [fst snd].
  rewrite Hsession, Hkeys. reflexivity.
Qed.

(** The same with a key pair, when signing succeeds and the signature
    verifies. *)
Lemma close_signed (st : InMemoryStorage.t) (sess : SessionEnvelope) (t : MerkleTree)
    (privateKey publicKey sig : string) (w : World) :
  let log0 := mkAuditLog "1.0.0" (with_closed_at (first_reading w) sess)
                (InMemoryStorage.entries st) (Some (root t)) None None in
  privateKey <> "" -> publicKey <> "" ->
  InMemoryStorage.session st = Some sess ->
  buildMerkleTree (map entry_hash (InMemoryStorage.entries st)) = Some t ->
  sign (dataToSign log0) privateKey = Returns sig ->
  verify (dataToSign log0) sig publicKey = Returns true ->
  InMemoryStorageClose.close (Some privateKey) (Some publicKey) (st, w)
  = (Returns (inl (mkAuditLog "1.0.0" (with_closed_at (first_reading w) sess)
                     (InMemoryStorage.entries st) (Some (root t))
                     (Some (mkOrgSignature publicKey sig (first_reading (after_reading w))))
                     (Some (mkIntegrity (valid (verifyChain (InMemoryStorage.entries st)))
                              true (Some true)
                              (first_reading (after_reading (after_reading w))))))),
     (st, after_reading (after_reading (after_reading w)))).
Proof.
  intros log0 Hprivate Hpublic Hsession Ht Hsign Hverify.
  unfold first_reading, after_reading in *.
  unfold InMemoryStorageClose.close. cbn [fst snd]. rewrite Ht.
  unfold bind, InMemoryStorageClose.on_clock, timestamp, ret, lift_result. cbn [fst snd].
  rewrite Hsession, (keys_given_both _ _ Hprivate Hpublic).
  unfold signAuditLog, bind, lift_result, timestamp, ret. fold log0. rewrite Hsign.
  cbn [fst snd version session entries merkle_root].
  unfold verifyAuditLogSignature. cbn [org_signature signature public_key].
  change (dataToSign _) with (dataToSign log0). rewrite Hverify. reflexivity.
Qed.

(** X9. Without a usable key pair (a key missing or the empty string),
    [close] on an in-memory backend that was initialized and then
    appended to returns the log of the session: version 1.0.0, the
    session with [closed_at] read from the clock, the entries of the
    chain, the root of the Merkle tree over their hashes, no signature,
    and an integrity record with [chain_valid] and [merkle_valid] true
    and no [signature_valid]. The backend is left as it was: [close]
    neither empties it nor marks its session as closed. *)
Theorem close_returns_the_unsigned_log (sess : SessionEnvelope) (st0 : InMemoryStorage.t)
    (es : list value) (privateKey publicKey : option string) (w : World)
    (Hkeys : keys_given privateKey publicKey = None) :
  let st := appended es (snd (InMemoryStorage.initialize sess st0)) in
  exists t,
    buildMerkleTree (map entry_hash (chain_of es)) = Some t /\
    InMemoryStorageClose.close privateKey publicKey (st, w)
    = (Returns (inl (mkAuditLog "1.0.0" (with_closed_at (first_reading w) sess)
                       (chain_of es) (Some (root t)) None
                       (Some (mkIntegrity true true None
                                (first_reading (after_reading w)))))),
       (st, after_reading (after_reading w))) /\
    InMemoryStorage.session st = Some sess.
Proof.
  intros st.
  assert (Hentries : InMemoryStorage.entries st = chain_of es)
    by (now apply InMemory_appended_entries).
  pose proof (appended_session sess st0 es) as Hsession. fold st in Hsession.
  destruct (chain_of_tree es) as (t & Ht). exists t. split; [exact Ht|].
  split; [|exact Hsession].
  rewrite <- Hentries in Ht.
  rewrite (close_unsigned st sess t _ _ w Hkeys Hsession Ht), Hentries.
  rewrite (verifyChain_of_links (chain_of es)) by apply chain_invariant_links, chain_of_invariant.
  reflexivity.
Qed.

(** X10. With a matching key pair, neither key the empty string, [close]
    on an in-memory backend that was initialized and then appended to
    returns a signed log: the signature carries the public key, the
    integrity record has [signature_valid] true besides [chain_valid] and
    [merkle_valid], and [verifyAuditLogSignature] accepts the returned
    log. The clock is read three times, and the backend is left as it
    was. *)
Theorem close_returns_a_signed_log (sess : SessionEnvelope) (st0 : InMemoryStorage.t)
    (es : list value) (privateKey publicKey : string) (w : World)
    (Hprivate : privateKey <> "") (Hpublic : publicKey <> "")
    (Hkeys : matching_key_pair privateKey publicKey) :
  let st := appended es (snd (InMemoryStorage.initialize sess st0)) in
  exists log s t,
    InMemoryStorageClose.close (Some privateKey) (Some publicKey) (st, w)
    = (Returns (inl log), (st, after_reading (after_reading (after_reading w)))) /\
    buildMerkleTree (map entry_hash (chain_of es)) = Some t /\
    session log = with_closed_at (first_reading w) sess /\
    entries log = chain_of es /\
    merkle_root log = Some (root t) /\
    org_signature log = Some s /\
    public_key s = publicKey /\
    signed_at s = first_reading (after_reading w) /\
    integrity log
    = Some (mkIntegrity true true (Some true)
              (first_reading (after_reading (after_reading w)))) /\
    verifyAuditLogSignature log = Returns true.
Proof.
  intros st.
  assert (Hentries : InMemoryStorage.entries st = chain_of es)
    by (now apply InMemory_appended_entries).
  pose proof (appended_session sess st0 es) as Hsession. fold st in Hsession.
  destruct (chain_of_tree es) as (t & Ht).
  set (log0 := mkAuditLog "1.0.0" (with_closed_at (first_reading w) sess)
                 (chain_of es) (Some (root t)) None None).
  destruct (Hkeys (dataToSign log0)) as (sig & Hsign & Hverify).
  eexists. exists (mkOrgSignature publicKey sig (first_reading (after_reading w))), t.
  split.
  - rewrite <- Hentries in Ht.
    rewrite (close_signed st sess t privateKey publicKey sig w Hprivate Hpublic Hsession Ht);
      rewrite Hentries; [|exact Hsign|exact Hverify].
    rewrite (verifyChain_of_links (chain_of es))
      by apply chain_invariant_links, chain_of_invariant.
    reflexivity.
  - split; [exact Ht|]. repeat (split; [reflexivity|]).
    unfold verifyAuditLogSignature. cbn [org_signature signature public_key].
    change (dataToSign _) with (dataToSign log0). exact Hverify.
Qed.

(** X11. When the private key does not parse, [close] with both keys
    given fails with the error that [createPrivateKey] raises: the Merkle
    tree has been built and the clock read once, no log is returned, and
    the backend is left as it was. *)
Theorem close_fails_on_an_unusable_key (sess : SessionEnvelope) (st0 : InMemoryStorage.t)
    (es : list value) (privateKey publicKey : string) (w : World) (e : Error)
    (Hprivate : privateKey <> "") (Hpublic : publicKey <> "")
    (Hkey : createPrivateKey (Buffer_toString_utf8 (Buffer_from_base64 privateKey))
            = Throws e) :
  let st := appended es (snd (InMemoryStorage.initialize sess st0)) in
  InMemoryStorageClose.close (Some privateKey) (Some publicKey) (st, w)
  = (Throws e, (st, after_reading w)).
Proof.
  intros st.
  assert (Hentries : InMemoryStorage.entries st = chain_of es)
    by (now apply InMemory_appended_entries).
  pose proof (appended_session sess st0 es) as Hsession. fold st in Hsession.
  destruct (chain_of_tree es) as (t & Ht).
  unfold InMemoryStorageClose.close. cbn [fst snd]. rewrite Hentries, Ht.
  unfold bind, InMemoryStorageClose.on_clock, timestamp, ret, lift_result. cbn [fst snd].
  rewrite Hsession, (keys_given_both _ _ Hprivate Hpublic).
  unfold signAuditLog, bind, lift_result, sign, Result_bind. rewrite Hkey. reflexivity.
Qed.

Lemma merkle_proofs_verify (hashes : list string) :
  hashes <> [] -> leaf_hashes hashes ->
  exists t, buildMerkleTree hashes = Some t /\
    forall k, k < length hashes ->
      verifyMerkleProof (nth k hashes "") (getMerkleProof (tree t) (Z.of_nat k)) (root t)
      = true.
Proof.
  intros Hne Hleaves.
  destruct (buildMerkleTree_returns hashes Hne Hleaves) as (m & e & Hlen & Hbuild).
  set (p := hashes ++ repeat (List.last hashes "") m) in *.
  eexists. split; [exact Hbuild|]. cbn [tree root]. intros k Hk.
  unfold verifyMerkleProof. rewrite getMerkleProof_levels.
  replace (nth k hashes "") with (nth k p "") by (unfold p; now rewrite app_nth1).
  rewrite (walk_reaches_root e); [apply String.eqb_refl | exact Hlen | |].
  - rewrite <- Hlen. unfold p. rewrite length_app. lia.
  - rewrite Hlen. apply Nat.lt_le_incl, Nat.pow_gt_lin_r. lia.
Qed.

(** X12. Every entry of the log that [close] returns for an in-memory
    backend that was initialized and then appended to can be proved
    against the log's [merkle_root]: rebuilding the tree from the
    entry hashes of the log gives that root, and the proof of entry [k]
    verifies its [entry_hash]. *)
Theorem closed_log_entries_have_proofs (sess : SessionEnvelope) (st0 : InMemoryStorage.t)
    (es : list value) (w : World) :
  let st := appended es (snd (InMemoryStorage.initialize sess st0)) in
  exists log t,
    fst (InMemoryStorageClose.close None None (st, w)) = Returns (inl log) /\
    buildMerkleTree (map entry_hash (entries log)) = Some t /\
    merkle_root log = Some (root t) /\
    length (entries log) = length es /\
    forall k c, nth_error (entries log) k = Some c ->
      verifyMerkleProof (entry_hash c) (getMerkleProof (tree t) (Z.of_nat k)) (root t) = true.
Proof.
  intros st.
  assert (Hentries : InMemoryStorage.entries st = chain_of es)
    by (now apply InMemory_appended_entries).
  pose proof (appended_session sess st0 es) as Hsession. fold st in Hsession.
  assert (Hproofs : exists t, buildMerkleTree (map entry_hash (chain_of es)) = Some t /\
            forall k c, nth_error (chain_of es) k = Some c ->
              verifyMerkleProof (entry_hash c) (getMerkleProof (tree t) (Z.of_nat k)) (root t)
              = true).
  { destruct (chain_of es) as [|c0 cs] eqn:E.
    - eexists. split; [reflexivity|]. intros [|k] c Hc; discriminate.
    - rewrite <- E.
      destruct (merkle_proofs_verify (map entry_hash (chain_of es))) as (t & Ht & Hv).
      + rewrite E. discriminate.
      + apply chain_of_hashes.
      + exists t. split; [exact Ht|]. intros k c Hc.
        assert (Hk : k < length (map entry_hash (chain_of es))).
        { rewrite length_map. apply nth_error_Some. congruence. }
        specialize (Hv k Hk).
        assert (Hn : nth_error (map entry_hash (chain_of es)) k = Some (entry_hash c))
          by (rewrite nth_error_map, Hc; reflexivity).
        now rewrite (nth_error_nth _ _ "" Hn) in Hv. }
  destruct Hproofs as (t & Ht & Hv).
  eexists. exists t. split.
  - unfold InMemoryStorageClose.close. cbn [fst snd]. rewrite Hentries, Ht.
    unfold bind, InMemoryStorageClose.on_clock, timestamp, ret, lift_result. cbn [fst snd].
    rewrite Hsession. cbn [keys_given fst snd]. reflexivity.
  - cbn [entries merkle_root]. split; [exact Ht|]. split; [reflexivity|].
    split; [apply length_chain_of | exact Hv].
Qed.

End CloseFacts.

(** A signature scheme like the toy one, but whose keys have a format:
    they start with [k]. *)
#[local] Instance FormatCrypto : NodeCrypto := {|
  PrivateKeyObject := string;
  PublicKeyObject := string;
  Buffer_from_base64 := fun s => s;
  Buffer_toString_base64 := fun s => s;
  Buffer_toString_utf8 := fun s => s;
  createPrivateKey := fun pem =>
    if String.prefix "k" pem then Returns pem else Throws (NodeError "ERR_OSSL_UNSUPPORTED");
  createPublicKey := fun pem =>
    if String.prefix "k" pem then Returns pem else Throws (NodeError "ERR_OSSL_UNSUPPORTED");
  cryptoSign := fun data key => Returns (key +:+ ":" +:+ data);
  cryptoVerify := fun data key sig => Returns (String.eqb (key +:+ ":" +:+ data) sig)
|}.

Lemma close_unsigned_witness :
  exists log,
    fst (@InMemoryStorageClose.close ToyRuntime ToyCrypto (Some "") (Some "k1")
           (sample_storage, toy_world))
    = Returns (inl log) /\
    org_signature log = None /\
    option_map signature_valid (integrity log) = Some None.
Proof.
  destruct (@close_returns_the_unsigned_log ToyRuntime ToyCrypto sample_session
              InMemoryStorage.new sample_payloads (Some "") (Some "k1") toy_world eq_refl)
    as (t & _ & Hclose & _).
  unfold sample_storage. rewrite Hclose. eexists. split; [reflexivity|].
  split; reflexivity.
Defined.

Lemma close_signed_witness :
  exists log,
    fst (@InMemoryStorageClose.close ToyRuntime ToyCrypto (Some "k1") (Some "k1")
           (sample_storage, toy_world))
    = Returns (inl log) /\
    @verifyAuditLogSignature ToyCrypto log = Returns true.
Proof.
  destruct (@close_returns_a_signed_log ToyRuntime ToyCrypto sample_session
              InMemoryStorage.new sample_payloads "k1" "k1" toy_world
              ltac:(discriminate) ltac:(discriminate) toy_keys_match)
    as (log & s & t & Hclose & _ & _ & _ & _ & _ & _ & _ & _ & Hverify).
  exists log. unfold sample_storage. rewrite Hclose. split; [reflexivity | exact Hverify].
Defined.

Lemma close_unusable_key_witness :
  fst (@InMemoryStorageClose.close ToyRuntime FormatCrypto (Some "not a key") (Some "k1")
         (sample_storage, toy_world))
  = Throws (NodeError "ERR_OSSL_UNSUPPORTED").
Proof.
  unfold sample_storage.
  rewrite (@close_fails_on_an_unusable_key ToyRuntime FormatCrypto sample_session
             InMemoryStorage.new sample_payloads "not a key" "k1" toy_world
             (NodeError "ERR_OSSL_UNSUPPORTED") ltac:(discriminate) ltac:(discriminate)
             eq_refl).
  reflexivity.
Defined.


(* ====================================================================== *)
(** ** The signed summary determines its four fields *)
(* ====================================================================== *)

Lemma string_app_assoc (a b c : string) : (a +:+ b) +:+ c = a +:+ (b +:+ c).
Proof.
  induction a as [|h a IH]; [now rewrite !string_app_nil_l|].
  rewrite !string_app_cons. now rewrite IH.
Qed.

(** An escaped code unit never starts with a quotation mark. *)
Lemma escape_char_head (c : ascii) :
  exists h t, escape_char c = String h t /\ h <> dquote.
Proof.
  destruct c as [[] [] [] [] [] [] [] []];
    (eexists; eexists; split; [reflexivity | discriminate]).
Qed.

(** A quoted string ends at its closing quotation mark: what follows it
    can be read back. *)
Lemma escape_prefix_free (a : string) : forall b x y,
  escape a +:+ String dquote x = escape b +:+ String dquote y -> a = b /\ x = y.
Proof.
  induction a as [|c a IH]; intros [|c' b] x y H.
  - cbn [escape] in H. rewrite !string_app_nil_l in H. now injection H as ->.
  - exfalso. cbn [escape] in H. rewrite string_app_nil_l in H.
    destruct (escape_char_head c') as (h & t & E & Hh).
    rewrite E, !string_app_assoc, string_app_cons in H. injection H as H _. now apply Hh.
  - exfalso. cbn [escape] in H. rewrite string_app_nil_l in H.
    destruct (escape_char_head c) as (h & t & E & Hh).
    rewrite E, !string_app_assoc, string_app_cons in H. injection H as H _. now apply Hh.
  - cbn [escape] in H. rewrite !string_app_assoc in H.
    apply (f_equal unescape_first) in H. rewrite !unescape_first_escape_char in H.
    injection H as -> H. destruct (IH _ _ _ H) as (-> & ->). now split.
Qed.

Lemma QuoteJSONString_prefix_free (a b x y : string) :
  QuoteJSONString a +:+ x = QuoteJSONString b +:+ y -> a = b /\ x = y.
Proof.
  unfold QuoteJSONString. rewrite !string_app_cons, !string_app_assoc.
  intros H. injection H as H.
  rewrite !string_app_cons, !string_app_nil_l in H.
  now apply escape_prefix_free.
Qed.

(** *** Numbers *)

From Stdlib Require DecimalPos DecimalZ.

Definition number_char (c : ascii) : bool :=
  let n := N_of_ascii c in
  ((48 <=? n)%N && (n <=? 57)%N) || (n =? 45)%N.

Definition number_chars (s : string) : Prop :=
  Forall (fun c => number_char c = true) (list_ascii_of_string s).

Lemma string_of_uint_chars (d : Decimal.uint) : number_chars (NilEmpty.string_of_uint d).
Proof. induction d; constructor; (reflexivity || assumption). Qed.

Lemma number_to_string_chars (z : Z) : number_chars (number_to_string z).
Proof.
  unfold number_to_string, NilZero.string_of_int, NilZero.string_of_uint.
  destruct (Z.to_int z) as [d|d].
  - destruct d; try apply string_of_uint_chars. repeat constructor.
  - constructor; [reflexivity|].
    destruct d; try apply string_of_uint_chars. repeat constructor.
Qed.

(** A run of digits ends at the first code unit that is not one. *)
Lemma number_prefix_free (a : string) : forall b cx x cy y,
  number_chars a -> number_chars b -> number_char cx = false -> number_char cy = false ->
  a +:+ String cx x = b +:+ String cy y -> a = b /\ x = y.
Proof.
  induction a as [|c a IH]; intros [|c' b] cx x cy y Ha Hb Hx Hy H.
  - rewrite !string_app_nil_l in H. now injection H as _ ->.
  - exfalso. rewrite string_app_nil_l, string_app_cons in H. injection H as -> _.
    inversion Hb; subst. congruence.
  - exfalso. rewrite string_app_nil_l, string_app_cons in H. injection H as <- _.
    inversion Ha; subst. congruence.
  - rewrite !string_app_cons in H. injection H as -> H.
    inversion Ha; subst. inversion Hb; subst.
    destruct (IH b cx x cy y) as (-> & ->); auto.
Qed.

Lemma number_to_string_inj (z z' : Z) : number_to_string z = number_to_string z' -> z = z'.
Proof.
  unfold number_to_string. intros H.
  assert (Hnn : forall n, Z.to_int n <> Decimal.Pos Decimal.Nil /\
                          Z.to_int n <> Decimal.Neg Decimal.Nil).
  { intros [|p|p]; split; try discriminate; intros E; injection E as E;
      now apply (DecimalPos.Unsigned.to_uint_nonnil p). }
  apply (f_equal NilZero.int_of_string) in H.
  rewrite !NilZero.isi in H by apply Hnn.
  injection H as H. now apply DecimalZ.to_int_inj.
Qed.

(** *** The summary *)

Ltac string_normalize :=
  repeat (rewrite string_app_assoc || rewrite string_app_cons || rewrite string_app_nil_l).

Ltac string_normalize_in H :=
  repeat (rewrite string_app_assoc in H || rewrite string_app_cons in H
          || rewrite string_app_nil_l in H).

Definition merkle_root_part (r : option string) : string :=
  match r with
  | Some r => "," +:+ QuoteJSONString "merkle_root" +:+ ":" +:+ QuoteJSONString r
  | None => ""
  end.

Definition closed_at_part (c : option string) : string :=
  match c with
  | Some c => "," +:+ QuoteJSONString "closed_at" +:+ ":" +:+ QuoteJSONString c
  | None => ""
  end.

(** The text of the summary, member by member. *)
Lemma dataToSign_parts (log : AuditLog) :
  dataToSign log
  = "{" +:+ QuoteJSONString "session_id" +:+ ":"
        +:+ QuoteJSONString (session_id (session log))
        +:+ merkle_root_part (merkle_root log)
        +:+ "," +:+ QuoteJSONString "entry_count" +:+ ":"
        +:+ number_to_string (Z.of_nat (length (entries log)))
        +:+ closed_at_part (closed_at (session log)) +:+ "}".
Proof.
  unfold dataToSign, summary, merkle_root_part, closed_at_part.
  destruct (merkle_root log), (closed_at (session log));
    cbn [stringify optional_property option_map app map String.concat];
    unfold serialize_property; cbn [fst snd stringify];
    generalize (QuoteJSONString "session_id"), (QuoteJSONString "merkle_root"),
               (QuoteJSONString "entry_count"), (QuoteJSONString "closed_at");
    intros q1 q2 q3 q4; string_normalize; reflexivity.
Qed.

Lemma dataToSign_inj (log log' : AuditLog) :
  dataToSign log' = dataToSign log ->
  session_id (session log') = session_id (session log) /\
  merkle_root log' = merkle_root log /\
  length (entries log') = length (entries log) /\
  closed_at (session log') = closed_at (session log).
Proof.
  rewrite !dataToSign_parts. intros H.
  do 3 apply string_app_inv_head in H.
  apply QuoteJSONString_prefix_free in H as (Hsid & H).
  split; [exact Hsid|].
  assert (Hroot : merkle_root log' = merkle_root log /\
                  number_to_string (Z.of_nat (length (entries log')))
                  +:+ closed_at_part (closed_at (session log')) +:+ "}"
                  = number_to_string (Z.of_nat (length (entries log)))
                    +:+ closed_at_part (closed_at (session log)) +:+ "}").
  { destruct (merkle_root log') as [r'|], (merkle_root log) as [r|]; cbn [merkle_root_part] in H.
    - rewrite !string_app_assoc in H. do 3 apply string_app_inv_head in H.
      apply QuoteJSONString_prefix_free in H as (-> & H).
      do 3 apply string_app_inv_head in H. now split.
    - exfalso. rewrite !string_app_assoc, string_app_nil_l in H.
      apply string_app_inv_head in H.
      apply QuoteJSONString_prefix_free in H as (H & _). discriminate H.
    - exfalso. rewrite !string_app_assoc, string_app_nil_l in H.
      apply string_app_inv_head in H.
      apply QuoteJSONString_prefix_free in H as (H & _). discriminate H.
    - rewrite !string_app_nil_l in H. do 3 apply string_app_inv_head in H. now split. }
  destruct Hroot as (Hroot & Hrest). split; [exact Hroot|].
  assert (Htail : forall c, exists cx x,
            closed_at_part c +:+ "}" = String cx x /\ number_char cx = false /\
            (c = None -> cx = "}"%char) /\
            (forall v, c = Some v ->
               cx = ","%char /\ x = QuoteJSONString "closed_at" +:+ ":" +:+ QuoteJSONString v
                                       +:+ "}")).
  { intros [v|]; cbn [closed_at_part].
    - eexists; eexists. string_normalize.
      split; [reflexivity|]. split; [reflexivity|]. split; [discriminate|].
      intros v' E. injection E as <-. split; reflexivity.
    - eexists; eexists. rewrite string_app_nil_l. split; [reflexivity|].
      split; [reflexivity|]. split; [reflexivity | discriminate]. }
  destruct (Htail (closed_at (session log'))) as (cx' & x' & E' & Hx' & Hn' & Hs').
  destruct (Htail (closed_at (session log))) as (cx & x & E & Hx & Hn & Hs).
  rewrite E', E in Hrest.
  pose proof Hrest as Hhead.
  apply number_prefix_free in Hrest as (Hnum & Hxx);
    [|apply number_to_string_chars|apply number_to_string_chars|assumption|assumption].
  rewrite Hnum in Hhead. apply string_app_inv_head in Hhead. injection Hhead as Hc _.
  split; [apply number_to_string_inj in Hnum; lia|].
  destruct (closed_at (session log')) as [v'|], (closed_at (session log)) as [v|].
  - destruct (Hs' v' eq_refl) as (_ & ->). destruct (Hs v eq_refl) as (_ & ->).
    do 2 apply string_app_inv_head in Hxx.
    apply QuoteJSONString_prefix_free in Hxx as (-> & _). reflexivity.
  - destruct (Hs' v' eq_refl) as (-> & _). rewrite (Hn eq_refl) in Hc. discriminate.
  - destruct (Hs v eq_refl) as (-> & _). rewrite (Hn' eq_refl) in Hc. discriminate.
  - reflexivity.
Qed.

Section SummaryFacts.
Context `{NC : NodeCrypto}.

(** X13. The summary that [signAuditLog] signs determines its four
    fields: two logs have the same summary text exactly when they agree on
    [session_id], [merkle_root], the number of entries and [closed_at].
    So under a signature that the scheme accepts for the signed summary
    only, [verifyAuditLogSignature] rejects every log that carries the
    signature and differs from the signed log in one of the four, for
    instance a log with entries removed or [closed_at] changed. *)
Theorem signature_binds_the_summary (log log' : AuditLog) :
  (dataToSign log' = dataToSign log <-> same_summary log log') /\
  (forall s, org_signature log' = Some s ->
             accepted_only_for (dataToSign log) (signature s) (public_key s) ->
             ~ same_summary log log' ->
             verifyAuditLogSignature log' = Returns false).
Proof.
  assert (Hiff : dataToSign log' = dataToSign log <-> same_summary log log').
  { split.
    - intros H. apply dataToSign_inj in H as (Hs & Hr & Hn & Hc).
      split; [split; [exact Hs | split; [exact Hn | exact Hc]] | exact Hr].
    - apply same_summary_dataToSign. }
  split; [exact Hiff|].
  intros s Hs Honly Hdiff. unfold verifyAuditLogSignature. rewrite Hs.
  apply Honly. intros E. apply Hdiff, Hiff, E.
Qed.

End SummaryFacts.

(** A signed log, and the same log with its last entry removed. *)
Definition signed_sample_log : AuditLog :=
  with_signature (mkOrgSignature "k1" ("k1:" +:+ dataToSign sample_log) "2026-01-05T09:30:01.000Z")
    sample_log.

Definition without_entries (log : AuditLog) : AuditLog :=
  mkAuditLog (version log) (session log) [] (merkle_root log) (org_signature log)
    (integrity log).

Lemma signature_binds_witness :
  @verifyAuditLogSignature ToyCrypto signed_sample_log = Returns true /\
  @verifyAuditLogSignature ToyCrypto (without_entries signed_sample_log) = Returns false.
Proof.
  split; [reflexivity|].
  apply (proj2 (@signature_binds_the_summary ToyCrypto sample_log
                  (without_entries signed_sample_log)) _ eq_refl).
  - apply toy_accepted_only.
  - intros ((_ & H & _) & _). discriminate H.
Defined.


(* ====================================================================== *)
(** ** The [verify] command of the command line tool *)
(* ====================================================================== *)

Section CommandLine.
Context `{NC : NodeCrypto}.
Local Open Scope m_scope.

(** [buildMerkleTree(log.entries.map(e => e.entry_hash)).root]. *)
Definition recomputed_root (log : AuditLog) : Result string :=
  match buildMerkleTree (map entry_hash (entries log)) with
  | Some merkle => Returns (root merkle)
  | None => Throws NonTermination
  end.

(** Truthiness of [log.merkle_root]. *)
Definition merkle_root_present (log : AuditLog) : bool :=
  match merkle_root log with
  | Some r => truthy r
  | None => false
  end.

(** The exit code of [verify(logPath, options)] on the log that was read
    from the file; what the command prints is left out. The chain, the
    Merkle root when there is one and the signature when there is one are
    checked and reported in turn, and then once more for the verdict
    [allValid], where [&&] and [||] skip what need not be evaluated. *)
Definition verify_exit_code (log : AuditLog) : Result Z :=
  let chainResult := verifyChain (entries log) in
  _ <-? (if merkle_root_present log
         then (root <-? recomputed_root log ; Returns tt)
         else Returns tt) ;
  _ <-? match org_signature log with
        | Some _ => (sigValid <-? verifyAuditLogSignature log ; Returns tt)
        | None => Returns tt
        end ;
  allValid <-?
    (if valid chainResult then
       merkleValid <-?
         (if negb (merkle_root_present log) then Returns true
          else (root <-? recomputed_root log ;
                Returns (String.eqb (default "" (merkle_root log)) root))) ;
       if merkleValid then
         match org_signature log with
         | None => Returns true
         | Some _ => verifyAuditLogSignature log
         end
       else Returns false
     else Returns false) ;
  Returns (if allValid then 0%Z else 1%Z).

(** What the verdict comes to when every check can be made. *)
Lemma verify_exit_code_passes (log : AuditLog) (merkle : MerkleTree) :
  valid (verifyChain (entries log)) = true ->
  buildMerkleTree (map entry_hash (entries log)) = Some merkle ->
  (merkle_root_present log = true -> merkle_root log = Some (root merkle)) ->
  (forall s, org_signature log = Some s -> verifyAuditLogSignature log = Returns true) ->
  verify_exit_code log = Returns 0%Z.
Proof.
  intros Hchain Hbuild Hroot Hsig. unfold verify_exit_code, recomputed_root.
  rewrite Hchain, Hbuild. cbn [Result_bind].
  destruct (merkle_root_present log) eqn:Hp; cbn [Result_bind negb].
  - rewrite (Hroot eq_refl). cbn [default]. rewrite String.eqb_refl.
    destruct (org_signature log) as [s|] eqn:Hs; [|reflexivity].
    rewrite (Hsig s eq_refl). reflexivity.
  - destruct (org_signature log) as [s|] eqn:Hs; [|reflexivity].
    rewrite (Hsig s eq_refl). reflexivity.
Qed.

Context `{RT : NodeRuntime}.

(** X14. A log that [close] returns for an in-memory backend that was
    initialized and then appended to passes the [verify] command (exit
    code 0), both unsigned and signed with a matching key pair. *)
Theorem closed_logs_pass_verify (sess : SessionEnvelope) (st0 : InMemoryStorage.t)
    (es : list value) (w : World) :
  let st := appended es (snd (InMemoryStorage.initialize sess st0)) in
  (forall privateKey publicKey, keys_given privateKey publicKey = None ->
     exists log, fst (InMemoryStorageClose.close privateKey publicKey (st, w))
                 = Returns (inl log) /\
                 verify_exit_code log = Returns 0%Z) /\
  (forall privateKey publicKey,
     privateKey <> "" -> publicKey <> "" -> matching_key_pair privateKey publicKey ->
     exists log, fst (InMemoryStorageClose.close (Some privateKey) (Some publicKey) (st, w))
                 = Returns (inl log) /\
                 verify_exit_code log = Returns 0%Z).
Proof.
  intros st.
  assert (Hentries : InMemoryStorage.entries st = chain_of es)
    by (now apply InMemory_appended_entries).
  pose proof (appended_session sess st0 es) as Hsession. fold st in Hsession.
  destruct (chain_of_tree es) as (t & Ht). rewrite <- Hentries in Ht.
  assert (Hvalid : valid (verifyChain (InMemoryStorage.entries st)) = true).
  { rewrite Hentries. apply verifyChain_valid_iff, chain_invariant_links, chain_of_invariant. }
  split.
  - intros privateKey publicKey Hkeys.
    rewrite (close_unsigned st sess t _ _ w Hkeys Hsession Ht). eexists.
    split; [reflexivity|].
    apply (verify_exit_code_passes _ t); cbn [entries merkle_root org_signature];
      [exact Hvalid | exact Ht | reflexivity | discriminate].
  - intros privateKey publicKey Hprivate Hpublic Hkeys.
    set (log0 := mkAuditLog "1.0.0" (with_closed_at (first_reading w) sess)
                   (InMemoryStorage.entries st) (Some (root t)) None None).
    destruct (Hkeys (dataToSign log0)) as (sig & Hsign & Hverify).
    rewrite (close_signed st sess t privateKey publicKey sig w Hprivate Hpublic Hsession Ht
               Hsign Hverify).
    eexists. split; [reflexivity|].
    apply (verify_exit_code_passes _ t); cbn [entries merkle_root org_signature];
      [exact Hvalid | exact Ht | reflexivity |].
    intros s Hs. injection Hs as <-.
    unfold verifyAuditLogSignature. cbn [org_signature signature public_key].
    change (dataToSign _) with (dataToSign log0). exact Hverify.
Qed.

End CommandLine.

(** The log cut down to its first [k] entries, with another Merkle root. *)
Definition cut_to (k : nat) (r : option string) (log : AuditLog) : AuditLog :=
  mkAuditLog (version log) (session log) (firstn k (entries log)) r (org_signature log)
    (integrity log).

Section Truncation.
Context `{NC : NodeCrypto}.

(** X15. An unsigned log whose chain verifies still passes the [verify]
    command (exit code 0) after its last entries are cut off, when the
    Merkle root is removed or replaced by the root of the remaining
    entries: without a signature nothing ties a log to its length. *)
Theorem unsigned_log_can_be_cut (log : AuditLog) (k : nat)
    (Hunsigned : org_signature log = None)
    (Hchain : valid (verifyChain (entries log)) = true) :
  verify_exit_code (cut_to k None log) = Returns 0%Z /\
  (forall t, buildMerkleTree (map entry_hash (firstn k (entries log))) = Some t ->
             verify_exit_code (cut_to k (Some (root t)) log) = Returns 0%Z).
Proof.
  assert (Hcut : valid (verifyChain (firstn k (entries log))) = true).
  { apply verifyChain_valid_iff, chain_invariant_links, chain_invariant_firstn,
      links_chain_invariant, verifyChain_valid_iff, Hchain. }
  split.
  - unfold verify_exit_code, merkle_root_present, cut_to.
    cbn [entries merkle_root org_signature]. rewrite Hcut, Hunsigned. reflexivity.
  - intros t Ht. apply (verify_exit_code_passes _ t);
      cbn [cut_to entries merkle_root org_signature];
      [exact Hcut | exact Ht | reflexivity | rewrite Hunsigned; discriminate].
Qed.

(** X16. Under a signature that the scheme accepts for the signed summary
    only, the [verify] command fails (exit code 1) on every log that
    carries the signature and differs from the signed log in
    [session_id], [merkle_root], the number of entries or [closed_at],
    whatever its chain and its Merkle root: a signed log cannot be cut. *)
Theorem signed_log_cannot_be_cut (log log' : AuditLog) (s : OrgSignature) (t : MerkleTree)
    (Hsigned : org_signature log' = Some s)
    (Honly : accepted_only_for (dataToSign log) (signature s) (public_key s))
    (Hdiff : ~ same_summary log log')
    (Htree : buildMerkleTree (map entry_hash (entries log')) = Some t) :
  verify_exit_code log' = Returns 1%Z.
Proof.
  assert (Hsig : verifyAuditLogSignature log' = Returns false).
  { unfold verifyAuditLogSignature. rewrite Hsigned. apply Honly. intros E.
    apply Hdiff. apply dataToSign_inj in E as (Hs & Hr & Hn & Hc).
    split; [split; [exact Hs | split; [exact Hn | exact Hc]] | exact Hr]. }
  unfold verify_exit_code, recomputed_root. rewrite Htree, Hsigned, Hsig.
  cbn [Result_bind].
  destruct (merkle_root_present log'), (valid (verifyChain (entries log')));
    cbn [Result_bind negb]; try reflexivity.
  destruct (String.eqb _ _); reflexivity.
Qed.

End Truncation.

Lemma closed_logs_pass_verify_witness :
  exists log,
    fst (@InMemoryStorageClose.close ToyRuntime ToyCrypto (Some "k1") (Some "k1")
           (sample_storage, toy_world))
    = Returns (inl log) /\
    @verify_exit_code ToyCrypto log = Returns 0%Z.
Proof.
  exact (proj2 (@closed_logs_pass_verify ToyCrypto ToyRuntime sample_session
                  InMemoryStorage.new sample_payloads toy_world)
               "k1" "k1" ltac:(discriminate) ltac:(discriminate) toy_keys_match).
Defined.

(** The log of the sample chain, unsigned. *)
Definition sample_chain_log : AuditLog :=
  mkAuditLog "1.0.0" sample_session sample_chain None None None.

Lemma unsigned_log_cut_witness :
  @verify_exit_code ToyCrypto (cut_to 1 None sample_chain_log) = Returns 0%Z.
Proof.
  exact (proj1 (@unsigned_log_can_be_cut ToyCrypto sample_chain_log 1 eq_refl
                  sample_chain_valid)).
Defined.

Lemma signed_log_cut_witness :
  @verify_exit_code ToyCrypto (without_entries signed_sample_log) = Returns 1%Z.
Proof.
  apply (@signed_log_cannot_be_cut ToyCrypto sample_log (without_entries signed_sample_log)
           _ (mkMerkleTree "" []) eq_refl).
  - apply toy_accepted_only.
  - intros ((_ & H & _) & _). discriminate H.
  - reflexivity.
Defined.


(* ====================================================================== *)
(** ** Periodic snapshots ([Ledger.append]) *)
(* ====================================================================== *)

Section SnapshotFacts.
Context `{RT : NodeRuntime} {S : Type} `{SB : !StorageBackend S}.

(** The ledger after [this.entryCount++]. *)
Definition counted (l : @Ledger.t S) : @Ledger.t S :=
  Ledger.mkLedger (Ledger.storage l) (Ledger.config l) (Ledger.initialized l)
    (Ledger.entryCount l + 1)%Z (Ledger.signingKeys l).

(** The ledger with another storage state. *)
Definition with_storage (s : S) (l : @Ledger.t S) : @Ledger.t S :=
  Ledger.mkLedger s (Ledger.config l) (Ledger.initialized l) (Ledger.entryCount l)
    (Ledger.signingKeys l).

(** The periodic snapshot that [append] takes at count [n]. *)
Definition periodic_snapshot (n : Z) : SnapshotParams :=
  mkSnapshotParams "periodic" (hashContent (stringify (JObj [("count", JNum n)]))) "1.0.0" None.

(** One turn of [append]. *)
Lemma append_step (depth : nat) (entry : value) (l : @Ledger.t S) (w : World) :
  Ledger.append depth entry (l, w)
  = match storage_append entry (Ledger.storage l, w) with
    | (Throws e, (s', w')) => (Throws e, (with_storage s' l, w'))
    | (Returns chained, (s', w')) =>
        let l' := counted (with_storage s' l) in
        if Ledger.snapshot_due l' then
          match depth with
          | O => (Throws NonTermination, (l', w'))
          | Datatypes.S depth' =>
              match Ledger.snapshot_with (Ledger.append depth')
                      (periodic_snapshot (Ledger.entryCount l')) (l', w') with
              | (Returns _, st'') => (Returns chained, st'')
              | (Throws e, st'') => (Throws e, st'')
              end
          end
        else (Returns chained, (l', w'))
    end.
Proof.
  destruct depth; cbn [Ledger.append];
    unfold bind, Ledger.on_storage, Ledger.set_this, Ledger.this, ret, throw; cbn [fst snd];
    destruct (storage_append entry (Ledger.storage l, w)) as [[chained|e] [s' w']];
    cbn [fst snd]; try reflexivity;
    fold (with_storage s' l); fold (counted (with_storage s' l));
    destruct (Ledger.snapshot_due (counted (with_storage s' l))); try reflexivity.
  unfold periodic_snapshot.
  destruct (Ledger.snapshot_with _ _ _) as [[c|e] st'']; reflexivity.
Qed.

(** [snapshot(params)] on a ledger that was started. *)
Lemma snapshot_with_started (app : value -> Ledger.LedgerM ChainedEntry)
    (params : SnapshotParams) (l : @Ledger.t S) (w : World) :
  Ledger.initialized l = true ->
  Ledger.snapshot_with app params (l, w)
  = app (StateSnapshot_entry (fst (randomUUID w))
           (fst (Date_toISOString (snd (randomUUID w)))) params)
        (l, snd (Date_toISOString (snd (randomUUID w)))).
Proof.
  intros H. unfold Ledger.snapshot_with, bind.
  rewrite (ensureInitialized_started l w H).
  unfold Ledger.on_world, generateId, timestamp. cbn [fst snd]. reflexivity.
Qed.

(** The snapshot interval [k] is due at the count [n]:
    [k && n % k === 0]. *)
Definition due_at (k : number) (n : Z) : bool :=
  number_truthy k && remainder_is_zero n k.

(** Every count is a multiple of [k], that is [1 % k === 0]: so it is for
    1 and -1, and for 0.5, 0.25 and every other fraction of one. *)
Definition every_count_due (k : number) : bool := due_at k 1.

Lemma snapshot_due_at (l : @Ledger.t S) :
  Ledger.snapshot_due l
  = match snapshotInterval (Ledger.config l) with
    | Some k => due_at k (Ledger.entryCount l)
    | None => false
    end.
Proof. reflexivity. Qed.

Lemma due_at_fraction (num : Z) (den : positive) (n : Z) :
  due_at (Fraction num den) n = true <-> num <> 0%Z /\ (num | n * Z.pos den)%Z.
Proof.
  unfold due_at, number_truthy, remainder_is_zero.
  destruct (Z.eqb_spec num 0) as [->|Hnum]; cbn [negb andb].
  - split; [discriminate | intros [H _]; now contradiction H].
  - rewrite Z.eqb_eq, (Z.rem_divide _ _ Hnum). tauto.
Qed.

Lemma every_count_due_all (k : number) (n : Z) :
  every_count_due k = true -> due_at k n = true.
Proof.
  unfold every_count_due. destruct k as [num den|negative|].
  - rewrite !due_at_fraction. intros (Hnum & Hone). split; [exact Hnum|].
    rewrite Z.mul_1_l in Hone. now apply Z.divide_mul_r.
  - discriminate.
  - discriminate.
Qed.

Lemma due_at_successive (k : number) (n : Z) :
  due_at k n = true -> due_at k (n + 1) = true -> every_count_due k = true.
Proof.
  unfold every_count_due. destruct k as [num den|negative|].
  - rewrite !due_at_fraction. intros (Hnum & Hn) (_ & Hn'). split; [exact Hnum|].
    replace (1 * Z.pos den)%Z with ((n + 1) * Z.pos den - n * Z.pos den)%Z by lia.
    now apply Z.divide_sub_r.
  - unfold due_at, number_truthy, remainder_is_zero. cbn [andb].
    intros H H'. apply Z.eqb_eq in H, H'. lia.
  - discriminate.
Qed.

Lemma snapshot_due_every_entry (l : @Ledger.t S) (k : number) :
  snapshotInterval (Ledger.config l) = Some k -> every_count_due k = true ->
  Ledger.snapshot_due l = true.
Proof. intros Hk Hall. rewrite snapshot_due_at, Hk. now apply every_count_due_all. Qed.

(** When every count is a multiple of the interval, a snapshot follows
    every entry, the snapshot included: no depth of nesting lets [append]
    return. *)
Lemma append_never_returns (depth : nat) :
  forall (entry : value) (l : @Ledger.t S) (w : World) (k : number),
  snapshotInterval (Ledger.config l) = Some k -> every_count_due k = true ->
  exists e st', Ledger.append depth entry (l, w) = (Throws e, st').
Proof.
  induction depth as [|depth IH]; intros entry l w k Hk Hall; rewrite append_step;
    destruct (storage_append entry (Ledger.storage l, w)) as [[chained|e] [s' w']];
    try (now eexists; eexists).
  - cbv zeta. rewrite (snapshot_due_every_entry _ k) by assumption. now eexists; eexists.
  - cbv zeta. rewrite (snapshot_due_every_entry _ k) by assumption.
    destruct (Ledger.initialized l) eqn:Hi.
    + rewrite snapshot_with_started by exact Hi.
      match goal with |- context [Ledger.append depth ?e ?st] =>
        destruct (IH e (fst st) (snd st) k Hk Hall) as (err & st' & E) end.
      cbn [fst snd] in E. rewrite E. now eexists; eexists.
    + unfold Ledger.snapshot_with, bind.
      rewrite ensureInitialized_fresh by exact Hi. now eexists; eexists.
Qed.

(** Unless every count is a multiple of the interval, no two counts in a
    row are. *)
Lemma snapshot_due_not_twice (l : @Ledger.t S) :
  (forall k, snapshotInterval (Ledger.config l) = Some k -> every_count_due k = false) ->
  Ledger.snapshot_due l = true -> Ledger.snapshot_due (counted l) = false.
Proof.
  rewrite !snapshot_due_at. unfold counted. cbn [Ledger.config Ledger.entryCount].
  destruct (snapshotInterval (Ledger.config l)) as [k|]; [|discriminate].
  intros Hk Hdue. destruct (due_at k (Ledger.entryCount l + 1)) eqn:Hnext; [|reflexivity].
  rewrite <- (Hk k eq_refl). symmetry. now apply (due_at_successive k (Ledger.entryCount l)).
Qed.

(** When no snapshot is due after the entry, the depth is not looked at. *)
Lemma append_no_snapshot (depth depth' : nat) (entry : value) (l : @Ledger.t S) (w : World) :
  Ledger.snapshot_due (counted l) = false ->
  Ledger.append depth entry (l, w) = Ledger.append depth' entry (l, w).
Proof.
  intros Hdue. rewrite !append_step.
  destruct (storage_append entry (Ledger.storage l, w)) as [[chained|e] [s' w']];
    [|reflexivity].
  cbv zeta. change (Ledger.snapshot_due (counted (with_storage s' l)))
    with (Ledger.snapshot_due (counted l)). now rewrite Hdue.
Qed.

(** Unless every count is a multiple of the interval, the nesting stops
    after one level: the depth allowed does not matter. *)
Lemma append_depth_enough (depth : nat) (entry : value) (l : @Ledger.t S) (w : World) :
  (forall k, snapshotInterval (Ledger.config l) = Some k -> every_count_due k = false) ->
  Ledger.append (Datatypes.S depth) entry (l, w) = Ledger.append 1 entry (l, w).
Proof.
  intros Hk. rewrite !append_step.
  destruct (storage_append entry (Ledger.storage l, w)) as [[chained|e] [s' w']];
    [|reflexivity].
  cbv zeta. destruct (Ledger.snapshot_due (counted (with_storage s' l))) eqn:Hdue;
    [|reflexivity].
  destruct (Ledger.initialized l) eqn:Hi.
  - rewrite !snapshot_with_started by exact Hi.
    rewrite (append_no_snapshot depth 0); [reflexivity|].
    now apply snapshot_due_not_twice.
  - unfold Ledger.snapshot_with, bind.
    rewrite !ensureInitialized_fresh by exact Hi. reflexivity.
Qed.

(** A logging operation: the guard, an identifier, a time stamp, and
    [append] of the entry made of them. *)
Definition logging (entry_of : string -> string -> value) : Ledger.LedgerM ChainedEntry :=
  bind Ledger.ensureInitialized (fun _ =>
  bind (Ledger.on_world generateId) (fun id =>
  bind (Ledger.on_world timestamp) (fun ts =>
  Ledger.append Ledger.append_depth (entry_of id ts)))).

(** On any backend, no logging operation returns when every count is a
    multiple of the interval. *)
Lemma logging_never_returns (entry_of : string -> string -> value) (l : @Ledger.t S)
    (w : World) (k : number) :
  snapshotInterval (Ledger.config l) = Some k -> every_count_due k = true ->
  exists e st', logging entry_of (l, w) = (Throws e, st').
Proof.
  intros Hk Hall. unfold logging, bind.
  destruct (Ledger.ensureInitialized (l, w)) as [[u|e] st1] eqn:E1;
    [|now eexists; eexists].
  assert (st1 = (l, w)) as ->.
  { unfold Ledger.ensureInitialized, bind, Ledger.this, throw, ret in E1. cbn [fst snd] in E1.
    destruct (negb (Ledger.initialized l)); now injection E1. }
  unfold Ledger.on_world, generateId, timestamp. cbn [fst snd].
  now apply (append_never_returns _ _ _ _ k).
Qed.

End SnapshotFacts.

(* ====================================================================== *)
(** ** A ledger over the in-memory backend *)
(* ====================================================================== *)

(** The operations that log an entry. *)
Inductive Operation : Type :=
| LogModelCall (params : ModelCallParams)
| LogToolInvocation (params : ToolInvocationParams)
| LogDecision (params : DecisionParams)
| LogApproval (params : ApprovalParams)
| Snapshot (params : SnapshotParams)
| StoreContent (params : StoreContentParams).

(** The entry that an operation logs, given its identifier and time stamp. *)
Definition entry_of (op : Operation) (id ts : string) : value :=
  match op with
  | LogModelCall p => ModelCall_entry id ts p
  | LogToolInvocation p => ToolInvocation_entry id ts p
  | LogDecision p => DecisionPoint_entry id ts p
  | LogApproval p => HumanApproval_entry id ts p
  | Snapshot p => StateSnapshot_entry id ts p
  | StoreContent p => ContentReference_entry id ts p
  end.

(** The [type] of the entries that an operation logs. *)
Definition entry_type (op : Operation) : string :=
  match op with
  | LogModelCall _ => "model_call"
  | LogToolInvocation _ => "tool_invocation"
  | LogDecision _ => "decision_point"
  | LogApproval _ => "human_approval"
  | Snapshot _ => "state_snapshot"
  | StoreContent _ => "content_reference"
  end.

(** [entry.type] of a stored entry. *)
Definition type_of (c : ChainedEntry) : option value :=
  match entry c with
  | JObj fields => obj_get fields "type"
  | _ => None
  end.

Section InMemoryLedger.
Context `{RT : NodeRuntime}.

(** The methods of the backend that the embedding of [InMemoryStorage]
    leaves out are taken as they come: nothing below depends on them. *)
Variable close_impl : option string -> option string -> M (InMemoryStorage.t * World) AuditLog.
Variable export_impl : ExportOptions -> M (InMemoryStorage.t * World) string.
Variable getSession_impl : M (InMemoryStorage.t * World) SessionEnvelope.

(** A method of the backend that does not touch the runtime. *)
Definition in_memory {A} (m : M InMemoryStorage.t A) : M (InMemoryStorage.t * World) A :=
  fun st => let r := m (fst st) in (fst r, (snd r, snd st)).

#[local] Instance InMemoryBackend : StorageBackend InMemoryStorage.t := {|
  storage_initialize := fun session => in_memory (InMemoryStorage.initialize session);
  storage_append := fun entry => in_memory (InMemoryStorage.append entry);
  storage_getRange := fun start end_ => in_memory (InMemoryStorage.getRange start end_);
  storage_getAll := in_memory InMemoryStorage.getAll;
  storage_count := in_memory InMemoryStorage.count;
  storage_verify := in_memory InMemoryStorage.verify;
  storage_close := close_impl;
  storage_export := export_impl;
  storage_getSession := getSession_impl
|}.

Definition perform (op : Operation) : Ledger.LedgerM ChainedEntry :=
  match op with
  | LogModelCall p => Ledger.logModelCall p
  | LogToolInvocation p => Ledger.logToolInvocation p
  | LogDecision p => Ledger.logDecision p
  | LogApproval p => Ledger.logApproval p
  | Snapshot p => Ledger.snapshot p
  | StoreContent p => Ledger.storeContent p
  end.

(** The ledger and the runtime after the operations of [ops], in order. *)
Definition performed (ops : list Operation) (st : Ledger.t * World) : Ledger.t * World :=
  fold_left (fun st op => snd (perform op st)) ops st.

(** The session that [start] makes. *)
Definition started_session (config : LedgerConfig) (initiatedBy : value)
    (metadata : option value) (w : World) : SessionEnvelope :=
  mkSessionEnvelope (fst (randomUUID w)) (orgId config) (agentId config)
    (agentVersion config) (cfg_environment config) initiatedBy
    (fst (Date_toISOString (snd (randomUUID w)))) None (compliance config)
    (default 2555%Z (retentionDays config)) metadata.

Lemma perform_logging (op : Operation) : perform op = logging (entry_of op).
Proof. destruct op; reflexivity. Qed.

(** The state of a started ledger that holds the chain of [payloads]. *)
Definition holding (config : LedgerConfig) (sess : SessionEnvelope) (payloads : list value)
    (l : Ledger.t) : Prop :=
  Ledger.config l = config /\
  Ledger.initialized l = true /\
  Ledger.entryCount l = Z.of_nat (length payloads) /\
  Ledger.signingKeys l = cfg_signingKeys config /\
  Ledger.storage l = InMemoryStorage.mk (Some sess) (chain_of payloads) ∅.

Lemma start_holding (config : LedgerConfig) (storage : InMemoryStorage.t)
    (initiatedBy : value) (metadata : option value) (w : World) :
  let sess := started_session config initiatedBy metadata w in
  let r := Ledger.start initiatedBy metadata (Ledger.new config storage, w) in
  fst r = Returns (session_id sess) /\
  holding config sess [] (fst (snd r)) /\
  snd (snd r) = snd (Date_toISOString (snd (randomUUID w))).
Proof.
  cbv zeta. unfold Ledger.start, bind, Ledger.this, Ledger.on_world, Ledger.on_storage,
    Ledger.set_this, ret, generateId, timestamp. cbn.
  split; [reflexivity|]. split; [|reflexivity]. repeat split.
Qed.

(** One operation on such a ledger, when no periodic snapshot is set. *)
Lemma perform_holding (config : LedgerConfig) (sess : SessionEnvelope)
    (payloads : list value) (op : Operation) (l : Ledger.t) (w : World) :
  snapshotInterval config = None ->
  holding config sess payloads l ->
  let id := fst (randomUUID w) in
  let ts := fst (Date_toISOString (snd (randomUUID w))) in
  let r := perform op (l, w) in
  fst r = Returns (next_entry (chain_of payloads) (entry_of op id ts)) /\
  holding config sess (payloads ++ [entry_of op id ts]) (fst (snd r)) /\
  snd (snd r) = snd (Date_toISOString (snd (randomUUID w))).
Proof.
  intros Hnone (Hc & Hi & Hn & Hk & Hs). cbv zeta.
  rewrite perform_logging. unfold logging, bind.
  rewrite (ensureInitialized_started l w Hi).
  unfold Ledger.on_world, generateId, timestamp. cbn [fst snd].
  rewrite append_step. cbn [storage_append InMemoryBackend]. unfold in_memory.
  rewrite Hs. unfold InMemoryStorage.append.
  cbn [fst snd InMemoryStorage.entries InMemoryStorage.session InMemoryStorage.contentStore].
  cbv zeta.
  assert (Hdue : forall s', Ledger.snapshot_due (counted (with_storage s' l)) = false).
  { intros s'. unfold Ledger.snapshot_due, counted, with_storage. cbn [Ledger.config].
    now rewrite Hc, Hnone. }
  rewrite Hdue. cbn [fst snd].
  split; [reflexivity|]. split; [|reflexivity].
  unfold holding, counted, with_storage.
  cbn [Ledger.config Ledger.initialized Ledger.entryCount Ledger.signingKeys Ledger.storage].
  split; [exact Hc|]. split; [exact Hi|].
  split; [rewrite Hn, length_app; simpl; lia|]. split; [exact Hk|].
  rewrite chain_of_snoc. unfold next_entry. rewrite length_chain_of. reflexivity.
Qed.

(** The entries that the operations of [ops] log, with the identifiers and
    time stamps that the runtime gives from [w] on. *)
Fixpoint payloads_of (ops : list Operation) (w : World) : list value :=
  match ops with
  | [] => []
  | op :: rest =>
      let id := fst (randomUUID w) in
      let ts := fst (Date_toISOString (snd (randomUUID w))) in
      entry_of op id ts :: payloads_of rest (snd (Date_toISOString (snd (randomUUID w))))
  end.

Lemma length_payloads_of (ops : list Operation) : forall w,
  length (payloads_of ops w) = length ops.
Proof. induction ops as [|op ops IH]; intros w; simpl; [reflexivity | now rewrite IH]. Qed.

Lemma performed_holding (config : LedgerConfig) (sess : SessionEnvelope)
    (ops : list Operation) : forall (payloads : list value) (l : Ledger.t) (w : World),
  snapshotInterval config = None ->
  holding config sess payloads l ->
  holding config sess (payloads ++ payloads_of ops w) (fst (performed ops (l, w))).
Proof.
  induction ops as [|op ops IH]; intros payloads l w Hnone Hl.
  - simpl. now rewrite app_nil_r.
  - destruct (perform_holding config sess payloads op l w Hnone Hl) as (_ & Hl' & Hw').
    cbn [performed fold_left payloads_of].
    destruct (snd (perform op (l, w))) as [l' w'] eqn:E. cbn [fst snd] in Hl', Hw'.
    subst w'. fold (performed ops (l', snd (Date_toISOString (snd (randomUUID w))))).
    replace (payloads ++ entry_of op (fst (randomUUID w))
                           (fst (Date_toISOString (snd (randomUUID w))))
             :: payloads_of ops (snd (Date_toISOString (snd (randomUUID w)))))
      with ((payloads ++ [entry_of op (fst (randomUUID w))
                            (fst (Date_toISOString (snd (randomUUID w))))])
            ++ payloads_of ops (snd (Date_toISOString (snd (randomUUID w)))))
      by (now rewrite <- app_assoc).
    now apply IH.
Qed.

Lemma map_entry_chain_of (es : list value) : map entry (chain_of es) = es.
Proof.
  induction es as [|e es IH] using rev_ind; [reflexivity|].
  rewrite chain_of_snoc, map_app, IH. reflexivity.
Qed.

Lemma types_of_payloads (ops : list Operation) : forall w,
  map type_of (chain_of (payloads_of ops w))
  = map (fun op => Some (JStr (entry_type op))) ops.
Proof.
  intros w.
  assert (H : map type_of (chain_of (payloads_of ops w))
              = map (fun e => match e with JObj fields => obj_get fields "type" | _ => None end)
                    (map entry (chain_of (payloads_of ops w)))).
  { rewrite map_map. reflexivity. }
  rewrite H, map_entry_chain_of. clear H. revert w.
  induction ops as [|op ops IH]; intros w; [reflexivity|].
  cbn [payloads_of map]. rewrite IH. f_equal. destruct op; reflexivity.
Qed.

(** X18. On a ledger over the in-memory backend, with no periodic
    snapshot configured, [start] followed by any sequence of logging
    operations stores one entry per operation, in the order of the calls
    and of the operation's type, as a chain that [verify] accepts with no
    error; [count] is the number of operations, [getEntries] returns the
    chain, the session of the backend is the one that [start] made from
    the configuration (retention 2555 days unless configured), and the
    content store of the backend stays empty: [storeContent] records the
    hash and the size of the content, not the content. *)
Theorem started_ledger_logs_a_valid_chain (config : LedgerConfig)
    (storage : InMemoryStorage.t) (initiatedBy : value) (metadata : option value)
    (ops : list Operation) (w : World) (Hnone : snapshotInterval config = None) :
  let started := Ledger.start initiatedBy metadata (Ledger.new config storage, w) in
  let st := performed ops (snd started) in
  let payloads := payloads_of ops (snd (snd started)) in
  fst started = Returns (fst (randomUUID w)) /\
  Ledger.storage (fst st)
  = InMemoryStorage.mk (Some (started_session config initiatedBy metadata w))
      (chain_of payloads) ∅ /\
  map type_of (chain_of payloads) = map (fun op => Some (JStr (entry_type op))) ops /\
  map sequence (chain_of payloads) = map Z.of_nat (seq 0 (length ops)) /\
  fst (Ledger.count st) = Returns (Z.of_nat (length ops)) /\
  fst (Ledger.verify st) = Returns (true, []) /\
  fst (Ledger.getEntries None None st) = Returns (chain_of payloads).
Proof.
  intros started st payloads.
  destruct (start_holding config storage initiatedBy metadata w) as (Hid & Hstart & Hw).
  fold started in Hid, Hstart, Hw.
  destruct (snd started) as [l0 w0] eqn:E0. cbn [fst snd] in Hstart, Hw.
  pose proof (performed_holding config _ ops [] l0 w0 Hnone Hstart) as Hst.
  cbn [app] in Hst. fold st in Hst. unfold payloads. cbn [snd].
  destruct Hst as (Hc & Hi & Hn & Hk & Hs).
  split; [exact Hid|]. split; [exact Hs|].
  split; [apply types_of_payloads|].
  split; [rewrite chain_of_sequences, length_payloads_of; reflexivity|].
  destruct st as [l w1]. cbn [fst] in *.
  split; [|split].
  - unfold Ledger.count, bind. rewrite (ensureInitialized_started l w1 Hi).
    unfold Ledger.on_storage. cbn [storage_count InMemoryBackend fst snd]. unfold in_memory.
    rewrite Hs. cbn. now rewrite length_chain_of, length_payloads_of.
  - unfold Ledger.verify, bind. rewrite (ensureInitialized_started l w1 Hi).
    unfold Ledger.on_storage. cbn [storage_verify InMemoryBackend fst snd]. unfold in_memory.
    rewrite Hs. unfold InMemoryStorage.verify. cbn [fst snd InMemoryStorage.entries].
    rewrite (verifyChain_of_links (chain_of (payloads_of ops w0)))
      by apply chain_invariant_links, chain_of_invariant.
    reflexivity.
  - unfold Ledger.getEntries, bind. rewrite (ensureInitialized_started l w1 Hi).
    unfold Ledger.on_storage. cbn [storage_getAll InMemoryBackend fst snd]. unfold in_memory.
    rewrite Hs. reflexivity.
Qed.

(** One operation on a ledger that takes periodic snapshots. *)
Lemma perform_snapshot_due (config : LedgerConfig) (sess : SessionEnvelope)
    (payloads : list value) (op : Operation) (l : Ledger.t) (w : World) (k : number) :
  snapshotInterval config = Some k -> every_count_due k = false ->
  holding config sess payloads l ->
  due_at k (Z.of_nat (length payloads) + 1) = true ->
  let w1 := snd (Date_toISOString (snd (randomUUID w))) in
  let w2 := snd (Date_toISOString (snd (randomUUID w1))) in
  let e1 := entry_of op (fst (randomUUID w)) (fst (Date_toISOString (snd (randomUUID w)))) in
  let e2 := StateSnapshot_entry (fst (randomUUID w1))
              (fst (Date_toISOString (snd (randomUUID w1))))
              (periodic_snapshot (Z.of_nat (length payloads) + 1)) in
  let r := perform op (l, w) in
  fst r = Returns (next_entry (chain_of payloads) e1) /\
  holding config sess (payloads ++ [e1; e2]) (fst (snd r)) /\
  snd (snd r) = w2.
Proof.
  intros Hk Hevery (Hc & Hi & Hn & Hkeys & Hs) Hrem. cbv zeta.
  rewrite perform_logging. unfold logging, bind.
  rewrite (ensureInitialized_started l w Hi).
  unfold Ledger.on_world, generateId, timestamp. cbn [fst snd].
  rewrite append_step. cbn [storage_append InMemoryBackend]. unfold in_memory.
  rewrite Hs. unfold InMemoryStorage.append.
  cbn [fst snd InMemoryStorage.entries InMemoryStorage.session InMemoryStorage.contentStore].
  cbv zeta.
  match goal with |- context [counted (with_storage ?s l)] => set (l1 := counted (with_storage s l)) end.
  assert (Hdue : Ledger.snapshot_due l1 = true).
  { rewrite snapshot_due_at. unfold l1, counted, with_storage.
    cbn [Ledger.config Ledger.entryCount]. now rewrite Hc, Hk, Hn. }
  rewrite Hdue. unfold Ledger.append_depth.
  assert (Hi1 : Ledger.initialized l1 = true) by exact Hi.
  rewrite (snapshot_with_started _ _ l1 _ Hi1).
  rewrite append_step. cbn [storage_append InMemoryBackend]. unfold in_memory.
  unfold InMemoryStorage.append. cbn [fst snd].
  cbn [l1 counted with_storage Ledger.storage InMemoryStorage.entries
       InMemoryStorage.session InMemoryStorage.contentStore]. cbv zeta.
  match goal with |- context [Ledger.snapshot_due (counted (with_storage ?s ?l'))] =>
    assert (Hdue2 : Ledger.snapshot_due (counted (with_storage s l')) = false) end.
  { apply (snapshot_due_not_twice l1).
    - cbn [l1 counted with_storage Ledger.config]. rewrite Hc, Hk.
      intros k' Hk'. injection Hk' as <-. exact Hevery.
    - exact Hdue. }
  rewrite Hdue2. cbn [fst snd]. subst l1.
  split; [reflexivity|]. split; [|reflexivity].
  unfold holding, counted, with_storage.
  cbn [Ledger.config Ledger.initialized Ledger.entryCount Ledger.signingKeys Ledger.storage].
  split; [exact Hc|]. split; [exact Hi|].
  split; [rewrite Hn, length_app; simpl; lia|]. split; [exact Hkeys|].
  replace (payloads ++ [entry_of op (fst (randomUUID w))
                          (fst (Date_toISOString (snd (randomUUID w))));
                        StateSnapshot_entry
                          (fst (randomUUID (snd (Date_toISOString (snd (randomUUID w))))))
                          (fst (Date_toISOString
                                  (snd (randomUUID (snd (Date_toISOString (snd (randomUUID w))))))))
                          (periodic_snapshot (Z.of_nat (length payloads) + 1))])
    with ((payloads ++ [entry_of op (fst (randomUUID w))
                          (fst (Date_toISOString (snd (randomUUID w))))])
          ++ [StateSnapshot_entry
                (fst (randomUUID (snd (Date_toISOString (snd (randomUUID w))))))
                (fst (Date_toISOString
                        (snd (randomUUID (snd (Date_toISOString (snd (randomUUID w))))))))
                (periodic_snapshot (Z.of_nat (length payloads) + 1))])
    by (now rewrite <- app_assoc).
  rewrite !chain_of_snoc. unfold next_entry. rewrite !length_app, !length_chain_of.
  rewrite Hn. cbn [length]. reflexivity.
Qed.

Lemma perform_snapshot_not_due (config : LedgerConfig) (sess : SessionEnvelope)
    (payloads : list value) (op : Operation) (l : Ledger.t) (w : World) (k : number) :
  snapshotInterval config = Some k ->
  holding config sess payloads l ->
  due_at k (Z.of_nat (length payloads) + 1) = false ->
  let e1 := entry_of op (fst (randomUUID w)) (fst (Date_toISOString (snd (randomUUID w)))) in
  let r := perform op (l, w) in
  fst r = Returns (next_entry (chain_of payloads) e1) /\
  holding config sess (payloads ++ [e1]) (fst (snd r)) /\
  snd (snd r) = snd (Date_toISOString (snd (randomUUID w))).
Proof.
  intros Hk (Hc & Hi & Hn & Hkeys & Hs) Hrem. cbv zeta.
  rewrite perform_logging. unfold logging, bind.
  rewrite (ensureInitialized_started l w Hi).
  unfold Ledger.on_world, generateId, timestamp. cbn [fst snd].
  rewrite append_step. cbn [storage_append InMemoryBackend]. unfold in_memory.
  rewrite Hs. unfold InMemoryStorage.append.
  cbn [fst snd InMemoryStorage.entries InMemoryStorage.session InMemoryStorage.contentStore].
  cbv zeta.
  assert (Hdue : forall s', Ledger.snapshot_due (counted (with_storage s' l)) = false).
  { intros s'. rewrite snapshot_due_at. unfold counted, with_storage.
    cbn [Ledger.config Ledger.entryCount]. now rewrite Hc, Hk, Hn. }
  rewrite Hdue. cbn [fst snd].
  split; [reflexivity|]. split; [|reflexivity].
  unfold holding, counted, with_storage.
  cbn [Ledger.config Ledger.initialized Ledger.entryCount Ledger.signingKeys Ledger.storage].
  split; [exact Hc|]. split; [exact Hi|].
  split; [rewrite Hn, length_app; simpl; lia|]. split; [exact Hkeys|].
  rewrite chain_of_snoc. unfold next_entry. rewrite length_chain_of. reflexivity.
Qed.

(** One operation on a ledger whose interval divides every count: the
    entry is stored, then a snapshot, then another, and so on; the
    operation does not return. *)
Lemma perform_never_returns (config : LedgerConfig) (sess : SessionEnvelope)
    (payloads : list value) (op : Operation) (l : Ledger.t) (w : World) (k : number) :
  snapshotInterval config = Some k -> every_count_due k = true ->
  holding config sess payloads l ->
  fst (perform op (l, w)) = Throws NonTermination.
Proof.
  intros Hk Hevery (Hc & Hi & Hn & Hkeys & Hs).
  assert (Hdue : forall l' : @Ledger.t InMemoryStorage.t, Ledger.config l' = Ledger.config l ->
                                       Ledger.snapshot_due l' = true).
  { intros l' Hl'. apply (snapshot_due_every_entry l' k); [|exact Hevery].
    now rewrite Hl', Hc. }
  rewrite perform_logging. unfold logging, bind.
  rewrite (ensureInitialized_started l w Hi).
  unfold Ledger.on_world, generateId, timestamp. cbn [fst snd].
  unfold Ledger.append_depth.
  rewrite append_step. cbn [storage_append InMemoryBackend]. unfold in_memory.
  unfold InMemoryStorage.append. cbn [fst snd]. cbv zeta.
  rewrite Hdue by reflexivity.
  rewrite snapshot_with_started by exact Hi.
  rewrite append_step. cbn [storage_append InMemoryBackend]. unfold in_memory.
  unfold InMemoryStorage.append. cbn [fst snd]. cbv zeta.
  rewrite Hdue by reflexivity.
  rewrite snapshot_with_started by exact Hi.
  rewrite append_step. cbn [storage_append InMemoryBackend]. unfold in_memory.
  unfold InMemoryStorage.append. cbn [fst snd]. cbv zeta.
  rewrite Hdue by reflexivity. reflexivity.
Qed.

(** X19. A logging operation on a started ledger over the in-memory
    backend with a snapshot interval [k], any number. When every count is
    a multiple of [k] (so for 1, -1, 0.5, 0.25: [1 % k === 0]), [append]
    and [snapshot] call each other without end and the operation does
    not return. Otherwise the operation stores its entry and returns it;
    when the count of entries, snapshots included, has then reached a
    multiple of [k], [append] stores one periodic snapshot right after
    it, whose [state_hash] is the hash of [{"count": n}] for that count
    [n], and the count moves on by two; no snapshot is taken for 0, NaN
    or an infinity. *)
Theorem periodic_snapshot_follows_the_entry (config : LedgerConfig) (sess : SessionEnvelope)
    (payloads : list value) (op : Operation) (l : Ledger.t) (w : World) (k : number)
    (Hk : snapshotInterval config = Some k)
    (Hl : holding config sess payloads l) :
  let n := (Z.of_nat (length payloads) + 1)%Z in
  let w1 := snd (Date_toISOString (snd (randomUUID w))) in
  let w2 := snd (Date_toISOString (snd (randomUUID w1))) in
  let e1 := entry_of op (fst (randomUUID w)) (fst (Date_toISOString (snd (randomUUID w)))) in
  let e2 := StateSnapshot_entry (fst (randomUUID w1))
              (fst (Date_toISOString (snd (randomUUID w1))))
              (mkSnapshotParams "periodic"
                 (sha256 (stringify (JObj [("count", JNum n)]))) "1.0.0" None) in
  let r := perform op (l, w) in
  (every_count_due k = true -> fst r = Throws NonTermination) /\
  (every_count_due k = false ->
   fst r = Returns (next_entry (chain_of payloads) e1) /\
   (due_at k n = true ->
    holding config sess (payloads ++ [e1; e2]) (fst (snd r)) /\ snd (snd r) = w2) /\
   (due_at k n = false ->
    holding config sess (payloads ++ [e1]) (fst (snd r)) /\ snd (snd r) = w1)) /\
  (forall num den,
     every_count_due (Fraction num den) = true <-> num <> 0%Z /\ (num | Z.pos den)%Z) /\
  (forall num den m,
     due_at (Fraction num den) m = true <-> num <> 0%Z /\ (num | m * Z.pos den)%Z) /\
  (forall negative m, (1 <= m)%Z -> due_at (Infinity negative) m = false) /\
  (forall m, due_at NaN m = false).
Proof.
  cbv zeta. split; [|split; [|split; [|split; [|split]]]].
  - intros Hevery. exact (perform_never_returns config sess payloads op l w k Hk Hevery Hl).
  - intros Hevery.
    destruct (due_at k (Z.of_nat (length payloads) + 1)) eqn:Hdue.
    + destruct (perform_snapshot_due config sess payloads op l w k Hk Hevery Hl Hdue)
        as (Hr & Hh & Hw).
      split; [exact Hr|]. split; [intros _; split; [exact Hh | exact Hw] | discriminate].
    + destruct (perform_snapshot_not_due config sess payloads op l w k Hk Hl Hdue)
        as (Hr & Hh & Hw).
      split; [exact Hr|]. split; [discriminate | intros _; split; [exact Hh | exact Hw]].
  - intros num den. unfold every_count_due. rewrite due_at_fraction, Z.mul_1_l. reflexivity.
  - intros num den m. apply due_at_fraction.
  - intros negative m Hm. unfold due_at, number_truthy, remainder_is_zero. cbn [andb].
    apply Z.eqb_neq. lia.
  - reflexivity.
Qed.

Context `{NC : NodeCrypto}.

(** What is asked of [close] of the backend: on a backend that holds a
    session, the log of the embedding of [InMemoryStorage.close]. *)
Hypothesis close_impl_log : forall privateKey publicKey st log st',
  InMemoryStorageClose.close privateKey publicKey st = (Returns (inl log), st') ->
  close_impl privateKey publicKey st = (Returns log, st').

(** X20. A session of the ledger over the in-memory backend, from [start]
    through any sequence of logging operations to [close], with no
    periodic snapshot configured: [close] returns a log that holds the
    entries of the operations and the session that [start] made, and
    that passes the [verify] command (exit code 0); the log is unsigned
    when the configuration has no signing keys, and signed with the
    configured public key when it has a matching pair of non-empty
    keys. *)
Theorem ledger_session_passes_verify (config : LedgerConfig) (storage : InMemoryStorage.t)
    (initiatedBy : value) (metadata : option value) (ops : list Operation) (w : World)
    (Hnone : snapshotInterval config = None) :
  let started := Ledger.start initiatedBy metadata (Ledger.new config storage, w) in
  let st := performed ops (snd started) in
  let payloads := payloads_of ops (snd (snd started)) in
  (cfg_signingKeys config = None ->
   exists log, fst (Ledger.close st) = Returns log /\
     entries log = chain_of payloads /\
     session_id (session log) = fst (randomUUID w) /\
     org_signature log = None /\
     verify_exit_code log = Returns 0%Z) /\
  (forall keys, cfg_signingKeys config = Some keys ->
     privateKey keys <> "" -> publicKey keys <> "" ->
     matching_key_pair (privateKey keys) (publicKey keys) ->
     exists log s, fst (Ledger.close st) = Returns log /\
       entries log = chain_of payloads /\
       session_id (session log) = fst (randomUUID w) /\
       org_signature log = Some s /\ public_key s = publicKey keys /\
       verify_exit_code log = Returns 0%Z).
Proof.
  intros started st payloads.
  destruct (start_holding config storage initiatedBy metadata w) as (Hid & Hstart & Hw).
  fold started in Hid, Hstart, Hw.
  destruct (snd started) as [l0 w0] eqn:E0. cbn [fst snd] in Hstart, Hw.
  pose proof (performed_holding config _ ops [] l0 w0 Hnone Hstart) as Hst.
  cbn [app] in Hst. fold st in Hst. unfold payloads. cbn [snd].
  destruct Hst as (Hc & Hi & Hn & Hk & Hs).
  destruct st as [l w1]. cbn [fst] in *.
  set (sess := started_session config initiatedBy metadata w) in *.
  set (chain := chain_of (payloads_of ops w0)) in *.
  assert (Hsession : InMemoryStorage.session (Ledger.storage l) = Some sess)
    by (now rewrite Hs).
  assert (Hentries : InMemoryStorage.entries (Ledger.storage l) = chain) by (now rewrite Hs).
  destruct (chain_of_tree (payloads_of ops w0)) as (t & Ht). fold chain in Ht.
  assert (Hvalid : valid (verifyChain chain) = true).
  { apply verifyChain_valid_iff, chain_invariant_links, chain_of_invariant. }
  assert (Hledger : Ledger.close (l, w1)
            = (fst (close_impl (option_map privateKey (Ledger.signingKeys l))
                               (option_map publicKey (Ledger.signingKeys l))
                               (Ledger.storage l, w1)),
               (with_storage
                  (fst (snd (close_impl (option_map privateKey (Ledger.signingKeys l))
                                        (option_map publicKey (Ledger.signingKeys l))
                                        (Ledger.storage l, w1)))) l,
                snd (snd (close_impl (option_map privateKey (Ledger.signingKeys l))
                                     (option_map publicKey (Ledger.signingKeys l))
                                     (Ledger.storage l, w1)))))).
  { unfold Ledger.close, bind. rewrite (ensureInitialized_started l w1 Hi).
    unfold Ledger.this, Ledger.on_storage. cbn [fst snd storage_close InMemoryBackend].
    reflexivity. }
  split.
  - intros Hunsigned. rewrite Hledger, Hk, Hunsigned. cbn [option_map fst].
    rewrite <- Hentries in Ht.
    rewrite (close_impl_log _ _ _ _ _
               (close_unsigned (Ledger.storage l) sess t None None w1 eq_refl Hsession Ht)).
    eexists. split; [reflexivity|]. cbn [entries session org_signature].
    split; [exact Hentries|]. split; [reflexivity|]. split; [reflexivity|].
    apply (verify_exit_code_passes _ t); cbn [entries merkle_root org_signature];
      [now rewrite Hentries | exact Ht | reflexivity | discriminate].
  - intros keys Hkeys Hprivate Hpublic Hmatch.
    rewrite Hledger, Hk, Hkeys. cbn [option_map fst].
    rewrite <- Hentries in Ht.
    set (log0 := mkAuditLog "1.0.0" (with_closed_at (first_reading w1) sess)
                   (InMemoryStorage.entries (Ledger.storage l)) (Some (root t)) None None).
    destruct (Hmatch (dataToSign log0)) as (sig & Hsign & Hverify).
    rewrite (close_impl_log _ _ _ _ _
               (close_signed (Ledger.storage l) sess t _ _ sig w1 Hprivate Hpublic Hsession Ht
                  Hsign Hverify)).
    eexists. eexists. split; [reflexivity|]. cbn [entries session org_signature public_key].
    split; [exact Hentries|]. split; [reflexivity|]. split; [reflexivity|].
    split; [reflexivity|].
    apply (verify_exit_code_passes _ t); cbn [entries merkle_root org_signature];
      [now rewrite Hentries | exact Ht | reflexivity |].
    intros s Hsome. injection Hsome as <-.
    unfold verifyAuditLogSignature. cbn [org_signature signature public_key].
    change (dataToSign _) with (dataToSign log0). exact Hverify.
Qed.

End InMemoryLedger.

(** *** Examples *)

(** For the examples, the methods that the theorems above leave open:
    [close] hands on the log of [InMemoryStorageClose.close] (the ledger
    closes a backend that it has initialized, so the log has a session),
    [getSession] the session, and [export] is not used. *)
Definition sample_close `{RT : NodeRuntime} `{NC : NodeCrypto}
    (privateKey publicKey : option string) : M (InMemoryStorage.t * World) AuditLog :=
  fun st =>
    match InMemoryStorageClose.close privateKey publicKey st with
    | (Returns (inl log), st') => (Returns log, st')
    | (Returns (inr _), st') => (Throws (NodeError "TypeError"), st')
    | (Throws e, st') => (Throws e, st')
    end.

Definition sample_getSession `{RT : NodeRuntime} : M (InMemoryStorage.t * World) SessionEnvelope :=
  fun st =>
    match InMemoryStorage.session (fst st) with
    | Some s => (Returns s, st)
    | None => (Throws (NodeError "TypeError"), st)
    end.

Definition sample_export `{RT : NodeRuntime} (options : ExportOptions)
  : M (InMemoryStorage.t * World) string :=
  fun st => (Throws (NodeError "ERR_NOT_USED"), st).

Lemma sample_close_log `{RT : NodeRuntime} `{NC : NodeCrypto} privateKey publicKey st log st' :
  InMemoryStorageClose.close privateKey publicKey st = (Returns (inl log), st') ->
  sample_close privateKey publicKey st = (Returns log, st').
Proof. intros H. unfold sample_close. now rewrite H. Qed.

Definition sample_config (interval : option number) (keys : option SigningKeys) : LedgerConfig :=
  mkLedgerConfig "acme" "advisor" (Some "1.0.0") "test" ["FINRA_4511"; "EU_AI_ACT"] None
    interval keys.

Definition sample_operations : list Operation :=
  [LogDecision (mkDecisionParams "decision-1" "routing"
                  (JArr [JObj [("option_id", JStr "opt1"); ("description", JStr "Option 1")]])
                  "opt1" (sha256 "reasoning") None (Some true) None);
   StoreContent (mkStoreContentParams "prompt" "entry-1" "What is my balance?" None None None)].

Definition sample_initiator : value :=
  JObj [("type", JStr "user"); ("identifier", JStr "u-17")].

Lemma started_ledger_witness :
  let st := @performed ToyRuntime (@sample_close ToyRuntime ToyCrypto) sample_export
              sample_getSession sample_operations
              (snd (@Ledger.start ToyRuntime _
                      (@InMemoryBackend ToyRuntime (@sample_close ToyRuntime ToyCrypto)
                         sample_export sample_getSession)
                      sample_initiator None
                      (Ledger.new (sample_config None None) InMemoryStorage.new, toy_world))) in
  fst (@Ledger.count ToyRuntime _
         (@InMemoryBackend ToyRuntime (@sample_close ToyRuntime ToyCrypto)
            sample_export sample_getSession) st)
  = Returns 2%Z /\
  fst (@Ledger.verify ToyRuntime _
         (@InMemoryBackend ToyRuntime (@sample_close ToyRuntime ToyCrypto)
            sample_export sample_getSession) st)
  = Returns (true, []).
Proof.
  destruct (@started_ledger_logs_a_valid_chain ToyRuntime
              (@sample_close ToyRuntime ToyCrypto) sample_export sample_getSession
              (sample_config None None) InMemoryStorage.new sample_initiator None
              sample_operations toy_world eq_refl)
    as (_ & _ & _ & _ & Hcount & Hverify & _).
  split; [exact Hcount | exact Hverify].
Defined.

(** A started ledger that holds one entry, with the snapshot interval
    [k]. *)
Definition sample_ledger (k : number) : @Ledger.t InMemoryStorage.t :=
  Ledger.mkLedger
    (InMemoryStorage.mk (Some sample_session)
       (chain_of [JObj [("type", JStr "model_call")]]) ∅)
    (sample_config (Some k) None) true 1 None.

(** With the interval 2 the second entry is followed by one snapshot; with
    the interval 0.5 the operation does not return. *)
Lemma periodic_snapshot_witness :
  (exists l',
     snd (@perform ToyRuntime (@sample_close ToyRuntime ToyCrypto) sample_export
            sample_getSession
            (Snapshot (mkSnapshotParams "manual" (sha256 "state") "1.0.0" None))
            (sample_ledger (integer 2), toy_world))
     = (l', 4) /\
     Ledger.entryCount l' = 3%Z /\
     length (InMemoryStorage.entries (Ledger.storage l')) = 3) /\
  fst (@perform ToyRuntime (@sample_close ToyRuntime ToyCrypto) sample_export
         sample_getSession
         (Snapshot (mkSnapshotParams "manual" (sha256 "state") "1.0.0" None))
         (sample_ledger (Fraction 1 2), toy_world))
  = Throws NonTermination.
Proof.
  split.
  - destruct (@periodic_snapshot_follows_the_entry ToyRuntime
                (@sample_close ToyRuntime ToyCrypto) sample_export sample_getSession
                (sample_config (Some (integer 2)) None) sample_session
                [JObj [("type", JStr "model_call")]]
                (Snapshot (mkSnapshotParams "manual" (sha256 "state") "1.0.0" None))
                (sample_ledger (integer 2)) toy_world (integer 2) eq_refl
                ltac:(repeat split))
      as (_ & Hreturns & _).
    destruct (Hreturns eq_refl) as (_ & Hdue & _).
    destruct (Hdue eq_refl) as ((_ & _ & Hn & _ & Hs) & Hw).
    match goal with |- context [snd ?r] => destruct (snd r) as [l' w'] end.
    cbn [fst snd] in Hn, Hs, Hw. exists l'. split; [now rewrite Hw|].
    split; [exact Hn|]. rewrite Hs. cbn [InMemoryStorage.entries].
    now rewrite length_chain_of.
  - destruct (@periodic_snapshot_follows_the_entry ToyRuntime
                (@sample_close ToyRuntime ToyCrypto) sample_export sample_getSession
                (sample_config (Some (Fraction 1 2)) None) sample_session
                [JObj [("type", JStr "model_call")]]
                (Snapshot (mkSnapshotParams "manual" (sha256 "state") "1.0.0" None))
                (sample_ledger (Fraction 1 2)) toy_world (Fraction 1 2) eq_refl
                ltac:(repeat split))
      as (Hnever & _).
    exact (Hnever eq_refl).
Defined.

Lemma ledger_session_witness :
  let backend := @InMemoryBackend ToyRuntime (@sample_close ToyRuntime ToyCrypto)
                   sample_export sample_getSession in
  let st := @performed ToyRuntime (@sample_close ToyRuntime ToyCrypto) sample_export
              sample_getSession sample_operations
              (snd (@Ledger.start ToyRuntime _ backend sample_initiator None
                      (Ledger.new (sample_config None (Some (mkSigningKeys "k1" "k1")))
                         InMemoryStorage.new, toy_world))) in
  exists log s,
    fst (@Ledger.close ToyRuntime _ backend st) = Returns log /\
    org_signature log = Some s /\
    @verify_exit_code ToyCrypto log = Returns 0%Z.
Proof.
  destruct (proj2 (@ledger_session_passes_verify ToyRuntime
                     (@sample_close ToyRuntime ToyCrypto) sample_export sample_getSession
                     ToyCrypto (@sample_close_log ToyRuntime ToyCrypto)
                     (sample_config None (Some (mkSigningKeys "k1" "k1")))
                     InMemoryStorage.new sample_initiator None sample_operations toy_world
                     eq_refl)
                  (mkSigningKeys "k1" "k1") eq_refl ltac:(discriminate) ltac:(discriminate)
                  toy_keys_match)
    as (log & s & Hclose & _ & _ & Hs & _ & Hverify).
  exists log, s. split; [exact Hclose|]. split; [exact Hs | exact Hverify].
Defined.


(* ====================================================================== *)
(** ** The file and S3 backends keep a valid chain *)
(* ====================================================================== *)

(** X21. On a file system that keeps what is written, after an
    [initialize] of the file backend and appends that all returned, the
    log file reads as the session header followed by one line per entry,
    [getAll] reads back the chain of the entries, [count] is their
    number, [verify] accepts the chain with no error, an append that
    returns gives the next entry of the chain, and an append whose write
    fails raises the error of the file system and leaves the counters as
    they were. When [mkdirSync] fails in [initialize] of a new backend,
    [initialize] raises that error and the backend has no log path:
    [append], [getAll], [getRange] and [verify] then raise a [TypeError]
    and [count] returns 0. *)
Theorem file_backend_keeps_a_valid_chain `{FS : NodeFileSystem} (sess : SessionEnvelope)
    (st0 : FileSystemStorage.t * Files) (es : list value) :
  let st := FileSystemFacts.appended es (snd (FileSystemStorage.initialize sess st0)) in
  let path := FileSystemFacts.log_path (FileSystemStorage.basePath (fst st0)) sess in
  (FileSystemFacts.keeps_writes ->
   fst (FileSystemStorage.initialize sess st0) = Returns tt ->
   FileSystemFacts.appends_return es (snd (FileSystemStorage.initialize sess st0)) ->
   readFileSync path (snd st) = Done (SessionLine sess :: map EntryLine (chain_of es)) /\
   FileSystemStorage.getAll st = (Returns (chain_of es), st) /\
   FileSystemStorage.count st = (Returns (Z.of_nat (length es)), st) /\
   FileSystemStorage.verify st = (Returns (true, []), st) /\
   (forall e chained,
      fst (FileSystemStorage.append e st) = Returns chained ->
      chained = next_entry (chain_of es) e) /\
   (forall e code,
      fst (appendFileSync path (EntryLine (next_entry (chain_of es) e)) (snd st)) = Fails code ->
      fst (FileSystemStorage.append e st) = Throws (NodeError code) /\
      fst (snd (FileSystemStorage.append e st)) = fst st)) /\
  (forall basePath files code,
     fst (mkdirSync (path_join [basePath; org_id sess; session_id sess]) files) = Fails code ->
     let failed := FileSystemStorage.initialize sess (FileSystemStorage.new basePath, files) in
     fst failed = Throws (NodeError code) /\
     FileSystemStorage.logPath (fst (snd failed)) = None /\
     (forall e, fst (FileSystemStorage.append e (snd failed)) = Throws (NodeError "TypeError")) /\
     fst (FileSystemStorage.getAll (snd failed)) = Throws (NodeError "TypeError") /\
     (forall start end_,
        fst (FileSystemStorage.getRange start end_ (snd failed))
        = Throws (NodeError "TypeError")) /\
     fst (FileSystemStorage.verify (snd failed)) = Throws (NodeError "TypeError") /\
     fst (FileSystemStorage.count (snd failed)) = Returns 0%Z).
Proof.
  intros st path. split.
  - intros Hkeeps Hinitialized Happended.
    pose proof (FileSystemFacts.appended_holds sess path es _ Hkeeps
                  (FileSystemFacts.initialize_holds sess st0 Hkeeps Hinitialized)
                  Happended) as H.
    fold st in H.
    pose proof (FileSystemFacts.getAll_holds _ _ _ _ H) as Hall.
    pose proof H as (Hs & Hp & Hc & Hh & Hf).
    split; [exact Hf|]. split; [exact Hall|]. split; [|split; [|split]].
    + unfold FileSystemStorage.count. now rewrite Hc.
    + unfold FileSystemStorage.verify, bind. rewrite Hall. unfold ret.
      rewrite (verifyChain_of_links (chain_of es))
        by apply chain_invariant_links, chain_of_invariant.
      reflexivity.
    + intros e chained He.
      exact (proj1 (FileSystemFacts.append_holds sess path es e st Hkeeps H chained He)).
    + intros e code He. unfold FileSystemStorage.append. rewrite Hp.
      assert (Hnext : createChainedEntry e (FileSystemStorage.entryCount (fst st))
                        (FileSystemStorage.lastHash (fst st))
                      = next_entry (chain_of es) e).
      { unfold next_entry. now rewrite Hc, Hh, length_chain_of. }
      rewrite Hnext, He. split; reflexivity.
  - intros basePath files code Hmade failed. unfold failed.
    rewrite FileSystemFacts.initialize_cases. cbv zeta.
    cbn [FileSystemStorage.new FileSystemStorage.basePath FileSystemStorage.logPath].
    rewrite Hmade. cbn [fst snd].
    unfold FileSystemStorage.append, FileSystemStorage.getRange, FileSystemStorage.verify,
      FileSystemStorage.count, bind, FileSystemStorage.getAll.
    cbn [fst snd FileSystemStorage.logPath FileSystemStorage.entryCount].
    repeat split.
Qed.

Lemma file_backend_witness :
  @FileSystemStorage.getAll ToyFileSystem
    (@FileSystemFacts.appended ToyFileSystem sample_payloads sample_file_backend)
  = (Returns (chain_of sample_payloads),
     @FileSystemFacts.appended ToyFileSystem sample_payloads sample_file_backend) /\
  (let failed := @FileSystemStorage.initialize ToyFileSystem sample_session
                   (FileSystemStorage.new "logs", file_in_the_way) in
   fst failed = Throws (NodeError "EEXIST") /\
   fst (@FileSystemStorage.getAll ToyFileSystem (snd failed)) = Throws (NodeError "TypeError")).
Proof.
  destruct (@file_backend_keeps_a_valid_chain ToyFileSystem sample_session
              (FileSystemStorage.new "logs", no_files) sample_payloads)
    as (Hkept & Hfailed).
  destruct (Hkept toy_keeps_writes ltac:(vm_compute; reflexivity)
              (toy_appends_return sample_payloads sample_file_backend
                 ltac:(vm_compute; discriminate)))
    as (_ & Hall & _).
  split; [exact Hall|].
  destruct (Hfailed "logs" file_in_the_way "EEXIST" ltac:(vm_compute; reflexivity))
    as (Hthrows & _ & _ & HgetAll & _).
  split; [exact Hthrows | exact HgetAll].
Defined.

(** [verify()] of the S3 backend. *)
Definition S3Storage_verify `{RT : NodeRuntime} : M (S3Storage.t * World) (bool * list string) :=
  fun st => let result := verifyChain (S3Storage.entries (fst st)) in
            (Returns (valid result, errors result), st).

Section S3Chain.
Context `{RT : NodeRuntime}.

(** What the backend keeps in memory after [append]: the pending writes
    are the last entries of the chain, fewer than a hundred of them. *)
Definition pending_suffix (st : S3Storage.t * World) : Prop :=
  (exists flushed, S3Storage.entries (fst st) = flushed ++ S3Storage.pendingWrites (fst st)) /\
  length (S3Storage.pendingWrites (fst st)) < 100.

Lemma flush_pending (st : S3Storage.t * World) :
  S3Storage.pendingWrites (fst (snd (S3Storage.flush st))) = [].
Proof.
  unfold S3Storage.flush. destruct (S3Storage.pendingWrites (fst st)) as [|c rest] eqn:E.
  - exact E.
  - destruct (S3Storage.session (fst st)); reflexivity.
Qed.

Lemma append_pending_suffix (e : value) (st : S3Storage.t * World) :
  pending_suffix st -> pending_suffix (snd (S3Storage.append e st)).
Proof.
  intros ((flushed & Hf) & Hlen). unfold S3Storage.append.
  cbn [S3Storage.pendingWrites S3Storage.entries].
  destruct (Nat.leb 100 _) eqn:Hfull.
  - unfold bind.
    match goal with |- context [S3Storage.flush ?s] =>
      pose proof (flush_pending s) as Hp; pose proof (S3Facts.flush_entries s) as He;
      destruct (S3Storage.flush s) as [[u|err] s'] end;
      unfold ret; cbn [fst snd] in *; unfold pending_suffix; rewrite Hp;
      (split; [exists (S3Storage.entries (fst s')); now rewrite app_nil_r | simpl; lia]).
  - unfold pending_suffix. cbn [fst snd S3Storage.pendingWrites S3Storage.entries]. split.
    + exists flushed. now rewrite app_assoc, <- Hf.
    + apply Nat.leb_gt in Hfull. cbn [S3Storage.pendingWrites] in Hfull. exact Hfull.
Qed.

(** X22. The S3 backend keeps the chain in memory whatever the network
    does: after [initialize] and any sequence of [append]s, with every
    upload failing or not, [getAll] returns the chain of the entries,
    [count] is their number and [verify] accepts the chain with no error;
    and fewer than a hundred entries, the last ones of the chain, wait to
    be uploaded. *)
Theorem s3_backend_keeps_a_valid_chain (sess : SessionEnvelope) (st0 : S3Storage.t * World)
    (es : list value) :
  let st := S3Facts.appended es (snd (S3Storage.initialize sess st0)) in
  S3Storage.getAll st = (Returns (chain_of es), st) /\
  S3Storage.count st = (Returns (Z.of_nat (length es)), st) /\
  S3Storage_verify st = (Returns (true, []), st) /\
  (exists flushed, chain_of es = flushed ++ S3Storage.pendingWrites (fst st)) /\
  length (S3Storage.pendingWrites (fst st)) < 100.
Proof.
  intros st.
  assert (Hentries : S3Storage.entries (fst st) = chain_of es).
  { unfold st. apply S3Facts.appended_entries. apply S3Facts.initialize_entries. }
  assert (Hall : forall es',
            pending_suffix (S3Facts.appended es' (snd (S3Storage.initialize sess st0)))).
  { intros es'. induction es' as [|e es' IH] using rev_ind.
    - split; [exists []; reflexivity | simpl; lia].
    - rewrite S3Facts.S3_appended_snoc. apply append_pending_suffix, IH. }
  pose proof (Hall es) as Hpending. fold st in Hpending.
  split; [unfold S3Storage.getAll; now rewrite Hentries|].
  split; [unfold S3Storage.count; now rewrite Hentries, length_chain_of|].
  split.
  - unfold S3Storage_verify. rewrite Hentries.
    rewrite (verifyChain_of_links (chain_of es))
      by apply chain_invariant_links, chain_of_invariant.
    reflexivity.
  - destruct Hpending as ((flushed & Hf) & Hlen). rewrite Hentries in Hf.
    split; [now exists flushed | exact Hlen].
Qed.

End S3Chain.

Section S3Flush.
Context `{RT : NodeRuntime}.

(** X23. When the hundredth pending entry triggers an upload and the
    request fails, [append] of the S3 backend fails with the error of
    [fetch], although the new entry has been added to the chain; and the
    pending entries have been taken off the queue before the request, so
    the queue is empty afterwards and no longer holds the failed batch. *)
Theorem s3_append_reports_a_failed_upload (st : S3Storage.t * World) (e : value)
    (sess : SessionEnvelope)
    (Hsession : S3Storage.session (fst st) = Some sess)
    (Hpending : length (S3Storage.pendingWrites (fst st)) = 99)
    (Hoffline : forall url body, fst (fetch_PUT url body (snd st)) = false) :
  let chained := next_entry (S3Storage.entries (fst st)) e in
  fst (S3Storage.append e st) = Throws (NodeError "TypeError") /\
  S3Storage.entries (fst (snd (S3Storage.append e st)))
  = S3Storage.entries (fst st) ++ [chained] /\
  S3Storage.pendingWrites (fst (snd (S3Storage.append e st))) = [] /\
  S3Storage.session (fst (snd (S3Storage.append e st))) = Some sess.
Proof.
  cbv zeta. unfold S3Storage.append. cbn [S3Storage.pendingWrites].
  rewrite length_app, Hpending. cbn [length Nat.add Nat.leb].
  unfold bind, S3Storage.flush. cbn [fst snd S3Storage.pendingWrites S3Storage.session].
  rewrite Hsession.
  destruct (S3Storage.pendingWrites (fst st) ++ _) as [|firstEntry rest] eqn:E.
  { apply (f_equal (@length _)) in E. rewrite length_app, Hpending in E. discriminate E. }
  unfold S3Storage.putObject. cbn [fst snd S3Storage.config].
  rewrite Hoffline. cbn [fst snd S3Storage.entries S3Storage.pendingWrites S3Storage.session].
  repeat split.
Qed.

End S3Flush.

(* ====================================================================== *)
(** ** The content store of the in-memory backend *)
(* ====================================================================== *)

(** X24. [storeContent] and [getContent] of the in-memory backend: content
    is read back under the hash it was stored under, a second write under
    the same hash replaces the first, other hashes are not affected, a
    hash that was never written gives undefined, the entries and the
    session are not touched, and [initialize] empties the store. *)
Theorem content_store_round_trip (st : InMemoryStorage.t) (hash content : string) :
  let st' := snd (InMemoryStorage.storeContent hash content st) in
  fst (InMemoryStorage.getContent hash st') = Returns (Some content) /\
  (forall other, other <> hash ->
     fst (InMemoryStorage.getContent other st') = fst (InMemoryStorage.getContent other st)) /\
  (forall content',
     fst (InMemoryStorage.getContent hash
            (snd (InMemoryStorage.storeContent hash content' st')))
     = Returns (Some content')) /\
  InMemoryStorage.entries st' = InMemoryStorage.entries st /\
  InMemoryStorage.session st' = InMemoryStorage.session st /\
  (forall sess other,
     fst (InMemoryStorage.getContent other (snd (InMemoryStorage.initialize sess st')))
     = Returns None) /\
  (forall other, fst (InMemoryStorage.getContent other InMemoryStorage.new) = Returns None).
Proof.
  cbv zeta. unfold InMemoryStorage.getContent, InMemoryStorage.storeContent,
    InMemoryStorage.initialize, InMemoryStorage.new.
  cbn [fst snd InMemoryStorage.contentStore InMemoryStorage.entries InMemoryStorage.session].
  split; [now rewrite lookup_insert_eq|].
  split; [intros other Hne; now rewrite lookup_insert_ne|].
  split; [intros content'; now rewrite lookup_insert_eq|].
  split; [reflexivity|]. split; [reflexivity|].
  split; [intros sess other; now rewrite lookup_empty | intros other; now rewrite lookup_empty].
Qed.

(** *** Examples *)

(** A runtime without a network: every request fails. *)
#[local] Instance OfflineRuntime : NodeRuntime := {|
  World := nat;
  Date_toISOString := fun w => ("2026-01-05T09:00:00.000Z", Datatypes.S w);
  randomUUID := fun w => ("00000000-0000-4000-8000-000000000000", Datatypes.S w);
  fetch_PUT := fun _ _ w => (false, w)
|}.

Definition sample_s3 : S3Storage.t :=
  S3Storage.mk (Some sample_session)
    (S3Storage.mkS3Config "https://s3.example.com" "audit" "id" "secret" None)
    (chain_of (repeat (JObj [("type", JStr "model_call")]) 99))
    (chain_of (repeat (JObj [("type", JStr "model_call")]) 99)) true.

Lemma s3_failed_upload_witness :
  fst (@S3Storage.append OfflineRuntime (JObj [("type", JStr "decision_point")]) (sample_s3, 0))
  = Throws (NodeError "TypeError") /\
  S3Storage.pendingWrites
    (fst (snd (@S3Storage.append OfflineRuntime (JObj [("type", JStr "decision_point")])
                 (sample_s3, 0))))
  = [].
Proof.
  destruct (@s3_append_reports_a_failed_upload OfflineRuntime (sample_s3, 0)
              (JObj [("type", JStr "decision_point")]) sample_session eq_refl
              (length_chain_of _) (fun _ _ => eq_refl))
    as (Hr & _ & Hp & _).
  split; [exact Hr | exact Hp].
Defined.


(* ====================================================================== *)
(** ** Input validation ([validation.ts]) and the hashes of the core *)
(* ====================================================================== *)

(** The options of [validateString]. A [RegExp] without the [g] flag is
    the function that its [test] computes. *)
Record StringOptions : Type := mkStringOptions
  { minLength : option Z;
    maxLength : option Z;
    pattern : option (string -> bool) }.

(** [if (failed) throw new ValidationError(message, details)]; the
    details of the error are left out, as in [Error]. *)
Definition reject_if (failed : bool) (message : string) : Result unit :=
  if failed then Throws (ValidationError message) else Returns tt.

(** [validateString(value, fieldName, options)]. *)
Definition validateString (v : value) (fieldName : string) (options : StringOptions)
  : Result string :=
  match v with
  | JStr s =>
      let len := Z.of_nat (String.length s) in
      Result_bind
        match minLength options with
        | Some m =>
            reject_if (len <? m)%Z
              (fieldName +:+ " must be at least " +:+ number_to_string m +:+ " characters")
        | None => Returns tt
        end (fun _ =>
      Result_bind
        match maxLength options with
        | Some m =>
            reject_if (len >? m)%Z
              (fieldName +:+ " must be at most " +:+ number_to_string m +:+ " characters")
        | None => Returns tt
        end (fun _ =>
      Result_bind
        match pattern options with
        | Some test => reject_if (negb (test s)) (fieldName +:+ " does not match required pattern")
        | None => Returns tt
        end (fun _ =>
      Returns s)))
  | _ => Throws (ValidationError (fieldName +:+ " must be a string"))
  end.

(** The class [[a-f0-9]] under the flag [i]: no code unit other than a
    letter folds to one of [a-f]. *)
Definition hex_class_i (c : ascii) : bool :=
  let n := N_of_ascii c in
  ((97 <=? n)%N && (n <=? 102)%N) || ((48 <=? n)%N && (n <=? 57)%N)
  || ((65 <=? n)%N && (n <=? 70)%N).

(** [/^[class]{n}$/.test(s)]. *)
Fixpoint class_times (class : ascii -> bool) (n : nat) (s : string) : bool :=
  match n, s with
  | O, EmptyString => true
  | S n', String c s' => class c && class_times class n' s'
  | _, _ => false
  end.

(** [/^[a-f0-9]{64}$/i.test(s)]. *)
Definition hash_pattern : string -> bool := class_times hex_class_i 64.

(** [validateHash(value, fieldName)]. *)
Definition validateHash (v : value) (fieldName : string) : Result string :=
  validateString v fieldName (mkStringOptions (Some 64%Z) (Some 64%Z) (Some hash_pattern)).

(** What [sha256] returns: 64 lowercase hexadecimal characters. *)
Definition digest_string (s : string) : Prop :=
  String.length s = 64 /\ hex_string s.

Lemma sha256_digest_string (data : string) : digest_string (sha256 data).
Proof. split; [apply sha256_length | apply sha256_hex]. Qed.

Lemma hex_char_class (c : ascii) : hex_char c = true -> hex_class_i c = true.
Proof.
  unfold hex_char, hex_class_i. cbv zeta. intros H.
  apply orb_true_iff in H as [H|H]; rewrite H.
  - now rewrite orb_true_r.
  - reflexivity.
Qed.

Lemma class_times_all (class : ascii -> bool) (s : string) : forall n,
  String.length s = n ->
  Forall (fun c => class c = true) (list_ascii_of_string s) ->
  class_times class n s = true.
Proof.
  induction s as [|c s IH]; intros n Hn Hall.
  - simpl in Hn. subst n. reflexivity.
  - simpl in Hn. subst n. simpl in Hall. inversion Hall as [|? ? Hc Hs]; subst.
    simpl. rewrite Hc. now apply IH.
Qed.

Lemma validateHash_digest (s fieldName : string) :
  digest_string s -> validateHash (JStr s) fieldName = Returns s.
Proof.
  intros (Hlen & Hhex). unfold validateHash, validateString.
  cbn [minLength maxLength pattern]. rewrite Hlen.
  assert (Hp : hash_pattern s = true).
  { apply class_times_all; [exact Hlen|].
    eapply List.Forall_impl; [|exact Hhex]. intros c Hc. now apply hex_char_class. }
  rewrite Hp. reflexivity.
Qed.

Lemma validateHash_empty (fieldName : string) :
  validateHash (JStr "") fieldName
  = Throws (ValidationError (fieldName +:+ " must be at least 64 characters")).
Proof. reflexivity. Qed.

Lemma digest_truthy (s : string) : digest_string s -> truthy s = true.
Proof.
  intros (Hlen & _). unfold truthy. apply negb_true_iff, String.eqb_neq.
  intros ->. discriminate.
Qed.

Lemma next_level_digests (l : list string) : Forall digest_string (next_level l).
Proof.
  assert (H : forall n l', length l' <= n -> Forall digest_string (next_level l')).
  { induction n as [|n IH]; intros l' Hn.
    - destruct l'; [constructor | simpl in Hn; lia].
    - destruct l' as [|a [|b rest]].
      + constructor.
      + simpl. constructor; [apply sha256_digest_string | constructor].
      + simpl. constructor; [apply sha256_digest_string|]. apply IH. simpl in Hn. lia. }
  now apply (H (length l)).
Qed.

Lemma next_level_nonempty (l : list string) : l <> [] -> next_level l <> [].
Proof. destruct l as [|a [|b rest]]; [contradiction | discriminate | discriminate]. Qed.

(** The root of a tree over digests is a digest. *)
Lemma root_of_digests (fuel : nat) : forall l,
  l <> [] -> Forall digest_string l ->
  digest_string (root_of (l :: build_levels fuel l)).
Proof.
  induction fuel as [|fuel IH]; intros l Hne Hall.
  - destruct l as [|a l]; [contradiction|]. inversion Hall; subst. assumption.
  - simpl build_levels. destruct (Nat.ltb 1 (length l)) eqn:E.
    + specialize (IH (next_level l) (next_level_nonempty l Hne) (next_level_digests l)).
      unfold root_of in *. exact IH.
    + destruct l as [|a l]; [contradiction|]. inversion Hall; subst. assumption.
Qed.

Lemma merkle_root_digest (hashes : list string) :
  hashes <> [] -> Forall digest_string hashes ->
  exists t, buildMerkleTree hashes = Some t /\ digest_string (root t).
Proof.
  intros Hne Hall.
  assert (Hleaf : leaf_hashes hashes).
  { eapply List.Forall_impl; [|exact Hall]. intros h. apply digest_truthy. }
  destruct (buildMerkleTree_returns hashes Hne Hleaf) as (m & k & _ & Hb). cbv zeta in Hb.
  eexists. split; [exact Hb|]. cbn [root].
  apply root_of_digests.
  - destruct hashes; [contradiction | discriminate].
  - apply Forall_app. split; [exact Hall|].
    apply List.Forall_forall. intros h Hh. apply repeat_spec in Hh. subst h.
    destruct (snoc_last hashes Hne) as (l & x & E & ->).
    rewrite E in Hall. apply Forall_app in Hall as (_ & Hx). now inversion Hx.
Qed.

(** X25. Every hash that the core produces passes [validateHash], which
    returns it unchanged: a digest of [sha256] (hence of [hashObject] and
    [hashContent]), the [entry_hash] of every entry of a chain made by
    [append], the [previous_hash] of every entry but the first, and the
    root of the Merkle tree of a list of digests that is not empty. The
    [previous_hash] of the first entry and the root of the tree of no
    hashes are the empty string, which [validateHash] rejects. *)
Theorem hashes_of_the_core_pass_validateHash (fieldName : string) :
  (forall data, validateHash (JStr (sha256 data)) fieldName = Returns (sha256 data)) /\
  (forall obj, validateHash (JStr (hashObject obj)) fieldName = Returns (hashObject obj)) /\
  (forall es c, In c (chain_of es) ->
     validateHash (JStr (entry_hash c)) fieldName = Returns (entry_hash c) /\
     (sequence c <> 0%Z ->
      validateHash (JStr (previous_hash c)) fieldName = Returns (previous_hash c)) /\
     (sequence c = 0%Z ->
      validateHash (JStr (previous_hash c)) fieldName
      = Throws (ValidationError (fieldName +:+ " must be at least 64 characters")))) /\
  (forall hashes, hashes <> [] -> (forall h, In h hashes -> exists data, h = sha256 data) ->
     exists t, buildMerkleTree hashes = Some t /\
               validateHash (JStr (root t)) fieldName = Returns (root t)) /\
  (exists t, buildMerkleTree [] = Some t /\
             validateHash (JStr (root t)) fieldName
             = Throws (ValidationError (fieldName +:+ " must be at least 64 characters"))).
Proof.
  split; [intros data; apply validateHash_digest, sha256_digest_string|].
  split; [intros obj; apply validateHash_digest, sha256_digest_string|].
  split; [|split].
  - intros es c Hc. apply In_nth_error in Hc as (i & Hi).
    destruct (chain_of_invariant es i c Hi) as (Hseq & Hprev & Hhash).
    split; [rewrite Hhash; apply validateHash_digest, sha256_digest_string|].
    split.
    + intros Hnz. destruct i as [|j]; [now rewrite Hseq in Hnz|].
      rewrite Hprev.
      destruct (nth_error (chain_of es) j) as [p|] eqn:Ej.
      * destruct (chain_of_invariant es j p Ej) as (_ & _ & ->).
        apply validateHash_digest, sha256_digest_string.
      * apply nth_error_None in Ej.
        assert (S j < length (chain_of es)) by (apply nth_error_Some; congruence). lia.
    + intros Hz. destruct i as [|j]; [|rewrite Hseq in Hz; lia].
      rewrite Hprev. apply validateHash_empty.
  - intros hashes Hne Hall.
    destruct (merkle_root_digest hashes Hne) as (t & Ht & Hroot).
    + apply List.Forall_forall. intros h Hh. destruct (Hall h Hh) as (data & ->).
      apply sha256_digest_string.
    + exists t. split; [exact Ht | now apply validateHash_digest].
  - eexists. split; [reflexivity | apply validateHash_empty].
Qed.

(* ====================================================================== *)
(** ** What [Ledger.storeContent] keeps *)
(* ====================================================================== *)

(** [entry.content_hash] of a stored entry. *)
Definition content_hash_of (c : ChainedEntry) : option value :=
  match entry c with
  | JObj fields => obj_get fields "content_hash"
  | _ => None
  end.

Lemma ContentReference_content_hash (id ts : string) (p : StoreContentParams) :
  match ContentReference_entry id ts p with
  | JObj fields => obj_get fields "content_hash"
  | _ => None
  end = Some (JStr (sha256 (content p))).
Proof. reflexivity. Qed.

Lemma payloads_of_In `{RT : NodeRuntime} (op : Operation) (ops : list Operation) : forall w,
  In op ops -> exists id ts, In (entry_of op id ts) (payloads_of ops w).
Proof.
  induction ops as [|o ops IH]; intros w Hin; [contradiction|].
  destruct Hin as [->|Hin].
  - eexists; eexists. left. reflexivity.
  - destruct (IH (snd (Date_toISOString (snd (randomUUID w)))) Hin) as (id & ts & H).
    exists id, ts. right. exact H.
Qed.

Section LedgerContent.
Context `{RT : NodeRuntime}.
Variable close_impl : option string -> option string -> M (InMemoryStorage.t * World) AuditLog.
Variable export_impl : ExportOptions -> M (InMemoryStorage.t * World) string.
Variable getSession_impl : M (InMemoryStorage.t * World) SessionEnvelope.

(** X26. [Ledger.storeContent] keeps a reference only. After [start] and
    any sequence of operations on a ledger over the in-memory backend
    (no periodic snapshot configured), the log holds for every
    [storeContent] a [content_reference] entry with the SHA-256 hash of
    the content, but the content store of the backend is empty,
    whatever it held before [start]: [getContent] returns [undefined]
    for every hash, that of the stored content included. *)
Theorem ledger_storeContent_keeps_only_the_hash (config : LedgerConfig)
    (storage : InMemoryStorage.t) (initiatedBy : value) (metadata : option value)
    (ops : list Operation) (w : World)
    (Hnone : snapshotInterval config = None) :
  let SB := InMemoryBackend close_impl export_impl getSession_impl in
  let started := Ledger.start initiatedBy metadata (Ledger.new config storage, w) in
  let backend := Ledger.storage
                   (fst (performed close_impl export_impl getSession_impl ops (snd started))) in
  (forall p, In (StoreContent p) ops ->
     exists c, In c (InMemoryStorage.entries backend) /\
       type_of c = Some (JStr "content_reference") /\
       content_hash_of c = Some (JStr (hashContent (content p)))) /\
  (forall hash, InMemoryStorage.getContent hash backend = (Returns None, backend)).
Proof.
  intros SB started backend.
  destruct (start_holding close_impl export_impl getSession_impl config storage
              initiatedBy metadata w) as (_ & Hstart & _).
  fold SB in Hstart. fold started in Hstart.
  destruct (snd started) as [l0 w0] eqn:E0. cbn [fst snd] in Hstart.
  pose proof (performed_holding close_impl export_impl getSession_impl config _ ops []
                l0 w0 Hnone Hstart) as Hst.
  cbn [app] in Hst. destruct Hst as (_ & _ & _ & _ & Hs).
  unfold backend. rewrite Hs. split.
  - intros p Hin. cbn [InMemoryStorage.entries].
    destruct (payloads_of_In _ ops w0 Hin) as (id & ts & He).
    rewrite <- (map_entry_chain_of (payloads_of ops w0)) in He.
    apply in_map_iff in He as (c & Hc & Hin').
    exists c. split; [exact Hin'|]. unfold type_of, content_hash_of. rewrite Hc.
    split; reflexivity.
  - intros hash. unfold InMemoryStorage.getContent. cbn [InMemoryStorage.contentStore].
    now rewrite lookup_empty.
Qed.

End LedgerContent.

(** *** Examples *)

Lemma ledger_storeContent_witness :
  let backend :=
    Ledger.storage
      (fst (@performed ToyRuntime (@sample_close ToyRuntime ToyCrypto) sample_export
              sample_getSession sample_operations
              (snd (@Ledger.start ToyRuntime _
                      (@InMemoryBackend ToyRuntime (@sample_close ToyRuntime ToyCrypto)
                         sample_export sample_getSession)
                      sample_initiator None
                      (Ledger.new (sample_config None None)
                         (InMemoryStorage.mk None []
                            {[ sha256 "What is my balance?" := "What is my balance?" ]}),
                       toy_world))))) in
  fst (InMemoryStorage.getContent (sha256 "What is my balance?") backend) = Returns None.
Proof.
  destruct (@ledger_storeContent_keeps_only_the_hash ToyRuntime
              (@sample_close ToyRuntime ToyCrypto) sample_export sample_getSession
              (sample_config None None)
              (InMemoryStorage.mk None []
                 {[ sha256 "What is my balance?" := "What is my balance?" ]})
              sample_initiator None sample_operations toy_world eq_refl)
    as (_ & Hget).
  cbv zeta in Hget |- *. now rewrite Hget.
Defined.


(* ====================================================================== *)
(** ** The text of the log file of [FileSystemStorage] *)
(* ====================================================================== *)

Definition line_feed : ascii := "010"%char.

(** [JSON.stringify({ type, data }) + '\n'], the line of a record. *)
Definition record_json (type : string) (data : value) : string :=
  stringify (JObj [("type", JStr type); ("data", data)]).

Definition record_line (type : string) (data : value) : string :=
  record_json type data +:+ String line_feed EmptyString.

(** The text of the log file after [initialize(session)] has written the
    header and [append] has added the line of each entry of [chain]. *)
Definition log_text (session : value) (chain : list ChainedEntry) : string :=
  fold_left (fun text chained => text +:+ record_line "entry" (ChainedEntry_value chained))
            chain (record_line "session" session).

(** The code units below 256 that [trim] removes: tab, line feed,
    vertical tab, form feed, carriage return, space and no-break space. *)
Definition white_space (c : ascii) : bool :=
  let n := N_of_ascii c in
  ((9 <=? n)%N && (n <=? 13)%N) || (n =? 32)%N || (n =? 160)%N.

Fixpoint trimStart (s : string) : string :=
  match s with
  | EmptyString => EmptyString
  | String c rest => if white_space c then trimStart rest else s
  end.

Fixpoint trimEnd (s : string) : string :=
  match s with
  | EmptyString => EmptyString
  | String c rest =>
      match trimEnd rest with
      | EmptyString => if white_space c then EmptyString else String c EmptyString
      | kept => String c kept
      end
  end.

(** [s.trim()]. *)
Definition trim (s : string) : string := trimEnd (trimStart s).

(** [s.split('\n')]. *)
Fixpoint split_lines (s : string) : list string :=
  match s with
  | EmptyString => [EmptyString]
  | String c rest =>
      if Ascii.eqb c line_feed then EmptyString :: split_lines rest
      else match split_lines rest with
           | first :: others => String c first :: others
           | [] => [String c EmptyString]
           end
  end.

(** [content.trim().split('\n')], the lines that [getAll] parses. *)
Definition read_lines (content : string) : list string := split_lines (trim content).

(** *** [JSON.stringify] writes no line feed *)

Definition one_line (s : string) : Prop :=
  Forall (fun c => Ascii.eqb c line_feed = false) (list_ascii_of_string s).

Lemma one_line_app (a b : string) : one_line a -> one_line b -> one_line (a +:+ b).
Proof.
  unfold one_line. intros Ha Hb. rewrite list_ascii_app. apply Forall_app. now split.
Qed.

Lemma one_line_escape_char (c : ascii) : one_line (escape_char c).
Proof.
  destruct c as [[] [] [] [] [] [] [] []]; cbv; repeat constructor.
Qed.

Lemma one_line_escape (s : string) : one_line (escape s).
Proof.
  induction s as [|c s IH]; [constructor|].
  cbn [escape]. apply one_line_app; [apply one_line_escape_char | exact IH].
Qed.

Lemma one_line_quote (s : string) : one_line (QuoteJSONString s).
Proof.
  unfold QuoteJSONString. constructor; [reflexivity|].
  fold (one_line (escape s +:+ String dquote EmptyString)).
  apply one_line_app; [apply one_line_escape | repeat constructor].
Qed.

Lemma one_line_number (n : Z) : one_line (number_to_string n).
Proof.
  eapply List.Forall_impl; [|apply number_to_string_chars].
  intros c Hc. destruct c as [[] [] [] [] [] [] [] []]; try reflexivity; discriminate Hc.
Qed.

Lemma one_line_concat (parts : list string) :
  Forall one_line parts -> one_line (String.concat "," parts).
Proof.
  induction 1 as [|p parts Hp Hparts IH]; [constructor|].
  destruct parts as [|q parts]; [exact Hp|].
  change (String.concat "," (p :: q :: parts))
    with (p +:+ "," +:+ String.concat "," (q :: parts)).
  apply one_line_app; [exact Hp|]. apply one_line_app; [repeat constructor | exact IH].
Qed.

Lemma one_line_stringify (v : value) : one_line (stringify v).
Proof.
  induction v as [|b|n|s|items IH|fields IH] using value_ind'.
  - repeat constructor.
  - destruct b; repeat constructor.
  - apply one_line_number.
  - apply one_line_quote.
  - cbn [stringify]. apply one_line_app; [repeat constructor|].
    apply one_line_app; [|repeat constructor].
    apply one_line_concat. apply Forall_map. exact IH.
  - cbn [stringify]. apply one_line_app; [repeat constructor|].
    apply one_line_app; [|repeat constructor].
    apply one_line_concat. rewrite map_map. apply Forall_map.
    eapply List.Forall_impl; [|exact IH]. intros kv Hkv.
    unfold serialize_property. cbn [fst snd].
    apply one_line_app; [apply one_line_quote|].
    apply one_line_app; [repeat constructor | exact Hkv].
Qed.

(** *** Splitting the text gives the lines back *)

Definition line_break : string := String line_feed EmptyString.

Lemma split_lines_one_line (s : string) : one_line s -> split_lines s = [s].
Proof.
  induction s as [|c s IH]; intros H; [reflexivity|].
  inversion H as [|? ? Hc Hs]; subst. cbn [split_lines]. rewrite Hc, (IH Hs). reflexivity.
Qed.

Lemma split_lines_app (a rest : string) :
  one_line a -> split_lines (a +:+ String line_feed rest) = a :: split_lines rest.
Proof.
  induction a as [|c a IH]; intros H.
  - rewrite string_app_nil_l. reflexivity.
  - inversion H as [|? ? Hc Ha]; subst. rewrite string_app_cons.
    cbn [split_lines]. rewrite Hc, (IH Ha). reflexivity.
Qed.

Lemma concat_cons2 (sep p q : string) (parts : list string) :
  String.concat sep (p :: q :: parts) = p +:+ sep +:+ String.concat sep (q :: parts).
Proof. reflexivity. Qed.

Lemma split_lines_concat (lines : list string) :
  lines <> [] -> Forall one_line lines ->
  split_lines (String.concat line_break lines) = lines.
Proof.
  intros Hne Hall. induction Hall as [|l lines Hl Hlines IH]; [contradiction|].
  destruct lines as [|l' lines].
  - apply split_lines_one_line, Hl.
  - rewrite concat_cons2. unfold line_break at 1. rewrite string_app_cons, string_app_nil_l.
    rewrite (split_lines_app _ _ Hl). f_equal. apply IH. discriminate.
Qed.

(** *** Trimming removes the last line feed only *)

Lemma trimEnd_line_break (s : string) : trimEnd (s +:+ line_break) = trimEnd s.
Proof.
  induction s as [|c s IH]; [reflexivity|].
  rewrite string_app_cons. cbn [trimEnd]. now rewrite IH.
Qed.

Lemma trimEnd_kept (c : ascii) (s : string) :
  white_space c = false -> trimEnd (s +:+ String c EmptyString) = s +:+ String c EmptyString.
Proof.
  intros Hc. induction s as [|a s IH].
  - rewrite string_app_nil_l. cbn [trimEnd]. now rewrite Hc.
  - rewrite string_app_cons. cbn [trimEnd]. rewrite IH.
    destruct s as [|b s]; [rewrite string_app_nil_l | rewrite string_app_cons]; reflexivity.
Qed.

(** A record is written as an object literal. *)
Definition braced (s : string) : Prop :=
  exists body, s = String "{" (body +:+ "}").

Lemma braced_record_json (type : string) (data : value) : braced (record_json type data).
Proof.
  unfold record_json. cbn [stringify]. eexists. rewrite string_app_cons, string_app_nil_l.
  reflexivity.
Qed.

Lemma braced_concat (lines : list string) :
  lines <> [] -> Forall braced lines -> braced (String.concat line_break lines).
Proof.
  intros Hne Hall. induction Hall as [|l lines Hl Hlines IH]; [contradiction|].
  destruct lines as [|l' lines]; [exact Hl|].
  rewrite concat_cons2. destruct Hl as (b & ->).
  destruct IH as (b' & E); [discriminate|]. rewrite E.
  exists (b +:+ "}" +:+ line_break +:+ String "{" b').
  rewrite string_app_cons. f_equal. now rewrite !string_app_assoc.
Qed.

Lemma trim_braced (s : string) : braced s -> trim (s +:+ line_break) = s.
Proof.
  intros (body & ->). unfold trim. rewrite string_app_cons. cbn [trimStart].
  change (white_space "{") with false. cbv iota.
  rewrite <- string_app_cons, trimEnd_line_break.
  change (String "{" (body +:+ "}")) with (String "{" body +:+ String "}" EmptyString).
  now apply trimEnd_kept.
Qed.

(** The text written line by line. *)
Lemma fold_left_lines {A} (line : A -> string) (items : list A) : forall text,
  fold_left (fun text item => text +:+ line item +:+ line_break) items (text +:+ line_break)
  = String.concat line_break (text :: map line items) +:+ line_break.
Proof.
  induction items as [|item items IH] using rev_ind; intros text; [reflexivity|].
  rewrite fold_left_app. cbn [fold_left]. rewrite IH, map_app. cbn [map].
  assert (H : forall (parts : list string) first last,
            String.concat line_break (first :: parts ++ [last])
            = String.concat line_break (first :: parts) +:+ line_break +:+ last).
  { induction parts as [|p parts IHp]; intros first last; [reflexivity|].
    change ((first :: (p :: parts) ++ [last])) with (first :: p :: (parts ++ [last])).
    rewrite !concat_cons2, IHp. now rewrite !string_app_assoc. }
  rewrite H. now rewrite !string_app_assoc.
Qed.

Lemma log_text_lines (session : value) (chain : list ChainedEntry) :
  log_text session chain
  = String.concat line_break
      (record_json "session" session
       :: map (fun chained => record_json "entry" (ChainedEntry_value chained)) chain)
    +:+ line_break.
Proof.
  unfold log_text, record_line. fold line_break.
  exact (fold_left_lines (fun chained => record_json "entry" (ChainedEntry_value chained))
           chain (record_json "session" session)).
Qed.

(** X27. The log file of [FileSystemStorage] keeps one line per record
    whatever the session and the entries hold: a line feed inside a
    string is written escaped, so the text that [initialize] and [append]
    write, trimmed and split at line feeds as [getAll] does, gives back
    exactly the JSON text of the session header followed by that of each
    entry, in order. *)
Theorem log_file_has_one_line_per_record (session : value) (chain : list ChainedEntry) :
  read_lines (log_text session chain)
  = record_json "session" session
    :: map (fun chained => record_json "entry" (ChainedEntry_value chained)) chain.
Proof.
  unfold read_lines. rewrite log_text_lines.
  set (lines := record_json "session" session
                :: map (fun chained => record_json "entry" (ChainedEntry_value chained)) chain).
  assert (Hne : lines <> []) by discriminate.
  assert (Hbraced : Forall braced lines).
  { constructor; [apply braced_record_json|].
    apply Forall_map, List.Forall_forall. intros c _. apply braced_record_json. }
  assert (Hone : Forall one_line lines).
  { constructor; [apply one_line_stringify|].
    apply Forall_map, List.Forall_forall. intros c _. apply one_line_stringify. }
  rewrite (trim_braced _ (braced_concat lines Hne Hbraced)).
  now apply split_lines_concat.
Qed.

(* ====================================================================== *)
(** ** The JSON Lines export ([exportJsonl]) *)
(* ====================================================================== *)

(** [{ type: t, ...o }]: the properties of [o] are assigned in order. *)
Definition with_type (type : string) (o : object value) : value :=
  JObj (fold_left (fun acc kv => obj_set acc (fst kv) (snd kv)) o [("type", JStr type)]).

(** The properties of a chained entry, in the order [createChainedEntry]
    gives them. *)
Definition ChainedEntry_properties (e : ChainedEntry) : object value :=
  [("sequence", JNum (sequence e)); ("entry", entry e);
   ("previous_hash", JStr (previous_hash e)); ("entry_hash", JStr (entry_hash e))].

Section ExportJsonl.

(** The own properties of the session and of the integrity record of a
    log, in the order that they have in the log at hand. *)
Variable session_properties : SessionEnvelope -> object value.
Variable integrity_properties : Integrity -> object value.

(** The array [lines] of [exportJsonl(log, _options)]; spreading an
    [integrity] that is [undefined] adds no property. *)
Definition exportJsonl_lines (log : AuditLog) : list string :=
  [stringify (with_type "session" (session_properties (session log)))]
  ++ map (fun e => stringify (with_type "entry" (ChainedEntry_properties e))) (entries log)
  ++ [stringify (with_type "integrity"
                   match integrity log with
                   | Some i => integrity_properties i
                   | None => []
                   end)].

(** [exportJsonl(log, _options)]: [lines.join('\n')]. *)
Definition exportJsonl (log : AuditLog) : string :=
  String.concat line_break (exportJsonl_lines log).

(** X28. The JSON Lines export of a log has one line for the session, one
    for each entry and one for the integrity record, whatever strings the
    log holds: split at line feeds, the export gives back exactly the
    JSON texts that were joined, so a log of [n] entries exports to
    [n + 2] lines. *)
Theorem exportJsonl_has_one_line_per_record (log : AuditLog) :
  split_lines (exportJsonl log) = exportJsonl_lines log /\
  length (split_lines (exportJsonl log)) = length (entries log) + 2.
Proof.
  assert (H : split_lines (exportJsonl log) = exportJsonl_lines log).
  { unfold exportJsonl. apply split_lines_concat.
    - unfold exportJsonl_lines. discriminate.
    - unfold exportJsonl_lines. apply Forall_app. split.
      + constructor; [apply one_line_stringify | constructor].
      + apply Forall_app. split.
        * apply Forall_map, List.Forall_forall. intros e _. apply one_line_stringify.
        * constructor; [apply one_line_stringify | constructor]. }
  split; [exact H|]. rewrite H. unfold exportJsonl_lines.
  rewrite !length_app, length_map. simpl. lia.
Qed.

End ExportJsonl.


(* ====================================================================== *)
(** ** The bounds of [Ledger.getEntries] *)
(* ====================================================================== *)

Section LedgerEntries.
Context `{RT : NodeRuntime}.
Variable close_impl : option string -> option string -> M (InMemoryStorage.t * World) AuditLog.
Variable export_impl : ExportOptions -> M (InMemoryStorage.t * World) string.
Variable getSession_impl : M (InMemoryStorage.t * World) SessionEnvelope.

(** X29. [Ledger.getEntries] needs both bounds. On a ledger over the
    in-memory backend (no periodic snapshot configured) that has logged
    the operations [ops], a call with one bound only, [start] or [end],
    ignores it and returns the whole chain; a call with both returns the
    entries whose sequence number lies between the two bounds, each
    clamped to the chain as [Array.prototype.slice] does (a negative
    bound counts from the end). *)
Theorem getEntries_needs_both_bounds (config : LedgerConfig)
    (storage : InMemoryStorage.t) (initiatedBy : value) (metadata : option value)
    (ops : list Operation) (w : World) (bound other : Z)
    (Hnone : snapshotInterval config = None) :
  let SB := InMemoryBackend close_impl export_impl getSession_impl in
  let started := Ledger.start initiatedBy metadata (Ledger.new config storage, w) in
  let st := performed close_impl export_impl getSession_impl ops (snd started) in
  let chain := chain_of (payloads_of ops (snd (snd started))) in
  let n := Z.of_nat (length ops) in
  fst (Ledger.getEntries (Some bound) None st) = Returns chain /\
  fst (Ledger.getEntries None (Some bound) st) = Returns chain /\
  fst (Ledger.getEntries (Some bound) (Some other) st)
  = Returns (List.filter (in_range (slice_bound n bound) (slice_bound n other)) chain).
Proof.
  intros SB started st chain n.
  destruct (start_holding close_impl export_impl getSession_impl config storage
              initiatedBy metadata w) as (_ & Hstart & _).
  fold SB in Hstart. fold started in Hstart.
  unfold chain, st. destruct (snd started) as [l0 w0] eqn:E0. cbn [fst snd] in Hstart |- *.
  pose proof (performed_holding close_impl export_impl getSession_impl config _ ops []
                l0 w0 Hnone Hstart) as Hst.
  cbn [app] in Hst. destruct Hst as (_ & Hi & _ & _ & Hs).
  destruct (performed close_impl export_impl getSession_impl ops (l0, w0)) as [l w1].
  cbn [fst] in Hi, Hs.
  unfold Ledger.getEntries, bind. rewrite (ensureInitialized_started l w1 Hi).
  unfold Ledger.on_storage. cbn [storage_getAll storage_getRange SB InMemoryBackend fst snd].
  unfold in_memory. rewrite Hs. cbn [fst snd InMemoryStorage.getAll InMemoryStorage.getRange].
  split; [reflexivity|]. split; [reflexivity|].
  unfold InMemoryStorage.getRange. cbn [fst InMemoryStorage.entries].
  rewrite js_slice_chain, length_payloads_of. reflexivity.
Qed.

End LedgerEntries.

(** *** Examples *)

Lemma getEntries_bounds_witness :
  let st := @performed ToyRuntime (@sample_close ToyRuntime ToyCrypto) sample_export
              sample_getSession sample_operations
              (snd (@Ledger.start ToyRuntime _
                      (@InMemoryBackend ToyRuntime (@sample_close ToyRuntime ToyCrypto)
                         sample_export sample_getSession)
                      sample_initiator None
                      (Ledger.new (sample_config None None) InMemoryStorage.new, toy_world))) in
  exists chain,
    fst (@Ledger.getEntries ToyRuntime _
           (@InMemoryBackend ToyRuntime (@sample_close ToyRuntime ToyCrypto)
              sample_export sample_getSession) (Some 1%Z) None st)
    = Returns chain /\ length chain = 2.
Proof.
  destruct (@getEntries_needs_both_bounds ToyRuntime
              (@sample_close ToyRuntime ToyCrypto) sample_export sample_getSession
              (sample_config None None) InMemoryStorage.new sample_initiator None
              sample_operations toy_world 1%Z 2%Z eq_refl)
    as (Hstart & _).
  cbv zeta in Hstart |- *. eexists. split; [exact Hstart|].
  now rewrite length_chain_of, length_payloads_of.
Defined.
